(** * redigo [redis/scan.go]: reply binding ([Scan], [ScanStruct], [AppendStruct])

    A shallow embedding of [src/redis/scan.go].  The Go code works on
    [interface{}] values and drives the [reflect] package; the embedding
    keeps that shape: a dynamically typed value is a pair of a type
    descriptor and a value, a [reflect.Value] is either a detached copy or an
    addressable place in a store of variables, and every function of the file
    is a function in a small state-and-panic monad over that store. *)

From stdpp Require Import gmap strings list fin_maps.
From Stdlib Require Import ZArith Lia Ascii.

Set Warnings "-register-all".
Local Open Scope Z_scope.

(** ** Go types as [reflect.Type] sees them *)

(** [reflect.Kind]. *)
Inductive kind :=
| KInvalid | KBool
| KInt | KInt8 | KInt16 | KInt32 | KInt64
| KUint | KUint8 | KUint16 | KUint32 | KUint64 | KUintptr
| KFloat32 | KFloat64 | KComplex64 | KComplex128
| KArray | KChan | KFunc | KInterface | KMap | KPtr | KSlice | KString | KStruct
| KUnsafePointer.

#[global] Instance kind_eq_dec : EqDecision kind.
Proof. solve_decision. Defined.

(** Width of an integer type: [int]/[uint] have the platform width. *)
Inductive isize := SzWord | Sz8 | Sz16 | Sz32 | Sz64.

#[global] Instance isize_eq_dec : EqDecision isize.
Proof. solve_decision. Defined.

(** [reflect.StructField], with [Tag] already looked up under the key
    ["redis"] (the value of [f.Tag.Get("redis")]). *)
Record StructField (T : Type) := mkField {
  Name : string;
  PkgPath : string;
  Anonymous : bool;
  Type_ : T;
  Tag : string;
}.
Arguments mkField {T} _ _ _ _ _.
Arguments Name {T} _.
Arguments PkgPath {T} _.
Arguments Anonymous {T} _.
Arguments Type_ {T} _.
Arguments Tag {T} _.

(** A type descriptor.  [TNamed] is a defined type ([type Error string],
    [type T struct {...}]); [TOther] stands for the kinds the file never looks
    into. *)
Inductive okind :=
| OUintptr | OComplex64 | OComplex128 | OArray | OChan | OFunc | OMap
| OUnsafePointer.

#[global] Instance okind_eq_dec : EqDecision okind.
Proof. solve_decision. Defined.

Inductive gtype :=
| TBool
| TInt (w : isize)
| TUint (w : isize)
| TFloat32
| TFloat64
| TString
| TInterface
| TSlice (elem : gtype)
| TPtr (elem : gtype)
| TStruct (fields : list (StructField gtype))
| TNamed (tname : string) (underlying : gtype)
| TOther (k : okind).

Abbreviation field := (StructField gtype).

(** ** Go values *)

Definition loc := nat.

(** A slice is modelled by value: its backing array from the slice's start to
    its capacity, and its length.  Two slices never share a backing array in
    this model, so a statement that a variable keeps its value is made only
    for calls that write into no array (see [fillsSlice]).  A float is its
    IEEE-754 binary64 bit pattern. *)
Inductive value :=
| VBool (b : bool)
| VInt (z : Z)
| VUint (z : Z)
| VFloat (bits : Z)
| VString (s : string)
| VSlice (arr : list value) (len : nat)
| VStruct (flds : list value)
| VPtr (p : option loc)
| VIface (x : option (gtype * value))
| VOther.

(** An [interface{}] value: [None] is the nil interface, [Some (t, v)] holds a
    value [v] of dynamic type [t]. *)
Abbreviation iface := (option (gtype * value)).

(** ** Errors *)

Inductive error :=
| ErrRange                                   (* strconv.ErrRange *)
| ErrSyntax                                  (* strconv.ErrSyntax *)
| NumError (fn num : string) (err : error)   (* *strconv.NumError *)
| CannotConvert (s : option gtype) (d : gtype)
    (* fmt.Errorf("redigo: Scan cannot convert from %s to %s", TypeOf(s), d.Type()) *)
| ErrorsNew (msg : string)                   (* errors.New(msg) *)
| ReplyError (msg : string).                 (* a redis.Error value used as an error *)

(** ** What the file takes from its platform and from [strconv] *)

Inductive wordsize := W32 | W64.

Record Env := {
  (** width of [int] and [uint] *)
  intSize : wordsize;
  (** [strconv.ParseFloat(s, bitSize)]: the float64 result as its bit pattern *)
  ParseFloat : string -> Z -> Z * option error;
  (** [strconv.ParseInt(s, base, bitSize)] *)
  ParseInt : string -> Z -> Z -> Z * option error;
  (** [strconv.ParseUint(s, base, bitSize)] *)
  ParseUint : string -> Z -> Z -> Z * option error;
  (** [strconv.ParseBool(s)] *)
  ParseBool : string -> bool * option error;
  (** [strconv.Atoi(s)] *)
  Atoi : string -> Z * option error;
  (** the conversion [float32(x)] of a float64, as reflect's [SetFloat] does
      for a [float32] variable; both sides are binary64 bit patterns *)
  toFloat32 : Z -> Z;
}.

Definition wordBits (w : wordsize) : Z :=
  match w with W32 => 32 | W64 => 64 end.

(** ** [reflect.Type] methods *)

Definition okind_kind (k : okind) : kind :=
  match k with
  | OUintptr => KUintptr | OComplex64 => KComplex64 | OComplex128 => KComplex128
  | OArray => KArray | OChan => KChan | OFunc => KFunc | OMap => KMap
  | OUnsafePointer => KUnsafePointer
  end.

(** [t.Kind()] *)
Fixpoint Kind (t : gtype) : kind :=
  match t with
  | TBool => KBool
  | TInt SzWord => KInt | TInt Sz8 => KInt8 | TInt Sz16 => KInt16
  | TInt Sz32 => KInt32 | TInt Sz64 => KInt64
  | TUint SzWord => KUint | TUint Sz8 => KUint8 | TUint Sz16 => KUint16
  | TUint Sz32 => KUint32 | TUint Sz64 => KUint64
  | TFloat32 => KFloat32
  | TFloat64 => KFloat64
  | TString => KString
  | TInterface => KInterface
  | TSlice _ => KSlice
  | TPtr _ => KPtr
  | TStruct _ => KStruct
  | TNamed _ u => Kind u
  | TOther k => okind_kind k
  end.

(** [t.Name()]: the name of a defined type, empty otherwise. *)
Definition TypeName (t : gtype) : string :=
  match t with
  | TNamed n _ => n
  | TBool => "bool"
  | TInt SzWord => "int" | TInt Sz8 => "int8" | TInt Sz16 => "int16"
  | TInt Sz32 => "int32" | TInt Sz64 => "int64"
  | TUint SzWord => "uint" | TUint Sz8 => "uint8" | TUint Sz16 => "uint16"
  | TUint Sz32 => "uint32" | TUint Sz64 => "uint64"
  | TFloat32 => "float32" | TFloat64 => "float64"
  | TString => "string"
  | _ => ""
  end.

(** The underlying type: defined-type names removed at the top. *)
Fixpoint underlying (t : gtype) : gtype :=
  match t with
  | TNamed _ u => underlying u
  | _ => t
  end.

(** The zero value of a type. *)
Fixpoint zero (t : gtype) : value :=
  match t with
  | TBool => VBool false
  | TInt _ => VInt 0
  | TUint _ => VUint 0
  | TFloat32 | TFloat64 => VFloat 0
  | TString => VString ""
  | TInterface => VIface None
  | TSlice _ => VSlice [] 0
  | TPtr _ => VPtr None
  | TStruct fs => VStruct (List.map (fun f => zero (Type_ f)) fs)
  | TNamed _ u => zero u
  | TOther _ => VOther
  end.

(** ** The store and the monad *)

(** Variables that pointers point to.  A pointer points to a variable as a
    whole, and the variables of the store do not overlap. *)
Abbreviation heap := (gmap loc value).

(** A step into a composite value: field [i] of a struct, element [i] of a
    slice's backing array. *)
Fixpoint get_path (p : list nat) (v : value) : option value :=
  match p with
  | [] => Some v
  | i :: p' =>
      match v with
      | VStruct fs => fs !! i ≫= get_path p'
      | VSlice arr _ => arr !! i ≫= get_path p'
      | _ => None
      end
  end.

Fixpoint set_path (p : list nat) (x : value) (v : value) : option value :=
  match p with
  | [] => Some x
  | i :: p' =>
      match v with
      | VStruct fs =>
          e ← fs !! i; e' ← set_path p' x e; Some (VStruct (<[i:=e']> fs))
      | VSlice arr n =>
          e ← arr !! i; e' ← set_path p' x e; Some (VSlice (<[i:=e']> arr) n)
      | _ => None
      end
  end.

Definition load_at (l : loc) (p : list nat) (h : heap) : option value :=
  h !! l ≫= get_path p.

Definition store_at (l : loc) (p : list nat) (x : value) (h : heap) : option heap :=
  v ← h !! l; v' ← set_path p x v; Some (<[l:=v']> h).

(** What [panic] is called with: a message of the runtime or of [reflect],
    or an [error] value. *)
Inductive panicVal :=
| PanicMsg (msg : string)
| PanicErr (e : error).

(** A call returns a result and the new store, or panics, or (outside what Go's
    type system lets happen) touches a variable that is not there. *)
Inductive outcome (A : Type) :=
| Ret (a : A) (h : heap)
| Panic (v : panicVal)
| Fault.
Arguments Ret {A} _ _.
Arguments Panic {A} _.
Arguments Fault {A}.

Definition M (A : Type) := heap -> outcome A.

Definition ret {A} (a : A) : M A := fun h => Ret a h.
Definition panic {A} (msg : string) : M A := fun _ => Panic (PanicMsg msg).
Definition bind {A B} (c : M A) (k : A -> M B) : M B :=
  fun h => match c h with
           | Ret a h' => k a h'
           | Panic v => Panic v
           | Fault => Fault
           end.

Notation "'let!' x ':=' c 'in' k" := (bind c (fun x => k))
  (at level 10, x name, c at level 100, k at level 200,
   format "'[v' 'let!'  x  ':='  c  'in' '/' k ']'").
Notation "'do!' c 'in' k" := (bind c (fun _ => k))
  (at level 10, c at level 100, k at level 200,
   format "'[v' 'do!'  c  'in' '/' k ']'").

(** ** Integer representation *)

(** The value an n-bit signed (two's complement) or unsigned variable holds
    after a conversion from a wider integer. *)
Definition wrapS (bits : Z) (z : Z) : Z :=
  (z + 2 ^ (bits - 1)) mod 2 ^ bits - 2 ^ (bits - 1).

Definition wrapU (bits : Z) (z : Z) : Z := z mod 2 ^ bits.

Definition isIntKind (k : kind) : bool :=
  match k with KInt | KInt8 | KInt16 | KInt32 | KInt64 => true | _ => false end.

Definition isUintKind (k : kind) : bool :=
  match k with KUint | KUint8 | KUint16 | KUint32 | KUint64 => true | _ => false end.

(** ** [reflect.Value] *)

(** A [reflect.Value] is the zero Value, a detached copy (what [ValueOf]
    returns; not addressable), or a place: a variable of the store and a path
    into it (what [Elem] of a pointer, [Field] and [Index] of a place return).
    Fields reached from exported fields only are settable; the file never goes
    through an unexported one, so the read-only flag is not modelled. *)
Inductive rvalue :=
| RZero
| RCopy (t : gtype) (v : value)
| RPlace (t : gtype) (l : loc) (p : list nat).

Definition ValueOf (i : iface) : rvalue :=
  match i with
  | None => RZero
  | Some (t, v) => RCopy t v
  end.

Definition TypeOf (i : iface) : option gtype := fst <$> i.

(** [v.Kind()]: [Invalid] for the zero Value. *)
Definition rKind (d : rvalue) : kind :=
  match d with
  | RZero => KInvalid
  | RCopy t _ | RPlace t _ _ => Kind t
  end.

(** [v.Type()] *)
Definition rType (d : rvalue) : M gtype :=
  match d with
  | RZero => panic "reflect: call of reflect.Value.Type on zero Value"
  | RCopy t _ | RPlace t _ _ => ret t
  end.

(** Reading and writing the variable behind a [reflect.Value]. *)
Definition load (d : rvalue) : M value := fun h =>
  match d with
  | RZero => Panic (PanicMsg "reflect: call of reflect.Value method on zero Value")
  | RCopy _ v => Ret v h
  | RPlace _ l p =>
      match load_at l p h with
      | Some v => Ret v h
      | None => Fault
      end
  end.

Definition store (d : rvalue) (x : value) : M unit := fun h =>
  match d with
  | RZero => Panic (PanicMsg "reflect: call of reflect.Value method on zero Value")
  | RCopy _ _ => Panic (PanicMsg "reflect: reflect.Value.Set using unaddressable value")
  | RPlace _ l p =>
      match store_at l p x h with
      | Some h' => Ret tt h'
      | None => Fault
      end
  end.

Section Reflect.
Context (env : Env).

Definition isizeBits (w : isize) : Z :=
  match w with
  | SzWord => wordBits (intSize env)
  | Sz8 => 8 | Sz16 => 16 | Sz32 => 32 | Sz64 => 64
  end.

(** [t.Bits()] *)
Definition Bits (t : gtype) : M Z :=
  match underlying t with
  | TInt w | TUint w => ret (isizeBits w)
  | TFloat32 => ret 32
  | TFloat64 => ret 64
  | TOther OUintptr => ret (wordBits (intSize env))
  | TOther OComplex64 => ret 64
  | TOther OComplex128 => ret 128
  | _ => panic "reflect: Bits of non-arithmetic Type"
  end.

(** [t.Elem()] *)
Definition typeElem (t : gtype) : M gtype :=
  match underlying t with
  | TSlice e | TPtr e => ret e
  | TOther OArray | TOther OChan | TOther OMap => fun _ => Fault
  | _ => panic "reflect: Elem of invalid type"
  end.

(** [v.SetInt(x)]: the variable takes [x] cut to its width. *)
Definition SetInt (d : rvalue) (x : Z) : M unit :=
  if isIntKind (rKind d) then
    let! t := rType d in
    let! b := Bits t in
    store d (VInt (wrapS b x))
  else panic "reflect: call of reflect.Value.SetInt on non-int Value".

(** [v.Int()] *)
Definition GetInt (d : rvalue) : M Z :=
  if isIntKind (rKind d) then
    let! v := load d in
    match v with VInt z => ret z | _ => fun _ => Fault end
  else panic "reflect: call of reflect.Value.Int on non-int Value".

(** [v.SetUint(x)] *)
Definition SetUint (d : rvalue) (x : Z) : M unit :=
  if isUintKind (rKind d) || bool_decide (rKind d = KUintptr) then
    let! t := rType d in
    let! b := Bits t in
    store d (VUint (wrapU b x))
  else panic "reflect: call of reflect.Value.SetUint on non-uint Value".

(** [v.Uint()] *)
Definition GetUint (d : rvalue) : M Z :=
  if isUintKind (rKind d) || bool_decide (rKind d = KUintptr) then
    let! v := load d in
    match v with VUint z => ret z | _ => fun _ => Fault end
  else panic "reflect: call of reflect.Value.Uint on non-uint Value".

(** [v.SetFloat(x)] *)
Definition SetFloat (d : rvalue) (x : Z) : M unit :=
  match rKind d with
  | KFloat32 => store d (VFloat (toFloat32 env x))
  | KFloat64 => store d (VFloat x)
  | _ => panic "reflect: call of reflect.Value.SetFloat on non-float Value"
  end.

(** [v.SetBool(x)] *)
Definition SetBool (d : rvalue) (x : bool) : M unit :=
  match rKind d with
  | KBool => store d (VBool x)
  | _ => panic "reflect: call of reflect.Value.SetBool on non-bool Value"
  end.

(** [v.SetString(x)] *)
Definition SetString (d : rvalue) (x : string) : M unit :=
  match rKind d with
  | KString => store d (VString x)
  | _ => panic "reflect: call of reflect.Value.SetString on non-string Value"
  end.

(** [v.SetBytes(x)]: [x] is the slice value itself (header copy). *)
Definition SetBytes (d : rvalue) (x : value) : M unit :=
  match rKind d with
  | KSlice =>
      let! t := rType d in
      let! e := typeElem t in
      if bool_decide (Kind e = KUint8) then store d x
      else panic "reflect.Value.SetBytes of non-byte slice"
  | _ => panic "reflect: call of reflect.Value.SetBytes on non-slice Value"
  end.

(** [v.Cap()] *)
Definition Cap (d : rvalue) : M nat :=
  match rKind d with
  | KSlice =>
      let! v := load d in
      match v with VSlice arr _ => ret (length arr) | _ => fun _ => Fault end
  | _ => panic "reflect: call of reflect.Value.Cap on non-slice Value"
  end.

(** [v.SetLen(n)] *)
Definition SetLen (d : rvalue) (n : nat) : M unit :=
  match rKind d with
  | KSlice =>
      let! v := load d in
      match v with
      | VSlice arr _ =>
          if bool_decide (n <= length arr)%nat then store d (VSlice arr n)
          else panic "reflect: slice length out of range in SetLen"
      | _ => fun _ => Fault
      end
  | _ => panic "reflect: call of reflect.Value.SetLen on non-slice Value"
  end.

(** [reflect.MakeSlice(t, len, cap)], as a value ready for [Set]. *)
Definition MakeSlice (t : gtype) (len cap : nat) : M value :=
  match Kind t with
  | KSlice =>
      let! e := typeElem t in
      if bool_decide (len <= cap)%nat then ret (VSlice (replicate cap (zero e)) len)
      else panic "reflect.MakeSlice: len > cap"
  | _ => panic "reflect.MakeSlice of non-slice type"
  end.

(** [v.Set(x)] *)
Definition Set_ (d : rvalue) (x : value) : M unit := store d x.

(** [v.Index(i)] for a slice.  An element of a place is a place; the file
    indexes places only. *)
Definition Index (d : rvalue) (i : nat) : M rvalue :=
  match rKind d with
  | KSlice =>
      let! t := rType d in
      let! e := typeElem t in
      let! v := load d in
      match v with
      | VSlice arr n =>
          if bool_decide (i < n)%nat then
            match d with
            | RPlace _ l p => ret (RPlace e l (p ++ [i]))
            | _ =>
                match arr !! i with
                | Some x => ret (RCopy e x)
                | None => fun _ => Fault
                end
            end
          else panic "reflect: slice index out of range"
      | _ => fun _ => Fault
      end
  | _ => panic "reflect: call of reflect.Value.Index on non-indexable Value"
  end.

(** [v.IsNil()]; pointers and interfaces are the cases modelled. *)
Definition IsNil (d : rvalue) : M bool :=
  match rKind d with
  | KPtr =>
      let! v := load d in
      match v with VPtr p => ret (bool_decide (p = None)) | _ => fun _ => Fault end
  | KInterface =>
      let! v := load d in
      match v with VIface x => ret (bool_decide (x = None :> option _)) | _ => fun _ => Fault end
  | KChan | KFunc | KMap | KSlice | KUnsafePointer => fun _ => Fault
  | _ => panic "reflect: call of reflect.Value.IsNil on non-nillable Value"
  end.

(** [v.Elem()] *)
Definition Elem (d : rvalue) : M rvalue :=
  match rKind d with
  | KPtr =>
      let! t := rType d in
      let! e := typeElem t in
      let! v := load d in
      match v with
      | VPtr None => ret RZero
      | VPtr (Some l) => ret (RPlace e l [])
      | _ => fun _ => Fault
      end
  | KInterface =>
      let! v := load d in
      match v with VIface x => ret (ValueOf x) | _ => fun _ => Fault end
  | _ => panic "reflect: call of reflect.Value.Elem on non-pointer Value"
  end.

(** [t.Field(i)] *)
Definition TypeField (t : gtype) (i : nat) : M field :=
  match underlying t with
  | TStruct fs =>
      match fs !! i with
      | Some f => ret f
      | None => panic "reflect: Field index out of bounds"
      end
  | _ => panic "reflect: Field of non-struct type"
  end.

(** [v.Field(i)] *)
Definition Field (d : rvalue) (i : nat) : M rvalue :=
  match rKind d with
  | KStruct =>
      let! t := rType d in
      let! f := TypeField t i in
      match d with
      | RPlace _ l p => ret (RPlace (Type_ f) l (p ++ [i]))
      | _ =>
          let! v := load d in
          match get_path [i] v with
          | Some x => ret (RCopy (Type_ f) x)
          | None => fun _ => Fault
          end
      end
  | _ => panic "reflect: call of reflect.Value.Field on non-struct Value"
  end.

(** [v.FieldByIndex(index)] *)
Fixpoint FieldByIndex (d : rvalue) (index : list nat) : M rvalue :=
  match index with
  | [] => ret d
  | i :: index' =>
      let! d' := Field d i in
      FieldByIndex d' index'
  end.

(** [v.Interface()] *)
Definition Interface_ (d : rvalue) : M iface :=
  let! t := rType d in
  let! v := load d in
  match Kind t, v with
  | KInterface, VIface x => ret x
  | KInterface, _ => fun _ => Fault
  | _, _ => ret (Some (t, v))
  end.

End Reflect.

(** ** Byte strings *)

Definition byteOf (v : value) : ascii :=
  match v with
  | VUint z => ascii_of_N (Z.to_N z)
  | _ => ascii_of_N 0
  end.

(** [string(s)] for a [[]byte] value [s]. *)
Definition string_of_bytes (s : value) : string :=
  match s with
  | VSlice arr n => String.string_of_list_ascii (List.map byteOf (take n arr))
  | _ => ""
  end.

(** [[]byte(s)] for a string [s]. *)
Definition bytes_of_string (s : string) : value :=
  VSlice (List.map (fun a => VUint (Z.of_N (N_of_ascii a))) (String.list_ascii_of_string s))
         (String.length s).

(** The types the type switches of the file name. *)
Definition bytesT : gtype := TSlice (TUint Sz8).        (* []byte *)
Definition int64T : gtype := TInt Sz64.                 (* int64 *)
Definition valuesT : gtype := TSlice TInterface.        (* []interface{} *)
Definition ErrorT : gtype := TNamed "redis.Error" TString.  (* type Error string *)

(** [*d = x] for a pointer value [d]. *)
Definition assignDeref (d : value) (x : value) : M unit := fun h =>
  match d with
  | VPtr (Some l) =>
      match store_at l [] x h with
      | Some h' => Ret tt h'
      | None => Fault
      end
  | VPtr None =>
      Panic (PanicMsg "runtime error: invalid memory address or nil pointer dereference")
  | _ => Fault
  end.

(** ** Compiled struct specifications *)

Record fieldSpec := mkFieldSpec {
  fs_name : string;        (* name *)
  fs_index : list nat;     (* index *)
}.

#[global] Instance fieldSpec_eq_dec : EqDecision fieldSpec.
Proof. solve_decision. Defined.

Record structSpec := mkStructSpec {
  ss_m : gmap string fieldSpec;   (* m *)
  ss_l : list fieldSpec;          (* l *)
}.

(** [ss.fieldSpec(name)]: [None] is the nil [*fieldSpec]. *)
Definition fieldSpecOf (ss : structSpec) (name : value) : option fieldSpec :=
  ss_m ss !! string_of_bytes name.

(** A computation that touches no variable: it returns or panics. *)
Inductive result (A : Type) :=
| Ok (a : A)
| Panicked (v : panicVal).
Arguments Ok {A} _.
Arguments Panicked {A} _.

Definition liftR {A} (r : result A) : M A := fun h =>
  match r with
  | Ok a => Ret a h
  | Panicked v => Panic v
  end.

(** [strings.Split(s, sep)] for a one-byte separator. *)
Fixpoint Split (s : string) (sep : ascii) : list string :=
  match s with
  | EmptyString => [EmptyString]
  | String c s' =>
      if Ascii.eqb c sep then EmptyString :: Split s' sep
      else match Split s' sep with
           | p :: ps => String c p :: ps
           | [] => [String c EmptyString]
           end
  end.

(** What the tag of a named field decides in [compileStructSpec]: the field
    is left out ([continue]), the compiler panics, or the field is entered
    under a name. *)
Inductive tagResult :=
| TagSkip
| TagPanic (e : error)
| TagName (name : string).

Definition resolveTag (tname : string) (f : field) : tagResult :=
  let p := Split (Tag f) "," in
  match p with
  | [] => TagName (Name f)
  | p0 :: rest =>
      if String.eqb p0 "-" then TagSkip
      else
        let name := if (0 <? String.length p0)%nat then p0 else Name f in
        match rest with
        | s :: _ =>
            TagPanic (ErrorsNew ("redigo: unknown field flag " +:+ s +:+ " for type " +:+ tname))
        | [] => TagName name
        end
  end.

(** The loop that removes the entries named [name] from [ss.l] in place:
    [i] reads, [j] writes, and the slice is cut at [j]. *)
Fixpoint removeLoop (name : string) (n i j : nat) (l : list fieldSpec)
  : list fieldSpec * nat :=
  match n with
  | O => (l, j)
  | S n' =>
      match l !! i with
      | Some x =>
          if bool_decide (name ≠ fs_name x)
          then removeLoop name n' (S i) (S j) (<[j:=x]> l)
          else removeLoop name n' (S i) j l
      | None => (l, j)
      end
  end.

Definition removeNamed (name : string) (l : list fieldSpec) : list fieldSpec :=
  let '(l', j) := removeLoop name (length l) 0 0 l in take j l'.

(** The body of [compileStructSpec] for a field entered under [name]: the
    switch on [len(index)] against the recorded depth. *)
Definition enterField (name : string) (index : list nat) (i : nat)
    (depth : gmap string Z) (ss : structSpec) : gmap string Z * structSpec :=
  let d := match depth !! name with Some d => d | None => Z.shiftl 1 30 end in
  if Z.of_nat (length index) =? d then
    (depth, {| ss_m := delete name (ss_m ss); ss_l := removeNamed name (ss_l ss) |})
  else if Z.of_nat (length index) <? d then
    let fs := {| fs_name := name; fs_index := index ++ [i] |} in
    (<[name := Z.of_nat (length index)]> depth,
     {| ss_m := <[name := fs]> (ss_m ss); ss_l := ss_l ss ++ [fs] |})
  else (depth, ss).

(** The loop of [compileStructSpec] over the fields of a struct type:
    [fs] holds the fields from position [i] on, [compile] is the recursive
    call, [tname] is [t.Name()]. *)
Section CompileFields.
Context (compile : string → gtype → gmap string Z → list nat → structSpec
                   → result (gmap string Z * structSpec)).
Context (tname : string) (index : list nat).

Fixpoint compileFields (fs : list field) (i : nat) (depth : gmap string Z)
    (ss : structSpec) {struct fs} : result (gmap string Z * structSpec) :=
  match fs with
  | [] => Ok (depth, ss)
  | f :: fs' =>
      if negb (String.eqb (PkgPath f) "") then
        (* Ignore unexported fields. *)
        compileFields fs' (S i) depth ss
      else if Anonymous f then
        if bool_decide (Kind (Type_ f) = KStruct) then
          match compile (TypeName (Type_ f)) (Type_ f) depth (index ++ [i]) ss with
          | Ok (depth', ss') => compileFields fs' (S i) depth' ss'
          | Panicked v => Panicked v
          end
        else compileFields fs' (S i) depth ss
      else
        match resolveTag tname f with
        | TagSkip => compileFields fs' (S i) depth ss
        | TagPanic e => Panicked (PanicErr e)
        | TagName name =>
            let '(depth', ss') := enterField name index i depth ss in
            compileFields fs' (S i) depth' ss'
        end
  end.
End CompileFields.

(** [compileStructSpec(t, depth, index, ss)]; [t.NumField()] panics when [t]
    is no struct type. *)
Fixpoint compileAt (tname : string) (t : gtype) (depth : gmap string Z)
    (index : list nat) (ss : structSpec) {struct t}
  : result (gmap string Z * structSpec) :=
  match t with
  | TNamed _ u => compileAt tname u depth index ss
  | TStruct fields => compileFields compileAt tname index fields O depth ss
  | _ => Panicked (PanicMsg "reflect: NumField of non-struct type")
  end.

Definition compileStructSpec (t : gtype) (depth : gmap string Z)
    (index : list nat) (ss : structSpec) : result (gmap string Z * structSpec) :=
  compileAt (TypeName t) t depth index ss.

(** [structSpecForType(t)].  The process-wide cache memoises a function of
    [t] alone and is filled only when the compilation returns, so a call
    yields what compiling [t] from empty maps yields. *)
Definition structSpecForType (t : gtype) : result structSpec :=
  match compileStructSpec t ∅ [] {| ss_m := ∅; ss_l := [] |} with
  | Ok (_, ss) => Ok ss
  | Panicked msg => Panicked msg
  end.

(** ** The conversion engine *)

Section Convert.
Context (env : Env).

(** [cannotConvert(d, s)] *)
Definition cannotConvert (d : rvalue) (s : iface) : M error :=
  let! t := rType d in
  ret (CannotConvert (TypeOf s) t).

(** [convertAssignBytes(d, s)]; [s] is the [[]byte] value. *)
Definition convertAssignBytes (d : rvalue) (s : value) : M (option error) :=
  let! t := rType d in
  match Kind t with
  | KFloat32 | KFloat64 =>
      let! b := Bits env t in
      let '(x, err) := ParseFloat env (string_of_bytes s) b in
      do! SetFloat env d x in
      ret err
  | KInt | KInt8 | KInt16 | KInt32 | KInt64 =>
      let! b := Bits env t in
      let '(x, err) := ParseInt env (string_of_bytes s) 10 b in
      do! SetInt env d x in
      ret err
  | KUint | KUint8 | KUint16 | KUint32 | KUint64 =>
      let! b := Bits env t in
      let '(x, err) := ParseUint env (string_of_bytes s) 10 b in
      do! SetUint env d x in
      ret err
  | KBool =>
      let '(x, err) := ParseBool env (string_of_bytes s) in
      do! SetBool d x in
      ret err
  | KString =>
      do! SetString d (string_of_bytes s) in
      ret None
  | KSlice =>
      let! e := typeElem t in
      if bool_decide (Kind e ≠ KUint8) then
        let! err := cannotConvert d (Some (bytesT, s)) in
        ret (Some err)
      else
        do! SetBytes d s in
        ret None
  | _ =>
      let! err := cannotConvert d (Some (bytesT, s)) in
      ret (Some err)
  end.

(** [convertAssignInt(d, s)] *)
Definition convertAssignInt (d : rvalue) (s : Z) : M (option error) :=
  let! t := rType d in
  match Kind t with
  | KInt | KInt8 | KInt16 | KInt32 | KInt64 =>
      do! SetInt env d s in
      let! x := GetInt d in
      if bool_decide (x ≠ s) then
        do! SetInt env d 0 in
        ret (Some ErrRange)
      else ret None
  | KUint | KUint8 | KUint16 | KUint32 | KUint64 =>
      if bool_decide (s < 0) then ret (Some ErrRange)
      else
        let x := wrapU 64 s in
        do! SetUint env d x in
        let! y := GetUint d in
        if bool_decide (y ≠ x) then
          do! SetUint env d 0 in
          ret (Some ErrRange)
        else ret None
  | KBool =>
      do! SetBool d (bool_decide (s ≠ 0)) in
      ret None
  | _ =>
      let! err := cannotConvert d (Some (int64T, VInt s)) in
      ret (Some err)
  end.

(** The element loop of [convertAssignValues]: [elems] are
    [s[i]], [s[i+1]], ... *)
Fixpoint convertAssignValuesLoop (d : rvalue) (elems : list value) (i : nat)
  : M (option error) :=
  match elems with
  | [] => ret None
  | x :: rest =>
      let! err :=
        match x with
        | VIface (Some (TSlice (TUint Sz8), b)) =>
            let! e := Index d i in
            convertAssignBytes e b
        | VIface (Some (TInt Sz64, VInt z)) =>
            let! e := Index d i in
            convertAssignInt e z
        | VIface s =>
            let! err := cannotConvert d s in
            ret (Some err)
        | _ => fun _ => Fault
        end in
      match err with
      | Some e => ret (Some e)
      | None => convertAssignValuesLoop d rest (S i)
      end
  end.

(** [convertAssignValues(d, s)]; [s] is the [[]interface{}] value. *)
Definition convertAssignValues (d : rvalue) (s : value) : M (option error) :=
  let! t := rType d in
  if bool_decide (Kind t ≠ KSlice) then
    let! err := cannotConvert d (Some (valuesT, s)) in
    ret (Some err)
  else
    match s with
    | VSlice arr n =>
        let! c := Cap d in
        do! (if bool_decide (c < n)%nat then
               let! v := MakeSlice t n n in
               Set_ d v
             else SetLen d n) in
        convertAssignValuesLoop d (take n arr) 0
    | _ => fun _ => Fault
    end.

(** The fall-back of [convertAssign] for a destination the type switch does
    not name: [conv] is [convertAssignBytes], [convertAssignInt] or
    [convertAssignValues] applied to the source. *)
Definition convertAssignReflect (d : iface) (s : iface)
    (conv : rvalue -> M (option error)) : M (option error) :=
  let d := ValueOf d in
  let! t := rType d in
  if bool_decide (Kind t ≠ KPtr) then
    let! err := cannotConvert d s in
    ret (Some err)
  else
    let! e := Elem d in
    conv e.

(** [convertAssign(d, s)] *)
Definition convertAssign (d : iface) (s : iface) : M (option error) :=
  match s with
  | None => ret None (* ignore *)
  | Some (TSlice (TUint Sz8), b) =>
      match d with
      | Some (TPtr TString, p) =>
          do! assignDeref p (VString (string_of_bytes b)) in
          ret None
      | Some (TPtr (TInt SzWord), p) =>
          let '(x, err) := Atoi env (string_of_bytes b) in
          do! assignDeref p (VInt x) in
          ret err
      | Some (TPtr TBool, p) =>
          let '(x, err) := ParseBool env (string_of_bytes b) in
          do! assignDeref p (VBool x) in
          ret err
      | Some (TPtr (TSlice (TUint Sz8)), p) =>
          do! assignDeref p b in
          ret None
      | Some (TPtr TInterface, p) =>
          do! assignDeref p (VIface s) in
          ret None
      | None => ret None (* skip value *)
      | _ => convertAssignReflect d s (fun e => convertAssignBytes e b)
      end
  | Some (TInt Sz64, VInt z) =>
      match d with
      | Some (TPtr (TInt SzWord), p) =>
          let x := wrapS (wordBits (intSize env)) z in
          let '(x, err) :=
            if bool_decide (x ≠ z) then (0, Some ErrRange) else (x, None) in
          do! assignDeref p (VInt x) in
          ret err
      | Some (TPtr TBool, p) =>
          do! assignDeref p (VBool (bool_decide (z ≠ 0))) in
          ret None
      | Some (TPtr TInterface, p) =>
          do! assignDeref p (VIface s) in
          ret None
      | None => ret None (* skip value *)
      | _ => convertAssignReflect d s (fun e => convertAssignInt e z)
      end
  | Some (TSlice TInterface, vs) =>
      match d with
      | Some (TPtr (TSlice TInterface), p) =>
          do! assignDeref p vs in
          ret None
      | Some (TPtr TInterface, p) =>
          do! assignDeref p (VIface s) in
          ret None
      | None => ret None (* skip value *)
      | _ => convertAssignReflect d s (fun e => convertAssignValues e vs)
      end
  | Some (TNamed "redis.Error" TString, VString msg) =>
      ret (Some (ReplyError msg))
  | Some _ =>
      let! err := cannotConvert (ValueOf d) s in
      ret (Some err)
  end.

(** ** The binding operations *)

(** The loop of [Scan]: [dest] holds the destinations from position [i] on. *)
Fixpoint scanLoop (src : list iface) (i : nat) (dest : list iface)
  : M (option error) :=
  match dest with
  | [] => ret None
  | d :: dest' =>
      match src !! i with
      | None => panic "runtime error: index out of range"
      | Some s =>
          let! err := convertAssign d s in
          match err with
          | Some e => ret (Some e)
          | None => scanLoop src (S i) dest'
          end
      end
  end.

(** [Scan(src, dest...)] *)
Definition Scan (src : list iface) (dest : list iface)
  : M (list iface * option error) :=
  if bool_decide (length src < length dest)%nat then
    ret ([], Some (ErrorsNew "redigo: Scan multibulk short"))
  else
    let! err := scanLoop src 0 dest in
    ret (drop (length dest) src, err).

(** The switch of [ScanStruct] on the value [s] of a pair, for the field
    [f]. *)
Definition scanStructValue (f : rvalue) (s : iface) : M (option error) :=
  match s with
  | None => ret None (* ignore *)
  | Some (TSlice (TUint Sz8), b) => convertAssignBytes f b
  | Some (TInt Sz64, VInt z) => convertAssignInt f z
  | Some _ =>
      let! err := cannotConvert f s in
      ret (Some err)
  end.

(** The loop of [ScanStruct]: [src] holds [src[i]], [src[i+1]], ... *)
Fixpoint scanStructLoop (ss : structSpec) (d : rvalue) (src : list iface)
  : M (option error) :=
  match src with
  | [] => ret None
  | [_] => panic "runtime error: index out of range"
  | key :: s :: rest =>
      match key with
      | Some (TSlice (TUint Sz8), name) =>
          match fieldSpecOf ss name with
          | None => scanStructLoop ss d rest
          | Some fs =>
              let! f := FieldByIndex d (fs_index fs) in
              let! err := scanStructValue f s in
              match err with
              | Some e => ret (Some e)
              | None => scanStructLoop ss d rest
              end
          end
      | _ => ret (Some (ErrorsNew "redigo: ScanStruct key not a bulk value"))
      end
  end.

(** [ScanStruct(src, dest)] *)
Definition ScanStruct (src : list iface) (dest : iface) : M (option error) :=
  let d := ValueOf dest in
  let! bad := (if bool_decide (rKind d ≠ KPtr) then ret true else IsNil d) in
  if (bad : bool) then
    ret (Some (ErrorsNew "redigo: ScanStruct value must be non-nil pointer"))
  else
    let! d := Elem d in
    let! t := rType d in
    let! ss := liftR (structSpecForType t) in
    if bool_decide (length src mod 2 ≠ 0)%nat then
      ret (Some (ErrorsNew "redigo: ScanStruct expects even number of values in values"))
    else scanStructLoop ss d src.

(** The loop of [AppendStruct] over [ss.l]. *)
Fixpoint appendStructLoop (v : rvalue) (l : list fieldSpec) (args : list iface)
  : M (list iface) :=
  match l with
  | [] => ret args
  | fs :: l' =>
      let! fv := FieldByIndex v (fs_index fs) in
      let! x := Interface_ fv in
      appendStructLoop v l' (args ++ [Some (TString, VString (fs_name fs)); x])
  end.

(** [AppendStruct(args, src)] *)
Definition AppendStruct (args : list iface) (src : iface)
  : M (list iface * option error) :=
  let v := ValueOf src in
  let rest (v : rvalue) : M (list iface * option error) :=
    if bool_decide (rKind v ≠ KStruct) then
      ret ([], Some (ErrorsNew
        "redigo: AppendStruct argument must be a struct or pointer to a struct"))
    else
      let! t := rType v in
      let! ss := liftR (structSpecForType t) in
      let! args := appendStructLoop v (ss_l ss) args in
      ret (args, None) in
  if bool_decide (rKind v = KPtr) then
    let! isnil := IsNil v in
    if (isnil : bool) then
      ret ([], Some (ErrorsNew "redigo: AppendStruct argument must not be nil"))
    else
      let! v := Elem v in
      rest v
  else rest v.

(** [FlattenStruct(args, src)] *)
Definition FlattenStruct (args : list iface) (src : iface) : M (list iface) :=
  let! r := AppendStruct args src in
  match r with
  | (_, Some err) => fun _ => Panic (PanicErr err)
  | (res, None) => ret res
  end.

End Convert.

(** ** An environment to run the examples in

    64-bit [int], and [strconv]'s decimal integer and boolean parsing.
    Float parsing is outside this development: [ParseFloat] reports a syntax
    error on every input here, and no example below scans a float. *)

Module RefEnv.

Definition isDigit (c : ascii) : bool :=
  (48 <=? N_of_ascii c)%N && (N_of_ascii c <=? 57)%N.

Definition digitVal (c : ascii) : Z := Z.of_N (N_of_ascii c) - 48.

(** The digit loop of [ParseUint]: [Some n] at the end of a well-formed
    number, [None] on a byte that is no digit; the flag says that the value
    passed [maxVal], where the loop stops. *)
Fixpoint uintLoop (maxVal : Z) (s : string) (n : Z) : option Z * bool :=
  match s with
  | EmptyString => (Some n, false)
  | String c s' =>
      if isDigit c then
        let n1 := n * 10 + digitVal c in
        if maxVal <? n1 then (Some maxVal, true) else uintLoop maxVal s' n1
      else (None, false)
  end.

Definition bitSizeOf (bitSize : Z) : Z := if bitSize =? 0 then 64 else bitSize.

Definition parseUintAs (fn : string) (s0 s : string) (bitSize : Z)
  : Z * option error :=
  match s with
  | EmptyString => (0, Some (NumError fn s0 ErrSyntax))
  | _ =>
      match uintLoop (2 ^ bitSizeOf bitSize - 1) s 0 with
      | (Some n, false) => (n, None)
      | (Some n, true) => (n, Some (NumError fn s0 ErrRange))
      | (None, _) => (0, Some (NumError fn s0 ErrSyntax))
      end
  end.

Definition parseUint (s : string) (base bitSize : Z) : Z * option error :=
  parseUintAs "ParseUint" s s bitSize.

Definition parseIntAs (fn : string) (s : string) (bitSize : Z) : Z * option error :=
  match s with
  | EmptyString => (0, Some (NumError fn s ErrSyntax))
  | String c s' =>
      let neg := Ascii.eqb c "-" in
      let digits := if Ascii.eqb c "+" || neg then s' else s in
      match parseUintAs fn s digits bitSize with
      | (_, Some (NumError _ _ ErrSyntax)) => (0, Some (NumError fn s ErrSyntax))
      | (un, _) =>
          let cutoff := 2 ^ (bitSizeOf bitSize - 1) in
          if negb neg && (cutoff <=? un) then (cutoff - 1, Some (NumError fn s ErrRange))
          else if neg && (cutoff <? un) then (- cutoff, Some (NumError fn s ErrRange))
          else (if neg then - un else un, None)
      end
  end.

Definition parseInt (s : string) (base bitSize : Z) : Z * option error :=
  parseIntAs "ParseInt" s bitSize.

Definition atoi (s : string) : Z * option error := parseIntAs "Atoi" s 0.

Definition parseBool (s : string) : bool * option error :=
  if bool_decide (s ∈ ["1"; "t"; "T"; "TRUE"; "true"; "True"]) then (true, None)
  else if bool_decide (s ∈ ["0"; "f"; "F"; "FALSE"; "false"; "False"]) then (false, None)
  else (false, Some (NumError "ParseBool" s ErrSyntax)).

Definition parseFloat (s : string) (bitSize : Z) : Z * option error :=
  (0, Some (NumError "ParseFloat" s ErrSyntax)).

Definition env : Env := {|
  intSize := W64;
  ParseFloat := parseFloat;
  ParseInt := parseInt;
  ParseUint := parseUint;
  ParseBool := parseBool;
  Atoi := atoi;
  toFloat32 := fun x => x;
|}.

End RefEnv.

(** ** Replies and destinations by name *)

(** A bulk-string reply, an integer reply, an error reply, and a pointer to
    the variable [l] of type [t]. *)
Definition bulk (s : string) : iface := Some (bytesT, bytes_of_string s).
Definition integer (z : Z) : iface := Some (int64T, VInt z).
Definition replyError (msg : string) : iface := Some (ErrorT, VString msg).
Definition ptrTo (t : gtype) (l : loc) : iface := Some (TPtr t, VPtr (Some l)).

(** ** Vocabulary of the statements *)

(** The variable a destination points to, if it is a non-nil pointer. *)
Definition destLoc (d : iface) : option loc :=
  match d with
  | Some (_, VPtr (Some l)) => Some l
  | _ => None
  end.

(** [convertAssign(d, s)] hands the multi-bulk [s] to [convertAssignValues]
    with a slice to fill: [s] is a [[]interface{}], [d] is none of the
    destinations that the type switch assigns to directly ([*[]interface{}],
    [*interface{}], nil), and [d] is a pointer to a variable of slice kind.
    This is the one place where [scan.go] writes the elements of an array
    ([d.Index(i)] after [SetLen]); in Go the array may be shared with slices
    held in other variables.  Everywhere else a conversion assigns to the
    variable its destination points to and to nothing else. *)
Definition fillsSlice (d s : iface) : bool :=
  match s with
  | Some (TSlice TInterface, _) =>
      match d with
      | Some (TPtr (TSlice TInterface), _) | Some (TPtr TInterface, _) | None => false
      | Some (t, _) =>
          match underlying t with
          | TPtr e => bool_decide (Kind e = KSlice)
          | _ => false
          end
      end
  | _ => false
  end.

(** No conversion of a scan of [src] into [dest] fills a slice. *)
Definition noSliceFilled (dest src : list iface) : Prop :=
  ∀ i d s, dest !! i = Some d → src !! i = Some s → fillsSlice d s = false.

(** A [reflect.Value] for the variable [L] as a whole (or for no variable of
    the store). *)
Definition whole (L : option loc) (d : rvalue) : Prop :=
  match d with
  | RPlace _ l p => L = Some l ∧ p = []
  | _ => True
  end.

(** [c] changes the store, if at all, by assigning to the variable [L] as a
    whole, and its result satisfies [P].  Such an assignment leaves every
    other variable alone, whatever arrays the slices in them share. *)
Definition assignsP {A} (L : option loc) (P : A → Prop) (c : M A) : Prop :=
  ∀ h a h', c h = Ret a h' →
            P a ∧ (h' = h ∨ ∃ l x, L = Some l ∧ h' = <[l:=x]> h).

(** An [Integer] reply [s] fits an integer type. *)
Definition fits (env : Env) (t : gtype) (s : Z) : Prop :=
  match underlying t with
  | TInt w => - 2 ^ (isizeBits env w - 1) <= s < 2 ^ (isizeBits env w - 1)
  | TUint w => 0 <= s < 2 ^ isizeBits env w
  | _ => False
  end.

(** The value of an integer variable of type [t] that holds [s]. *)
Definition intValue (t : gtype) (s : Z) : value :=
  match underlying t with
  | TUint _ => VUint s
  | _ => VInt s
  end.

Definition isIntegerType (t : gtype) : Prop :=
  match underlying t with
  | TInt _ | TUint _ => True
  | _ => False
  end.

(** The type of the field an index path leads to. *)
Fixpoint typeAt (t : gtype) (index : list nat) : option gtype :=
  match index with
  | [] => Some t
  | i :: index' =>
      match underlying t with
      | TStruct fs => f ← fs !! i; typeAt (Type_ f) index'
      | _ => None
      end
  end.

Definition isUnsigned (t : gtype) : Prop :=
  match underlying t with TUint _ => True | _ => False end.

(** ** The traversal of a struct type, as the specification words it

    Declared fields in declaration order, depth-first into embedded structs;
    unexported fields and fields tagged ["-"] are passed over; an embedded
    field that is no struct is passed over; a flag after the name in a tag is
    a fatal error.  A candidate is a named field met on the way: its resolved
    name, the index path of the struct that declares it (whose length is the
    nesting depth), and its position there. *)
Record candidate := mkCandidate {
  c_name : string;
  c_index : list nat;
  c_i : nat;
}.

Definition c_depth (c : candidate) : nat := length (c_index c).

(** The entry a candidate stands for. *)
Definition entry (c : candidate) : fieldSpec :=
  {| fs_name := c_name c; fs_index := c_index c ++ [c_i c] |}.

Section CandidatesOfFields.
Context (walk : string → gtype → list nat → result (list candidate)).
Context (tname : string) (index : list nat).

Fixpoint candidatesOfFields (fs : list field) (i : nat) {struct fs}
  : result (list candidate) :=
  match fs with
  | [] => Ok []
  | f :: fs' =>
      if negb (String.eqb (PkgPath f) "") then candidatesOfFields fs' (S i)
      else if Anonymous f then
        if bool_decide (Kind (Type_ f) = KStruct) then
          match walk (TypeName (Type_ f)) (Type_ f) (index ++ [i]) with
          | Ok cs =>
              match candidatesOfFields fs' (S i) with
              | Ok cs' => Ok (cs ++ cs')
              | Panicked v => Panicked v
              end
          | Panicked v => Panicked v
          end
        else candidatesOfFields fs' (S i)
      else
        match resolveTag tname f with
        | TagSkip => candidatesOfFields fs' (S i)
        | TagPanic e => Panicked (PanicErr e)
        | TagName name =>
            match candidatesOfFields fs' (S i) with
            | Ok cs' => Ok (mkCandidate name index i :: cs')
            | Panicked v => Panicked v
            end
        end
  end.
End CandidatesOfFields.

Fixpoint candidatesAt (tname : string) (t : gtype) (index : list nat) {struct t}
  : result (list candidate) :=
  match t with
  | TNamed _ u => candidatesAt tname u index
  | TStruct fields => candidatesOfFields candidatesAt tname index fields O
  | _ => Panicked (PanicMsg "reflect: NumField of non-struct type")
  end.

(** The candidates of a struct type, in the order of the traversal. *)
Definition candidates (t : gtype) : result (list candidate) :=
  candidatesAt (TypeName t) t [].

(** The least nesting depth at which the name [n] occurs among [cs]. *)
Definition minDepth (n : string) (cs : list candidate) : option nat :=
  foldl (fun acc c =>
           if bool_decide (c_name c = n)
           then Some (match acc with None => c_depth c | Some d => Nat.min d (c_depth c) end)
           else acc)
        None cs.

(** The candidates named [n] at that least depth. *)
Definition shallowest (n : string) (cs : list candidate) : list candidate :=
  match minDepth n cs with
  | None => []
  | Some d => filter (fun c => c_name c = n ∧ c_depth c = d) cs
  end.

(** What the name [n] resolves to: the one candidate at the least depth, and
    nothing when several candidates tie there (or none bears the name). *)
Definition resolve (n : string) (cs : list candidate) : option fieldSpec :=
  match shallowest n cs with
  | [c] => Some (entry c)
  | _ => None
  end.

(** One step of the compiler seen from the traversal. *)
Definition enterCandidate (st : gmap string Z * structSpec) (c : candidate)
  : gmap string Z * structSpec :=
  enterField (c_name c) (c_index c) (c_i c) st.1 st.2.

(** The named field an index path leads to, when the path goes through
    embedded fields only and ends at a field that is not embedded. *)
Fixpoint namedFieldAt (t : gtype) (path : list nat) : option field :=
  match path with
  | [] => None
  | i :: rest =>
      match underlying t with
      | TStruct fs =>
          f ← fs !! i;
          match rest with
          | [] => if Anonymous f then None else Some f
          | _ => if Anonymous f then namedFieldAt (Type_ f) rest else None
          end
      | _ => None
      end
  end.

(** The state of the compiler after the candidates [cs]: the depth map holds
    the least depth of every name, the mapping holds what every name resolves
    to, and the list holds entries of candidates only. *)
Definition compiledFrom (cs : list candidate) (st : gmap string Z * structSpec) : Prop :=
  (∀ n, st.1 !! n = Z.of_nat <$> minDepth n cs)
  ∧ (∀ n, ss_m st.2 !! n = resolve n cs)
  ∧ (∀ fs, fs ∈ ss_l st.2 → ∃ c, c ∈ cs ∧ fs = entry c).

(** The compiled spec holds entries of candidates only, and its mapping
    holds for every name the last entry of that name in its list. *)
Definition specFrom (cs : list candidate) (ss : structSpec) : Prop :=
  (∀ fs, fs ∈ ss_l ss → ∃ c, c ∈ cs ∧ fs = entry c)
  ∧ (∀ n, ss_m ss !! n = last (filter (fun x => fs_name x = n) (ss_l ss))).

(** No candidate is nested as deep as the sentinel [1 << 30] the compiler
    uses for a name it has not met. *)
Definition depthsBounded (cs : list candidate) : Prop :=
  ∀ c, c ∈ cs → Z.of_nat (c_depth c) < Z.shiftl 1 30.

(** The destinations [ds] take the replies [ss], one after the other, and
    every conversion succeeds: the store goes from [h] to [h']. *)
Inductive succeedInOrder (env : Env) : list iface → list iface → heap → heap → Prop :=
| sio_nil h : succeedInOrder env [] [] h h
| sio_cons d ds s ss h h1 h2 :
    convertAssign env d s h = Ret None h1 →
    succeedInOrder env ds ss h1 h2 →
    succeedInOrder env (d :: ds) (s :: ss) h h2.

(** ** Vocabulary for the round trip through the server *)

(** The reply [r] brings the value [v] back into a field of type [ft]: in any
    store, [ScanStruct]'s conversion of [r] into such a field returns no error
    and leaves [v] there, changing nothing else. *)
Definition reproduces (env : Env) (ft : gtype) (r : iface) (v : value) : Prop :=
  ∀ l p h old,
    load_at l p h = Some old →
    ∃ h', scanStructValue env (RPlace ft l p) r h = Ret None h'
          ∧ store_at l p v h = Some h'.

(** What [fv.Interface()] is for a field of type [ft] holding [v]. *)
Definition emittedValue (ft : gtype) (v : value) (x : iface) : Prop :=
  (Kind ft ≠ KInterface ∧ x = Some (ft, v))
  ∨ (Kind ft = KInterface ∧ v = VIface x).

(** The argument sequence [AppendStruct] builds from the struct value [v] of
    type [T] for the entries [l]: the name as a string, then the field. *)
Inductive emitted (T : gtype) (v : value) : list fieldSpec → list iface → Prop :=
| emitted_nil : emitted T v [] []
| emitted_cons fs l ft vi x args :
    typeAt T (fs_index fs) = Some ft →
    get_path (fs_index fs) v = Some vi →
    emittedValue ft vi x →
    emitted T v l args →
    emitted T v (fs :: l) (Some (TString, VString (fs_name fs)) :: x :: args).

(** The sequence [src] is the argument sequence [args] as it comes back from
    the server: every name as a bulk string of the same bytes, every value, a
    [v] of the type [ft] of the field its name stands for, as a reply that
    reproduces [v] in such a field. *)
Inductive delivered (env : Env) (T : gtype) (ss : structSpec)
  : list iface → list iface → Prop :=
| delivered_nil : delivered env T ss [] []
| delivered_pair name fs ft v r args src :
    ss_m ss !! name = Some fs →
    typeAt T (fs_index fs) = Some ft →
    reproduces env ft r v →
    delivered env T ss args src →
    delivered env T ss (Some (TString, VString name) :: Some (ft, v) :: args)
      (bulk name :: r :: src).

(** Example data. *)

Definition twoInts : heap := {[ 0%nat := VInt 0; 1%nat := VInt 0 ]}.
Definition threeBytes : heap := {[ 0%nat := VInt 0; 1%nat := VInt 0; 2%nat := VInt 0 ]}.

(** [type Inner struct { A, B int }], [type Inner2 struct { B, C int }] and
    [type Outer struct { Inner; Inner2; A string; D int `redis:"-"` }]:
    [B] ties at depth 1, the outer [A] shadows [Inner.A]. *)
Definition exInner : gtype :=
  TNamed "Inner" (TStruct [mkField "A" "" false (TInt SzWord) "";
                           mkField "B" "" false (TInt SzWord) ""]).
Definition exInner2 : gtype :=
  TNamed "Inner2" (TStruct [mkField "B" "" false (TInt SzWord) "";
                            mkField "C" "" false (TInt SzWord) ""]).
Definition exOuter : gtype :=
  TNamed "Outer" (TStruct [mkField "Inner" "" true exInner "";
                           mkField "Inner2" "" true exInner2 "";
                           mkField "A" "" false TString "";
                           mkField "D" "" false (TInt SzWord) "-"]).
Definition exOuterCandidates : list candidate :=
  [mkCandidate "A" [0%nat] 0; mkCandidate "B" [0%nat] 1;
   mkCandidate "B" [1%nat] 0; mkCandidate "C" [1%nat] 1;
   mkCandidate "A" [] 2].

(** [type Base struct { A int }] and [type Shadow struct { Base; A int }]. *)
Definition exBase : gtype :=
  TNamed "Base" (TStruct [mkField "A" "" false (TInt SzWord) ""]).
Definition exShadow : gtype :=
  TNamed "Shadow" (TStruct [mkField "Base" "" true exBase "";
                            mkField "A" "" false (TInt SzWord) ""]).

(** Alternating pairs of a bulk-string key and a [Null] value. *)
Definition nullPairs (keys : list string) : list iface :=
  keys ≫= fun k => [bulk k; None].

Definition oneBase : heap := {[ 0%nat := zero exBase ]}.

(** [type Point struct { X int8; Y uint16 `redis:"y"`; Hidden int `redis:"-"` }] *)
Definition exPoint : gtype :=
  TNamed "Point" (TStruct [mkField "X" "" false (TInt Sz8) "";
                           mkField "Y" "" false (TUint Sz16) "y";
                           mkField "Hidden" "" false (TInt SzWord) "-"]).
Definition exPointValue : value := VStruct [VInt 5; VUint 700; VInt 9].
Definition onePoint : heap := {[ 0%nat := zero exPoint ]}.

(** ** Vocabulary for the further properties *)

(** A value of one of the dynamic types that the type switch of
    [convertAssign] converts or skips: nil, [[]byte], [int64] and
    [[]interface{}]. *)
Definition isReplyValue (s : iface) : Prop :=
  match s with
  | None => True
  | Some (TSlice (TUint Sz8), _) => True
  | Some (TInt Sz64, VInt _) => True
  | Some (TSlice TInterface, _) => True
  | Some _ => False
  end.

(** A simple-string reply as the connection hands it over: a Go [string]. *)
Definition status (s : string) : iface := Some (TString, VString s).

(** The kinds [convertAssignBytes] converts a bulk string to, slices apart:
    numbers, booleans and strings. *)
Definition isScalarKind (k : kind) : bool :=
  isIntKind k || isUintKind k
  || match k with KBool | KFloat32 | KFloat64 | KString => true | _ => false end.

(** The bytes of a string, and the separator of the parts of a tag. *)
Definition chars (s : string) : list ascii := String.list_ascii_of_string s.
Definition comma : ascii := ","%char.

(** The field behind the candidate [c] of a traversal that entered [t] with
    the index path [index]: it is exported, and its tag resolves to the
    candidate's name. *)
Definition fieldOf (t : gtype) (c : candidate) (index : list nat) : Prop :=
  ∃ rel g tn, c_index c = index ++ rel
              ∧ namedFieldAt t (rel ++ [c_i c]) = Some g
              ∧ PkgPath g = ""
              ∧ resolveTag tn g = TagName (c_name c).


(** [type Item struct { Title string `redis:"title,omitempty"` }] *)
Definition exItem : gtype :=
  TNamed "Item" (TStruct [mkField "Title" "" false TString "title,omitempty"]).

(** ** Outcomes of a conversion into a place *)

(** [c] does not panic, and when it returns, its result satisfies [P] and the
    store is the one it was given or that one with the place [(l, p)]
    overwritten. *)
Definition placeOutcome {A} (l : loc) (p : list nat) (P : A → Prop) (c : M A) : Prop :=
  ∀ h, match c h with
       | Ret a h' => P a ∧ (h' = h ∨ ∃ x, store_at l p x h = Some h')
       | Panic _ => False
       | Fault => True
       end.

(** The store [h'] differs from [h] at most in the fields of the struct
    variable [l] that the mapping of [ss] names: every other variable, and
    every path into [l] that neither runs through such a field nor is run
    through by one, holds what it held. *)
Definition onlyMappedFieldsChange (ss : structSpec) (l : loc) (h h' : heap) : Prop :=
  (∀ l', l' ≠ l → h' !! l' = h !! l')
  ∧ (∀ q, (∀ n fs, ss_m ss !! n = Some fs →
                   ¬ fs_index fs `prefix_of` q ∧ ¬ q `prefix_of` fs_index fs) →
          load_at l q h' = load_at l q h).

(** [c] returns the store it was given, or does not return. *)
Definition readOnly {A} (c : M A) : Prop :=
  ∀ h a h', c h = Ret a h' → h' = h.

(** ** The store *)

Lemma set_path_is_Some p x v old :
  get_path p v = Some old → is_Some (set_path p x v).
Proof.
  revert v old. induction p as [|i p IH]; intros v old; simpl; [eauto|].
  destruct v; try discriminate;
    (destruct (_ !! i) as [e|] eqn:He; simpl; [|discriminate]);
    intros Hg; destruct (IH _ _ Hg) as [e' ->]; simpl; eauto.
Qed.

Lemma get_set_path p x v v' :
  set_path p x v = Some v' → get_path p v' = Some x.
Proof.
  revert v v'. induction p as [|i p IH]; intros v v'; simpl.
  - congruence.
  - destruct v; try discriminate;
      (destruct (_ !! i) as [e|] eqn:He; simpl; [|discriminate]);
      (destruct (set_path p x e) as [e'|] eqn:Hs; simpl; [|discriminate]);
      intros [= <-]; simpl;
      rewrite list_lookup_insert_eq by (eapply lookup_lt_Some; eauto);
      simpl; eauto.
Qed.

Lemma set_set_path p x y v v1 :
  set_path p x v = Some v1 → set_path p y v1 = set_path p y v.
Proof.
  revert v v1. induction p as [|i p IH]; intros v v1; simpl; [done|].
  destruct v; try discriminate;
    (destruct (_ !! i) as [e|] eqn:He; simpl; [|discriminate]);
    (destruct (set_path p x e) as [e'|] eqn:Hs; simpl; [|discriminate]);
    intros [= <-]; simpl;
    rewrite list_lookup_insert_eq by (eapply lookup_lt_Some; eauto);
    simpl; rewrite (IH _ _ Hs);
    (destruct (set_path p y e); simpl; [|done]);
    by rewrite list_insert_insert_eq.
Qed.

Lemma store_at_is_Some l p x h old :
  load_at l p h = Some old → is_Some (store_at l p x h).
Proof.
  unfold load_at, store_at. destruct (h !! l) as [v|]; simpl; [|discriminate].
  intros Hg. destruct (set_path_is_Some p x v old Hg) as [v' ->]. simpl; eauto.
Qed.

Lemma load_store_eq l p x h h' :
  store_at l p x h = Some h' → load_at l p h' = Some x.
Proof.
  unfold load_at, store_at. destruct (h !! l) as [v|]; simpl; [|discriminate].
  destruct (set_path p x v) as [v'|] eqn:Hs; simpl; [|discriminate].
  intros [= <-]. rewrite lookup_insert_eq. simpl. eapply get_set_path; eauto.
Qed.

Lemma store_store l p x y h h1 :
  store_at l p x h = Some h1 → store_at l p y h1 = store_at l p y h.
Proof.
  unfold store_at. destruct (h !! l) as [v|]; simpl; [|discriminate].
  destruct (set_path p x v) as [v'|] eqn:Hs; simpl; [|discriminate].
  intros [= <-]. rewrite lookup_insert_eq. simpl.
  rewrite (set_set_path _ _ _ _ _ Hs).
  destruct (set_path p y v); simpl; [|done]. by rewrite insert_insert_eq.
Qed.

Lemma store_at_other l p x h h' l' :
  store_at l p x h = Some h' → l ≠ l' → h' !! l' = h !! l'.
Proof.
  unfold store_at. destruct (h !! l) as [v|]; simpl; [|discriminate].
  destruct (set_path p x v) as [v'|]; simpl; [|discriminate].
  intros [= <-] Hne. by rewrite lookup_insert_ne.
Qed.

(** ** Integer wrap-around *)

Lemma wrapS_fits b s :
  0 < b → - 2 ^ (b - 1) <= s < 2 ^ (b - 1) → wrapS b s = s.
Proof.
  intros Hb Hs. unfold wrapS.
  assert (H2 : 2 ^ b = 2 * 2 ^ (b - 1)).
  { replace b with (Z.succ (b - 1)) at 1 by lia. rewrite Z.pow_succ_r; lia. }
  rewrite Z.mod_small; lia.
Qed.

Lemma wrapS_range b s :
  0 < b → - 2 ^ (b - 1) <= wrapS b s < 2 ^ (b - 1).
Proof.
  intros Hb. unfold wrapS.
  assert (H2 : 2 ^ b = 2 * 2 ^ (b - 1)).
  { replace b with (Z.succ (b - 1)) at 1 by lia. rewrite Z.pow_succ_r; lia. }
  assert (0 < 2 ^ (b - 1)) by (apply Z.pow_pos_nonneg; lia).
  pose proof (Z.mod_pos_bound (s + 2 ^ (b - 1)) (2 ^ b)). lia.
Qed.

Lemma wrapU_fits b s : 0 <= s < 2 ^ b → wrapU b s = s.
Proof. intros Hs. unfold wrapU. by rewrite Z.mod_small. Qed.

Lemma wrapU_range b s : 0 <= b → 0 <= wrapU b s < 2 ^ b.
Proof.
  intros Hb. unfold wrapU. apply Z.mod_pos_bound. apply Z.pow_pos_nonneg; lia.
Qed.

Lemma isizeBits_pos env w : 0 < isizeBits env w.
Proof. destruct w; simpl; try lia. destruct (intSize env); simpl; lia. Qed.

Lemma Kind_underlying t : Kind t = Kind (underlying t).
Proof. induction t; simpl; auto. Qed.

Lemma underlying_idemp t : underlying (underlying t) = underlying t.
Proof. induction t; simpl; auto. Qed.

Lemma isIntKind_TInt t w : underlying t = TInt w → isIntKind (Kind t) = true.
Proof. intros H. rewrite Kind_underlying, H. by destruct w. Qed.

Lemma isUintKind_TUint t w : underlying t = TUint w → isUintKind (Kind t) = true.
Proof. intros H. rewrite Kind_underlying, H. by destruct w. Qed.

(** ** Setters and getters on a place *)

Section PlaceOps.
Context (env : Env).
Implicit Types (t : gtype) (l : loc) (p : list nat) (h : heap).

Lemma SetInt_place t w l p x h :
  underlying t = TInt w →
  SetInt env (RPlace t l p) x h =
    match store_at l p (VInt (wrapS (isizeBits env w) x)) h with
    | Some h' => Ret tt h'
    | None => Fault
    end.
Proof.
  intros H. unfold SetInt, bind, rType, ret, Bits, store. simpl.
  by rewrite (isIntKind_TInt _ _ H), H.
Qed.

Lemma GetInt_place t w l p h :
  underlying t = TInt w →
  GetInt (RPlace t l p) h =
    match load_at l p h with
    | Some (VInt z) => Ret z h
    | _ => Fault
    end.
Proof.
  intros H. unfold GetInt, bind, load, ret. simpl.
  rewrite (isIntKind_TInt _ _ H).
  destruct (load_at l p h) as [[]|]; done.
Qed.

Lemma SetUint_place t w l p x h :
  underlying t = TUint w →
  SetUint env (RPlace t l p) x h =
    match store_at l p (VUint (wrapU (isizeBits env w) x)) h with
    | Some h' => Ret tt h'
    | None => Fault
    end.
Proof.
  intros H. unfold SetUint, bind, rType, ret, Bits, store. simpl.
  by rewrite (isUintKind_TUint _ _ H), H.
Qed.

Lemma GetUint_place t w l p h :
  underlying t = TUint w →
  GetUint (RPlace t l p) h =
    match load_at l p h with
    | Some (VUint z) => Ret z h
    | _ => Fault
    end.
Proof.
  intros H. unfold GetUint, bind, load, ret. simpl.
  rewrite (isUintKind_TUint _ _ H). simpl.
  destruct (load_at l p h) as [[]|]; done.
Qed.

(** [convertAssignInt] on a signed integer variable, in one equation. *)
Lemma convertAssignInt_signed t w l p s h old :
  underlying t = TInt w →
  load_at l p h = Some old →
  convertAssignInt env (RPlace t l p) s h =
    if bool_decide (wrapS (isizeBits env w) s = s)
    then match store_at l p (VInt s) h with
         | Some h' => Ret None h'
         | None => Fault
         end
    else match store_at l p (VInt 0) h with
         | Some h' => Ret (Some ErrRange) h'
         | None => Fault
         end.
Proof.
  intros Ht Hold.
  assert (Hc : convertAssignInt env (RPlace t l p) s h =
    (do! SetInt env (RPlace t l p) s in
     let! x := GetInt (RPlace t l p) in
     if bool_decide (x ≠ s) then
       do! SetInt env (RPlace t l p) 0 in ret (Some ErrRange)
     else ret None) h).
  { unfold convertAssignInt at 1, bind at 1, rType, ret at 1.
    rewrite Kind_underlying, Ht. by destruct w. }
  rewrite Hc. unfold bind. rewrite (SetInt_place _ _ _ _ _ _ Ht).
  destruct (store_at_is_Some l p (VInt (wrapS (isizeBits env w) s)) h old Hold)
    as [h1 Hs1].
  rewrite Hs1, (GetInt_place _ _ _ _ _ Ht), (load_store_eq _ _ _ _ _ Hs1).
  destruct (decide (wrapS (isizeBits env w) s = s)) as [Hw|Hw].
  - rewrite bool_decide_false, bool_decide_true by tauto. unfold ret.
    rewrite Hw in Hs1. by rewrite Hs1.
  - rewrite bool_decide_true, bool_decide_false by done.
    rewrite (SetInt_place _ _ _ _ _ _ Ht), (store_store _ _ _ _ _ _ Hs1).
    rewrite wrapS_fits.
    + by destruct (store_at l p (VInt 0) h).
    + apply isizeBits_pos.
    + pose proof (isizeBits_pos env w).
      assert (0 < 2 ^ (isizeBits env w - 1)) by (apply Z.pow_pos_nonneg; lia). lia.
Qed.

(** [convertAssignInt] on an unsigned integer variable, in one equation. *)
Lemma convertAssignInt_unsigned t w l p s h old :
  underlying t = TUint w →
  load_at l p h = Some old →
  - 2 ^ 63 <= s < 2 ^ 63 →
  convertAssignInt env (RPlace t l p) s h =
    if bool_decide (s < 0) then Ret (Some ErrRange) h
    else if bool_decide (wrapU (isizeBits env w) s = s)
    then match store_at l p (VUint s) h with
         | Some h' => Ret None h'
         | None => Fault
         end
    else match store_at l p (VUint 0) h with
         | Some h' => Ret (Some ErrRange) h'
         | None => Fault
         end.
Proof.
  intros Ht Hold Hs.
  assert (Hc : convertAssignInt env (RPlace t l p) s h =
    (if bool_decide (s < 0) then ret (Some ErrRange)
     else
       let x := wrapU 64 s in
       do! SetUint env (RPlace t l p) x in
       let! y := GetUint (RPlace t l p) in
       if bool_decide (y ≠ x) then
         do! SetUint env (RPlace t l p) 0 in ret (Some ErrRange)
       else ret None) h).
  { unfold convertAssignInt at 1, bind at 1, rType, ret at 1.
    rewrite Kind_underlying, Ht. by destruct w. }
  rewrite Hc. case_bool_decide as Hneg; [done|].
  assert (Hx : wrapU 64 s = s) by (apply wrapU_fits; lia).
  cbv zeta. rewrite Hx.
  unfold bind. rewrite (SetUint_place _ _ _ _ _ _ Ht).
  destruct (store_at_is_Some l p (VUint (wrapU (isizeBits env w) s)) h old Hold)
    as [h1 Hs1].
  rewrite Hs1, (GetUint_place _ _ _ _ _ Ht), (load_store_eq _ _ _ _ _ Hs1).
  destruct (decide (wrapU (isizeBits env w) s = s)) as [Hw|Hw].
  - rewrite bool_decide_false, bool_decide_true by tauto. unfold ret.
    rewrite Hw in Hs1. by rewrite Hs1.
  - rewrite bool_decide_true, bool_decide_false by done.
    rewrite (SetUint_place _ _ _ _ _ _ Ht), (store_store _ _ _ _ _ _ Hs1).
    rewrite wrapU_fits.
    + by destruct (store_at l p (VUint 0) h).
    + pose proof (isizeBits_pos env w).
      assert (0 < 2 ^ isizeBits env w) by (apply Z.pow_pos_nonneg; lia). lia.
Qed.

End PlaceOps.

(** ** Integer replies into integer variables *)

Lemma fits_signed env t w s :
  underlying t = TInt w →
  fits env t s ↔ wrapS (isizeBits env w) s = s.
Proof.
  intros Ht. unfold fits. rewrite Ht. pose proof (isizeBits_pos env w). split.
  - by apply wrapS_fits.
  - intros <-. by apply wrapS_range.
Qed.

Lemma fits_unsigned env t w s :
  underlying t = TUint w →
  fits env t s ↔ wrapU (isizeBits env w) s = s.
Proof.
  intros Ht. unfold fits. rewrite Ht. pose proof (isizeBits_pos env w). split.
  - by apply wrapU_fits.
  - intros <-. apply wrapU_range. lia.
Qed.

(** C8.  For an integer variable of any width, signed or unsigned, and an
    [Integer] reply [s] (an int64): if [s] fits the variable's type,
    [convertAssignInt] returns no error and the variable then holds exactly
    [s]; if [s] does not fit (overflow, or a negative [s] into an unsigned
    variable), it returns [strconv.ErrRange], so no truncated value is ever
    reported as a success. *)
Theorem convertAssignInt_exact_or_ErrRange env t l p s h old :
  isIntegerType t →
  load_at l p h = Some old →
  - 2 ^ 63 <= s < 2 ^ 63 →
  (fits env t s →
     ∃ h', convertAssignInt env (RPlace t l p) s h = Ret None h'
           ∧ load_at l p h' = Some (intValue t s))
  ∧ (¬ fits env t s →
     ∃ h', convertAssignInt env (RPlace t l p) s h = Ret (Some ErrRange) h').
Proof.
  intros Ht Hold Hs. unfold isIntegerType in Ht.
  destruct (underlying t) as [| w | w | | | | | | | | |] eqn:Hu; try done.
  - rewrite (convertAssignInt_signed env t w l p s h old Hu Hold).
    rewrite (fits_signed env t w s Hu). unfold intValue. rewrite Hu.
    destruct (store_at_is_Some l p (VInt s) h old Hold) as [h1 H1].
    destruct (store_at_is_Some l p (VInt 0) h old Hold) as [h0 H0].
    split; intros Hf.
    + rewrite bool_decide_true, H1 by done. eauto using load_store_eq.
    + rewrite bool_decide_false, H0 by done. eauto.
  - rewrite (convertAssignInt_unsigned env t w l p s h old Hu Hold Hs).
    rewrite (fits_unsigned env t w s Hu). unfold intValue. rewrite Hu.
    destruct (store_at_is_Some l p (VUint s) h old Hold) as [h1 H1].
    destruct (store_at_is_Some l p (VUint 0) h old Hold) as [h0 H0].
    split; intros Hf.
    + assert (0 <= s).
      { rewrite <- Hf. apply wrapU_range. pose proof (isizeBits_pos env w). lia. }
      rewrite bool_decide_false, bool_decide_true, H1 by (done || lia).
      eauto using load_store_eq.
    + case_bool_decide; [eauto|].
      rewrite bool_decide_false, H0 by done. eauto.
Qed.

Lemma convertAssignInt_exact_or_ErrRange_witness :
  let h : heap := {[ 0%nat := VStruct [VString "x"; VInt 7] ]} in
  isIntegerType (TNamed "Age" (TInt Sz8))
  ∧ load_at 0%nat [1%nat] h = Some (VInt 7)
  ∧ - 2 ^ 63 <= 200 < 2 ^ 63
  ∧ (fits RefEnv.env (TNamed "Age" (TInt Sz8)) 200 →
       ∃ h', convertAssignInt RefEnv.env (RPlace (TNamed "Age" (TInt Sz8)) 0%nat [1%nat]) 200 h
               = Ret None h'
             ∧ load_at 0%nat [1%nat] h' = Some (intValue (TNamed "Age" (TInt Sz8)) 200))
  ∧ (¬ fits RefEnv.env (TNamed "Age" (TInt Sz8)) 200 →
       ∃ h', convertAssignInt RefEnv.env (RPlace (TNamed "Age" (TInt Sz8)) 0%nat [1%nat]) 200 h
               = Ret (Some ErrRange) h').
Proof.
  intros h.
  assert (H1 : isIntegerType (TNamed "Age" (TInt Sz8))) by exact I.
  assert (H2 : load_at 0%nat [1%nat] h = Some (VInt 7)) by reflexivity.
  assert (H3 : - 2 ^ 63 <= 200 < 2 ^ 63) by (split; [discriminate | reflexivity]).
  split; [exact H1|]. split; [exact H2|]. split; [exact H3|].
  exact (convertAssignInt_exact_or_ErrRange RefEnv.env _ _ _ _ _ _ H1 H2 H3).
Defined.

(** C10.  When [convertAssignInt] reports [strconv.ErrRange] because an
    in-sign reply does not fit the width of the integer variable, the variable
    is left holding zero (and nothing else is changed); when it reports it
    because the reply is negative and the variable is unsigned, the store is
    left as it was. *)
Theorem convertAssignInt_ErrRange_leaves env t l p s h old :
  isIntegerType t →
  load_at l p h = Some old →
  - 2 ^ 63 <= s < 2 ^ 63 →
  (¬ fits env t s → ¬ (isUnsigned t ∧ s < 0) →
     ∃ h', convertAssignInt env (RPlace t l p) s h = Ret (Some ErrRange) h'
           ∧ store_at l p (intValue t 0) h = Some h'
           ∧ load_at l p h' = Some (intValue t 0))
  ∧ (isUnsigned t → s < 0 →
     convertAssignInt env (RPlace t l p) s h = Ret (Some ErrRange) h).
Proof.
  intros Ht Hold Hs. unfold isIntegerType in Ht. unfold isUnsigned.
  destruct (underlying t) as [| w | w | | | | | | | | |] eqn:Hu; try done.
  - rewrite (convertAssignInt_signed env t w l p s h old Hu Hold).
    rewrite (fits_signed env t w s Hu). unfold intValue. rewrite Hu.
    destruct (store_at_is_Some l p (VInt 0) h old Hold) as [h0 H0].
    split; [|done]. intros Hf _.
    rewrite bool_decide_false, H0 by done. eauto using load_store_eq.
  - rewrite (convertAssignInt_unsigned env t w l p s h old Hu Hold Hs).
    rewrite (fits_unsigned env t w s Hu). unfold intValue. rewrite Hu.
    destruct (store_at_is_Some l p (VUint 0) h old Hold) as [h0 H0].
    split.
    + intros Hf Hn.
      rewrite (bool_decide_false (s < 0)) by tauto.
      rewrite bool_decide_false, H0 by done. eauto using load_store_eq.
    + intros _ Hneg. by rewrite bool_decide_true.
Qed.

Lemma convertAssignInt_ErrRange_leaves_witness :
  let h : heap := {[ 0%nat := VUint 9 ]} in
  isIntegerType (TUint Sz16)
  ∧ load_at 0%nat [] h = Some (VUint 9)
  ∧ - 2 ^ 63 <= 70000 < 2 ^ 63
  ∧ (¬ fits RefEnv.env (TUint Sz16) 70000 → ¬ (isUnsigned (TUint Sz16) ∧ 70000 < 0) →
       ∃ h', convertAssignInt RefEnv.env (RPlace (TUint Sz16) 0%nat []) 70000 h
               = Ret (Some ErrRange) h'
             ∧ store_at 0%nat [] (intValue (TUint Sz16) 0) h = Some h'
             ∧ load_at 0%nat [] h' = Some (intValue (TUint Sz16) 0))
  ∧ (isUnsigned (TUint Sz16) → 70000 < 0 →
       convertAssignInt RefEnv.env (RPlace (TUint Sz16) 0%nat []) 70000 h
         = Ret (Some ErrRange) h).
Proof.
  intros h.
  assert (H1 : isIntegerType (TUint Sz16)) by exact I.
  assert (H2 : load_at 0%nat [] h = Some (VUint 9)) by reflexivity.
  assert (H3 : - 2 ^ 63 <= 70000 < 2 ^ 63) by (split; [discriminate | reflexivity]).
  split; [exact H1|]. split; [exact H2|]. split; [exact H3|].
  exact (convertAssignInt_ErrRange_leaves RefEnv.env _ _ _ _ _ _ H1 H2 H3).
Defined.

(** ** Conversions that assign to a variable as a whole *)

Section Assign.
Context (env : Env).
Implicit Types (L : option loc) (d : rvalue) (h : heap).

Lemma as_ret {A} L (P : A → Prop) a : P a → assignsP L P (ret a).
Proof. intros HP h a' h' [= <- <-]. auto. Qed.

Lemma as_panic {A} L (P : A → Prop) msg : assignsP L P (panic msg).
Proof. intros h a h' [=]. Qed.

Lemma as_Panic {A} L (P : A → Prop) v : assignsP L P (fun _ => Panic v).
Proof. intros h a h' [=]. Qed.

Lemma as_Fault {A} L (P : A → Prop) : assignsP L P (fun _ => Fault).
Proof. intros h a h' [=]. Qed.

Lemma as_bind {A B} L (P : A → Prop) (Q : B → Prop) (c : M A) (k : A → M B) :
  assignsP L P c →
  (∀ a, P a → assignsP L Q (k a)) →
  assignsP L Q (bind c k).
Proof.
  intros Hc Hk h b h'. unfold bind.
  destruct (c h) as [a h1| |] eqn:Hch; try discriminate.
  intros Hkh. destruct (Hc _ _ _ Hch) as [HPa Hf1].
  destruct (Hk a HPa _ _ _ Hkh) as [HQ Hf2]. split; [done|].
  destruct Hf1 as [->|(l & x & HL & ->)]; [done|].
  destruct Hf2 as [->|(l' & y & HL' & ->)]; right.
  - by exists l, x.
  - rewrite HL in HL'. injection HL' as <-. exists l, y.
    by rewrite insert_insert_eq.
Qed.

Lemma as_readonly {A} L (c : M A) :
  (∀ h a h', c h = Ret a h' → h' = h) → assignsP L (fun _ => True) c.
Proof. intros Hc h a h' Hr. split; [done|]. left. eauto. Qed.

Lemma as_rType L d : assignsP L (fun _ => True) (rType d).
Proof. destruct d; simpl; auto using as_ret, as_panic. Qed.

Lemma as_Bits L t : assignsP L (fun _ => True) (Bits env t).
Proof.
  unfold Bits. destruct (underlying t) as [| | | | | | | | | | |[]];
    auto using as_ret, as_panic.
Qed.

Lemma as_typeElem L t : assignsP L (fun _ => True) (typeElem t).
Proof.
  unfold typeElem. destruct (underlying t) as [| | | | | | | | | | |[]];
    auto using as_ret, as_panic, as_Fault.
Qed.

Lemma as_load L d : assignsP L (fun _ => True) (load d).
Proof.
  intros h a h'. unfold load. destruct d; try discriminate.
  - intros [= <- <-]; auto.
  - destruct (load_at l p h); [|discriminate]. intros [= <- <-]; auto.
Qed.

Lemma store_at_whole l x h h' : store_at l [] x h = Some h' → h' = <[l:=x]> h.
Proof.
  unfold store_at. destruct (h !! l) as [v|]; simpl; [|discriminate].
  by intros [= <-].
Qed.

Lemma as_store L d x : whole L d → assignsP L (fun _ => True) (store d x).
Proof.
  intros Hw h a h'. unfold store. destruct d; try discriminate.
  destruct Hw as [-> ->].
  destruct (store_at l [] x h) as [h1|] eqn:Hs; [|discriminate]. intros [= <- <-].
  split; [done|]. right. exists l, x. split; [done|]. by apply store_at_whole.
Qed.

Lemma as_assignDeref t p x :
  assignsP (destLoc (Some (t, p))) (fun _ => True) (assignDeref p x).
Proof.
  intros h a h'. unfold assignDeref. destruct p as [| | | | | | |[l|]| |]; try discriminate.
  destruct (store_at l [] x h) as [h1|] eqn:Hs; [|discriminate]. intros [= <- <-].
  split; [done|]. right. exists l, x. split; [done|]. by apply store_at_whole.
Qed.

End Assign.

Create HintDb asg.
#[local] Hint Resolve as_ret as_panic as_Panic as_Fault as_rType as_Bits
  as_typeElem as_load as_store as_assignDeref : asg.

Ltac as_step :=
  lazymatch goal with
  | |- assignsP _ _ (assignDeref _ _) => apply as_assignDeref
  | |- assignsP ?L _ (bind _ _) =>
      first [ eapply as_bind; [ solve [eauto with asg | simpl in *; eauto with asg] | intros ? ? ]
            | eapply (as_bind L (fun _ => True)); [ | intros ? _ ] ]
  | |- assignsP _ _ (match ?x with _ => _ end) => destruct x
  | |- assignsP _ _ _ => solve [simpl in *; eauto with asg]
  end.

Ltac as_go := repeat as_step.

Ltac change_bind_ret :=
  match goal with
  | |- context [bind (ret ?a) ?k] => change (bind (ret a) k) with (k a); cbv beta
  end.

Section AssignOps.
Context (env : Env).
Implicit Types (L : option loc) (d : rvalue) (h : heap).

Lemma as_SetInt L d x : whole L d → assignsP L (fun _ => True) (SetInt env d x).
Proof. intros Hw. unfold SetInt. as_go. Qed.

Lemma as_GetInt L d : assignsP L (fun _ => True) (GetInt d).
Proof. unfold GetInt. as_go. Qed.

Lemma as_SetUint L d x : whole L d → assignsP L (fun _ => True) (SetUint env d x).
Proof. intros Hw. unfold SetUint. as_go. Qed.

Lemma as_GetUint L d : assignsP L (fun _ => True) (GetUint d).
Proof. unfold GetUint. as_go. Qed.

Lemma as_SetFloat L d x : whole L d → assignsP L (fun _ => True) (SetFloat env d x).
Proof. intros Hw. unfold SetFloat. as_go. Qed.

Lemma as_SetBool L d x : whole L d → assignsP L (fun _ => True) (SetBool d x).
Proof. intros Hw. unfold SetBool. as_go. Qed.

Lemma as_SetString L d x : whole L d → assignsP L (fun _ => True) (SetString d x).
Proof. intros Hw. unfold SetString. as_go. Qed.

Lemma as_SetBytes L d x : whole L d → assignsP L (fun _ => True) (SetBytes d x).
Proof. intros Hw. unfold SetBytes. as_go. Qed.

Lemma as_cannotConvert L d s : assignsP L (fun _ => True) (cannotConvert d s).
Proof. unfold cannotConvert. as_go. Qed.

End AssignOps.

#[local] Hint Resolve as_SetInt as_GetInt as_SetUint as_GetUint as_SetFloat as_SetBool
  as_SetString as_SetBytes as_cannotConvert : asg.

Section AssignConvert.
Context (env : Env).
Implicit Types (L : option loc) (d : rvalue) (h : heap).

Lemma as_convertAssignBytes L d s :
  whole L d → assignsP L (fun _ => True) (convertAssignBytes env d s).
Proof. intros Hw. unfold convertAssignBytes. as_go. Qed.

Lemma as_convertAssignInt L d s :
  whole L d → assignsP L (fun _ => True) (convertAssignInt env d s).
Proof. intros Hw. unfold convertAssignInt. as_go. Qed.

Lemma as_Elem_copy t v :
  assignsP (destLoc (Some (t, v)))
    (fun e => whole (destLoc (Some (t, v))) e
              ∧ (Kind t = KPtr →
                 match e with
                 | RZero => True
                 | RCopy _ _ => False
                 | RPlace t' _ _ => underlying t = TPtr t'
                 end))
    (Elem (RCopy t v)).
Proof.
  unfold Elem. simpl rKind. destruct (Kind t) eqn:Hk; try apply as_panic.
  - unfold bind, load, ret. intros h a h'.
    destruct v as [| | | | | | | |x|]; try discriminate.
    intros [= <- <-]. split; [|by left]. split; [|done]. by destruct x as [[]|].
  - rewrite Kind_underlying in Hk.
    unfold bind, rType, ret, load, typeElem. intros h a h'.
    destruct (underlying t) as [| [] | [] | | | | | e' | e' | | |[]] eqn:Hu;
      try discriminate Hk; [|unfold panic; discriminate].
    destruct v as [| | | | | | |[l|]| |]; try discriminate;
      intros [= <- <-]; (split; [|by left]); simpl; done.
Qed.

Lemma as_convertAssignReflect (d s : iface) conv :
  (∀ e, whole (destLoc d) e → assignsP (destLoc d) (fun _ => True) (conv e)) →
  assignsP (destLoc d) (fun _ => True) (convertAssignReflect d s conv).
Proof.
  intros Hconv. unfold convertAssignReflect.
  destruct d as [[t v]|]; simpl ValueOf.
  - eapply as_bind; [apply as_rType|]. intros t0 _.
    case_bool_decide; [as_go|].
    eapply as_bind; [apply as_Elem_copy|]. intros e [Hw _]. by apply Hconv.
  - intros h a h' Hr. discriminate Hr.
Qed.

(** A multi-bulk for a variable that is no slice: [convertAssignValues]
    refuses it before any store. *)
Lemma as_convertAssignValues_no_slice L d s :
  rKind d ≠ KSlice → assignsP L (fun _ => True) (convertAssignValues env d s).
Proof.
  intros Hk. unfold convertAssignValues.
  destruct d as [|t v|t l p]; simpl in Hk.
  - intros h a h' Hr. discriminate Hr.
  - simpl rType. change_bind_ret. rewrite bool_decide_true by done. as_go.
  - simpl rType. change_bind_ret. rewrite bool_decide_true by done. as_go.
Qed.

(** Unless it fills a slice, [convertAssign(d, s)] changes the store, if at
    all, by assigning to the variable [d] points to. *)
Lemma convertAssign_assigns (d s : iface) :
  fillsSlice d s = false →
  assignsP (destLoc d) (fun _ => True) (convertAssign env d s).
Proof.
  intros Hno.
  pose proof as_convertAssignBytes. pose proof as_convertAssignInt.
  assert (Hvalues : ∀ t v vs,
    (∀ e, underlying t = TPtr e → Kind e ≠ KSlice) →
    assignsP (destLoc (Some (t, v))) (fun _ => True)
      (convertAssignReflect (Some (t, v)) s (fun e => convertAssignValues env e vs))).
  { intros t v vs Ht. unfold convertAssignReflect. simpl ValueOf.
    simpl rType. change_bind_ret.
    case_bool_decide as Hk; [as_go|].
    assert (Hp : Kind t = KPtr) by (by destruct (decide (Kind t = KPtr))).
    eapply as_bind; [apply as_Elem_copy|]. intros e [_ He].
    apply as_convertAssignValues_no_slice.
    specialize (He Hp).
    destruct e as [|t' v'|t' l p]; simpl; [done|done|]. by apply Ht. }
  unfold convertAssign.
  repeat first
    [ match goal with
      | |- assignsP _ _ (convertAssignReflect _ _ (fun e => convertAssignValues _ e _)) =>
          apply Hvalues; intros e0 He0; simpl in Hno, He0;
          first [ discriminate He0
                | discriminate Hno
                | injection He0 as <-; by apply bool_decide_eq_false in Hno
                | injection He0 as <-; simpl; discriminate
                | rewrite He0 in Hno; by apply bool_decide_eq_false in Hno ]
      end
    | apply as_convertAssignReflect; intros ? ?
    | as_step ].
Qed.

(** What an assignment to one variable leaves alone. *)
Lemma assignsP_frame {A} L (P : A → Prop) (c : M A) h a h' l :
  assignsP L P c → c h = Ret a h' → L ≠ Some l → h' !! l = h !! l.
Proof.
  intros Hc Hr Hl. destruct (Hc _ _ _ Hr) as [_ [->|(l' & x & -> & ->)]]; [done|].
  apply lookup_insert_ne. congruence.
Qed.


End AssignConvert.

(** ** Positional scan *)

Section ScanFacts.
Context (env : Env).
Implicit Types (src dest : list iface) (h : heap).

Lemma succeedInOrder_length ds ss h h' :
  succeedInOrder env ds ss h h' → length ds = length ss.
Proof. induction 1; simpl; auto. Qed.

Lemma noSliceFilled_cons d ds s ss :
  noSliceFilled (d :: ds) (s :: ss) → fillsSlice d s = false ∧ noSliceFilled ds ss.
Proof.
  intros Hno. split; [by apply (Hno 0%nat)|].
  intros i d' s' Hd Hs. by apply (Hno (S i)).
Qed.

Lemma noSliceFilled_app ds1 ss1 ds2 ss2 :
  length ds1 = length ss1 →
  noSliceFilled (ds1 ++ ds2) (ss1 ++ ss2) →
  noSliceFilled ds1 ss1 ∧ noSliceFilled ds2 ss2.
Proof.
  intros Hlen Hno. split; intros i d s Hd Hs.
  - apply (Hno i); by apply lookup_app_l_Some.
  - apply (Hno (length ds1 + i)%nat).
    + by rewrite lookup_app_r, Nat.add_comm, Nat.add_sub by lia.
    + by rewrite Hlen, lookup_app_r, Nat.add_comm, Nat.add_sub by lia.
Qed.

(** Conversions that fill no slice assign to the variables of their
    destinations; every other variable is left alone. *)
Lemma succeedInOrder_assigns ds ss h h' l :
  succeedInOrder env ds ss h h' →
  noSliceFilled ds ss →
  (∀ d, d ∈ ds → destLoc d ≠ Some l) →
  h' !! l = h !! l.
Proof.
  induction 1 as [|d ds s ss h h1 h2 Hc _ IH]; intros Hno Hl; [done|].
  apply noSliceFilled_cons in Hno as [Hd Hno].
  rewrite IH by (try done; intros; apply Hl; by right).
  eapply assignsP_frame; [by apply (convertAssign_assigns env d s)|done|].
  apply Hl. by left.
Qed.

Lemma succeedInOrder_app ds1 ss1 ds2 ss2 h h1 h2 :
  succeedInOrder env ds1 ss1 h h1 →
  succeedInOrder env ds2 ss2 h1 h2 →
  succeedInOrder env (ds1 ++ ds2) (ss1 ++ ss2) h h2.
Proof.
  induction 1 as [h|d ds s ss h ha hb Hc _ IH]; intros H2; simpl; [done|].
  econstructor; eauto.
Qed.

(** The loop runs the conversions in order; after a successful prefix it is
    at the next destination with the store the prefix left. *)
Lemma scanLoop_succeed ds ss h h1 :
  succeedInOrder env ds ss h h1 →
  ∀ spre srest dest,
    scanLoop env (spre ++ ss ++ srest) (length spre) (ds ++ dest) h =
    scanLoop env (spre ++ ss ++ srest) (length spre + length ss) dest h1.
Proof.
  induction 1 as [h|d ds s ss h h1 h2 Hc _ IH]; intros spre srest dest; simpl.
  - by rewrite Nat.add_0_r.
  - rewrite list_lookup_middle by done. unfold bind at 1. rewrite Hc.
    specialize (IH (spre ++ [s]) srest dest).
    rewrite <- !app_assoc, length_app in IH. simpl in IH.
    rewrite Nat.add_1_r in IH. rewrite IH. f_equal. lia.
Qed.

Lemma scanLoop_fail src i d dest s e h h' :
  src !! i = Some s →
  convertAssign env d s h = Ret (Some e) h' →
  scanLoop env src i (d :: dest) h = Ret (Some e) h'.
Proof. intros Hs Hc. simpl. rewrite Hs. unfold bind. by rewrite Hc. Qed.

Lemma scanLoop_returns_None src i dest h h' :
  scanLoop env src i dest h = Ret None h' →
  ∃ ss, take (length dest) (drop i src) = ss ∧ succeedInOrder env dest ss h h'.
Proof.
  revert i h. induction dest as [|d dest IH]; intros i h; simpl.
  - intros [= <-]. eexists; split; [done|]. rewrite take_0. constructor.
  - destruct (src !! i) as [s|] eqn:Hs; [|discriminate].
    unfold bind at 1.
    destruct (convertAssign env d s h) as [[e|] h1| |] eqn:Hc; try discriminate.
    intros Hrest. destruct (IH _ _ Hrest) as (ss & Hss & Hsio).
    eexists; split; [done|].
    rewrite (drop_S _ _ _ Hs). simpl. rewrite Hss.
    econstructor; eauto.
Qed.

(** Conversely, an error that the loop returns is the failure of one
    destination after all the destinations before it succeeded. *)
Lemma scanLoop_returns_error src dest :
  ∀ i h e h',
    scanLoop env src i dest h = Ret (Some e) h' →
    ∃ pre d post s h1,
      dest = pre ++ d :: post
      ∧ succeedInOrder env pre (take (length pre) (drop i src)) h h1
      ∧ src !! (i + length pre)%nat = Some s
      ∧ convertAssign env d s h1 = Ret (Some e) h'.
Proof.
  induction dest as [|d dest IH]; intros i h e h'; [discriminate|].
  cbn [scanLoop]. destruct (src !! i) as [s|] eqn:Hs; [|discriminate].
  unfold bind at 1.
  destruct (convertAssign env d s h) as [[e'|] h1| |] eqn:Hc; try discriminate.
  - intros [= <- <-]. exists [], d, dest, s, h. simpl.
    rewrite Nat.add_0_r. repeat split; try done. constructor.
  - intros Hrest.
    destruct (IH _ _ _ _ Hrest) as (pre & d' & post & s' & h2 & -> & Hpre & Hs' & Hd').
    exists (d :: pre), d', post, s', h2. simpl.
    rewrite (drop_S _ _ _ Hs). simpl.
    replace (i + S (length pre))%nat with (S i + length pre)%nat by lia.
    repeat split; try done. econstructor; eauto.
Qed.

End ScanFacts.

(** C6.  [Scan] returns the error ["redigo: Scan multibulk short"]
    (ShortSequence) whenever [src] has fewer values than there are
    destinations, whatever they hold, and leaves the store alone; and whenever
    it returns without an error, what it returns is exactly the part of [src]
    after the first [len(dest)] values, of length [len(src) - len(dest)]. *)
Theorem Scan_short_or_remainder env src dest h :
  ((length src < length dest)%nat →
     Scan env src dest h = Ret ([], Some (ErrorsNew "redigo: Scan multibulk short")) h)
  ∧ (∀ rest h',
       Scan env src dest h = Ret (rest, None) h' →
       rest = drop (length dest) src
       ∧ length rest = (length src - length dest)%nat
       ∧ (length dest <= length src)%nat).
Proof.
  unfold Scan. split.
  - intros Hlt. by rewrite bool_decide_true.
  - intros rest h'. case_bool_decide as Hlt; [discriminate|].
    unfold bind, ret.
    destruct (scanLoop env src 0 dest h) as [err h1| |]; try discriminate.
    intros [= <- -> <-]. rewrite length_drop. repeat split; lia.
Qed.

Lemma Scan_short_or_remainder_witness :
  ((length [bulk "3"] < length [ptrTo (TInt SzWord) 0%nat; ptrTo (TInt SzWord) 1%nat])%nat
   ∧ Scan RefEnv.env [bulk "3"] [ptrTo (TInt SzWord) 0%nat; ptrTo (TInt SzWord) 1%nat] twoInts
     = Ret ([], Some (ErrorsNew "redigo: Scan multibulk short")) twoInts)
  ∧ (Scan RefEnv.env [bulk "3"; bulk "7"; bulk "9"]
       [ptrTo (TInt SzWord) 0%nat; ptrTo (TInt SzWord) 1%nat] twoInts
     = Ret ([bulk "9"], None) {[ 0%nat := VInt 3; 1%nat := VInt 7 ]}
     ∧ [bulk "9"] = drop 2%nat [bulk "3"; bulk "7"; bulk "9"]).
Proof.
  assert (Hlt : (length [bulk "3"]
                 < length [ptrTo (TInt SzWord) 0%nat; ptrTo (TInt SzWord) 1%nat])%nat)
    by (simpl; lia).
  assert (Hrun : Scan RefEnv.env [bulk "3"; bulk "7"; bulk "9"]
                   [ptrTo (TInt SzWord) 0%nat; ptrTo (TInt SzWord) 1%nat] twoInts
                 = Ret ([bulk "9"], None) {[ 0%nat := VInt 3; 1%nat := VInt 7 ]})
    by (vm_compute; reflexivity).
  split.
  - split; [exact Hlt|].
    exact (proj1 (Scan_short_or_remainder RefEnv.env _ _ twoInts) Hlt).
  - split; [exact Hrun|].
    exact (proj1 (proj2 (Scan_short_or_remainder RefEnv.env _ _ twoInts) _ _ Hrun)).
Defined.

(** A failure at [d] after a successful prefix is what [Scan] returns, with
    the remainder of [src]. *)
Lemma Scan_first_failure env pre d post spre s srest e h h1 h2 :
  succeedInOrder env pre spre h h1 →
  convertAssign env d s h1 = Ret (Some e) h2 →
  (length post <= length srest)%nat →
  Scan env (spre ++ s :: srest) (pre ++ d :: post) h
    = Ret (drop (length (pre ++ d :: post)) (spre ++ s :: srest), Some e) h2.
Proof.
  intros Hpre Hd Hlen.
  pose proof (succeedInOrder_length env _ _ _ _ Hpre) as Hl.
  unfold Scan. rewrite bool_decide_false
    by (rewrite !length_app; simpl; lia).
  unfold bind.
  pose proof (scanLoop_succeed env _ _ _ _ Hpre [] (s :: srest) (d :: post)) as Hrun.
  cbn [app length Nat.add] in Hrun. rewrite Hrun.
  rewrite (scanLoop_fail env _ _ _ _ s e h1 h2); [done| |done].
  by rewrite list_lookup_middle.
Qed.

(** C9.  Split the destinations before [d] at any point into [pre1] and
    [pre2].  Let them take their replies in order without error (store [h]
    to [ha] for [pre1], [ha] to [h1] for [pre2]), let the conversion into [d]
    fail with [e] (store [h1] to [h2]), and let [src] be long enough for all
    destinations.  Then [Scan] returns [e] together with the remainder
    [src[len(dest):]]; it stops at [d], so the final store is [h2].  And as
    long as none of the conversions from [pre2] on fills a slice, a variable
    that none of the destinations [pre2] and [d] points to holds in the end
    what it held when [pre1] was done.  With [pre1] ending in a destination
    this says that the destination keeps its converted value unless a later
    destination up to [d] points to the same variable; with [pre1] empty it
    says that a variable (in particular one that only destinations after [d]
    point to) holds what it held before the call unless a destination up to
    [d] points to it. *)
Theorem Scan_stops_at_first_failure env pre1 pre2 d post spre1 spre2 s srest e
    h ha h1 h2 :
  succeedInOrder env pre1 spre1 h ha →
  succeedInOrder env pre2 spre2 ha h1 →
  convertAssign env d s h1 = Ret (Some e) h2 →
  (length post <= length srest)%nat →
  Scan env (spre1 ++ spre2 ++ s :: srest) (pre1 ++ pre2 ++ d :: post) h
    = Ret (drop (length (pre1 ++ pre2 ++ d :: post)) (spre1 ++ spre2 ++ s :: srest),
           Some e) h2
  ∧ drop (length (pre1 ++ pre2 ++ d :: post)) (spre1 ++ spre2 ++ s :: srest)
    = drop (length post) srest
  ∧ (noSliceFilled (pre2 ++ [d]) (spre2 ++ [s]) →
     ∀ l, (∀ d', d' ∈ pre2 ++ [d] → destLoc d' ≠ Some l) → h2 !! l = ha !! l).
Proof.
  intros Hpre1 Hpre2 Hd Hlen.
  pose proof (succeedInOrder_app env _ _ _ _ _ _ _ Hpre1 Hpre2) as Hpre.
  pose proof (succeedInOrder_length env _ _ _ _ Hpre) as Hl.
  rewrite !(app_assoc pre1), !(app_assoc spre1).
  split; [|split].
  - by eapply Scan_first_failure.
  - rewrite (length_app (pre1 ++ pre2)). simpl. rewrite Hl.
    rewrite drop_app_ge by lia.
    replace (length (spre1 ++ spre2) + S (length post) - length (spre1 ++ spre2))%nat
      with (S (length post)) by lia. done.
  - intros Hno l Hnone.
    apply noSliceFilled_app in Hno as [Hno2 Hnod];
      [|by eapply succeedInOrder_length].
    transitivity (h1 !! l).
    + eapply assignsP_frame;
        [apply (convertAssign_assigns env d s), (Hnod 0%nat); done|done|].
      apply Hnone, elem_of_app. right. by apply list_elem_of_singleton.
    + eapply succeedInOrder_assigns; eauto. intros d' Hin.
      apply Hnone, elem_of_app. by left.
Qed.

Lemma Scan_stops_at_first_failure_witness :
  let h : heap := {[ 0%nat := VInt 1; 1%nat := VInt 1; 2%nat := VInt 1; 3%nat := VInt 1 ]} in
  let ha : heap := {[ 0%nat := VInt 5; 1%nat := VInt 1; 2%nat := VInt 1; 3%nat := VInt 1 ]} in
  let h1 : heap := {[ 0%nat := VInt 5; 1%nat := VInt 6; 2%nat := VInt 1; 3%nat := VInt 1 ]} in
  let h2 : heap := {[ 0%nat := VInt 5; 1%nat := VInt 6; 2%nat := VInt 0; 3%nat := VInt 1 ]} in
  succeedInOrder RefEnv.env [ptrTo (TInt Sz8) 0%nat] [integer 5] h ha
  ∧ succeedInOrder RefEnv.env [ptrTo (TInt Sz8) 1%nat] [bulk "6"] ha h1
  ∧ convertAssign RefEnv.env (ptrTo (TInt Sz8) 2%nat) (integer 300) h1
    = Ret (Some ErrRange) h2
  ∧ (length [ptrTo (TInt Sz8) 3%nat] <= length [bulk "x"; bulk "y"])%nat
  ∧ noSliceFilled ([ptrTo (TInt Sz8) 1%nat] ++ [ptrTo (TInt Sz8) 2%nat])
      ([bulk "6"] ++ [integer 300])
  ∧ Scan RefEnv.env ([integer 5] ++ [bulk "6"] ++ integer 300 :: [bulk "x"; bulk "y"])
      ([ptrTo (TInt Sz8) 0%nat] ++ [ptrTo (TInt Sz8) 1%nat]
       ++ ptrTo (TInt Sz8) 2%nat :: [ptrTo (TInt Sz8) 3%nat]) h
    = Ret ([bulk "y"], Some ErrRange) h2
  ∧ h2 !! 0%nat = ha !! 0%nat
  ∧ h2 !! 3%nat = ha !! 3%nat.
Proof.
  intros h ha h1 h2.
  assert (Hpre1 : succeedInOrder RefEnv.env [ptrTo (TInt Sz8) 0%nat] [integer 5] h ha).
  { apply (sio_cons _ _ _ _ _ _ ha ha); [vm_compute; reflexivity | apply sio_nil]. }
  assert (Hpre2 : succeedInOrder RefEnv.env [ptrTo (TInt Sz8) 1%nat] [bulk "6"] ha h1).
  { apply (sio_cons _ _ _ _ _ _ h1 h1); [vm_compute; reflexivity | apply sio_nil]. }
  assert (Hd : convertAssign RefEnv.env (ptrTo (TInt Sz8) 2%nat) (integer 300) h1
               = Ret (Some ErrRange) h2) by (vm_compute; reflexivity).
  assert (Hlen : (length [ptrTo (TInt Sz8) 3%nat] <= length [bulk "x"; bulk "y"])%nat)
    by (simpl; lia).
  assert (Hno : noSliceFilled ([ptrTo (TInt Sz8) 1%nat] ++ [ptrTo (TInt Sz8) 2%nat])
                  ([bulk "6"] ++ [integer 300])).
  { intros [|[|i]] d' s' Hd' Hs'; simpl in Hd', Hs'; simplify_eq; reflexivity. }
  assert (Hother : ∀ l : loc, l ≠ 1%nat → l ≠ 2%nat →
            ∀ d', d' ∈ [ptrTo (TInt Sz8) 1%nat] ++ [ptrTo (TInt Sz8) 2%nat] →
                  destLoc d' ≠ Some l).
  { intros l H1 H2 d' Hin.
    repeat (apply elem_of_cons in Hin as [->|Hin]; [simpl; congruence|]).
    by apply elem_of_nil in Hin. }
  pose proof (Scan_stops_at_first_failure RefEnv.env _ _ _ _ _ _ _ _ _ _ _ _ _
                Hpre1 Hpre2 Hd Hlen) as (Hrun & _ & Hframe).
  split; [exact Hpre1|]. split; [exact Hpre2|]. split; [exact Hd|].
  split; [exact Hlen|]. split; [exact Hno|].
  split; [exact Hrun|].
  split; [exact (Hframe Hno 0%nat (Hother 0%nat ltac:(lia) ltac:(lia)))
         |exact (Hframe Hno 3%nat (Hother 3%nat ltac:(lia) ltac:(lia)))].
Defined.

(** C9 as stated fails when two destinations point to one variable.  With
    [x] an [int8] holding 1, [Scan(src, &x, &x)] of the replies 5 and 300
    stores 5 through the first destination, and the failing conversion of 300
    through the second one leaves 0 there: the destination before the failure
    has not kept its converted value.  With the replies 300 and 5 the first
    conversion fails and leaves 0: the destination after the failing one has
    not kept the 1 it held. *)
Lemma Scan_failure_reaches_shared_destination :
  convertAssign RefEnv.env (ptrTo (TInt Sz8) 0%nat) (integer 5) {[ 0%nat := VInt 1 ]}
    = Ret None {[ 0%nat := VInt 5 ]}
  ∧ Scan RefEnv.env [integer 5; integer 300]
      [ptrTo (TInt Sz8) 0%nat; ptrTo (TInt Sz8) 0%nat] {[ 0%nat := VInt 1 ]}
    = Ret ([], Some ErrRange) {[ 0%nat := VInt 0 ]}
  ∧ Scan RefEnv.env [integer 300; integer 5]
      [ptrTo (TInt Sz8) 0%nat; ptrTo (TInt Sz8) 0%nat] {[ 0%nat := VInt 1 ]}
    = Ret ([], Some ErrRange) {[ 0%nat := VInt 0 ]}.
Proof. repeat split; vm_compute; reflexivity. Qed.

(** ** The struct-spec compiler *)

(** Induction on a type, with the hypothesis for every field of a struct. *)
Lemma gtype_ind_fields (P : gtype → Prop) :
  P TBool → (∀ w, P (TInt w)) → (∀ w, P (TUint w)) → P TFloat32 → P TFloat64 →
  P TString → P TInterface →
  (∀ e, P e → P (TSlice e)) →
  (∀ e, P e → P (TPtr e)) →
  (∀ fs, Forall (fun f => P (Type_ f)) fs → P (TStruct fs)) →
  (∀ n u, P u → P (TNamed n u)) →
  (∀ k, P (TOther k)) →
  ∀ t, P t.
Proof.
  intros HB HI HU HF32 HF64 HS HIf HSl HP HSt HN HO.
  fix IH 1. intros [| w | w | | | | | e | e | fs | n u | k].
  - exact HB.
  - apply HI.
  - apply HU.
  - exact HF32.
  - exact HF64.
  - exact HS.
  - exact HIf.
  - apply HSl, IH.
  - apply HP, IH.
  - apply HSt.
    induction fs as [|[nm pk an ty tg] fs IHfs]; constructor; [apply IH | exact IHfs].
  - apply HN, IH.
  - apply HO.
Qed.

(** The in-place removal loop computes a filter. *)
Lemma removeLoop_spec name n i j (l0 l : list fieldSpec) :
  (j <= i)%nat →
  (i + n = length l0)%nat →
  length l = length l0 →
  drop i l = drop i l0 →
  let '(l', j') := removeLoop name n i j l in
  take j' l' = take j l ++ filter (fun x => fs_name x ≠ name) (drop i l0).
Proof.
  revert i j l. induction n as [|n IH]; intros i j l Hji Hin Hlen Hdrop; simpl.
  - rewrite drop_ge by lia. simpl. by rewrite app_nil_r.
  - destruct (l !! i) as [x|] eqn:Hx.
    2:{ apply lookup_ge_None in Hx. lia. }
    assert (Hx0 : l0 !! i = Some x).
    { rewrite <- (Nat.add_0_r i), <- lookup_drop, <- Hdrop, lookup_drop.
      by rewrite Nat.add_0_r. }
    rewrite (drop_S _ _ _ Hx0).
    case_bool_decide as Hne.
    + specialize (IH (S i) (S j) (<[j:=x]> l)).
      destruct (removeLoop name n (S i) (S j) (<[j:=x]> l)) as [l' j'].
      rewrite IH.
      * rewrite filter_cons_True by done.
        rewrite (take_S_r _ _ x).
        -- rewrite take_insert_ge by lia. by rewrite <- app_assoc.
        -- apply list_lookup_insert_eq. lia.
      * lia.
      * lia.
      * by rewrite length_insert.
      * rewrite drop_insert_lt by lia.
        apply (f_equal (drop 1)) in Hdrop. by rewrite !drop_drop, !Nat.add_1_r in Hdrop.
    + specialize (IH (S i) j l).
      destruct (removeLoop name n (S i) j l) as [l' j'].
      rewrite IH.
      * rewrite filter_cons_False; [done|]. intros Hc. apply Hc. by apply dec_stable.
      * lia.
      * lia.
      * done.
      * apply (f_equal (drop 1)) in Hdrop. by rewrite !drop_drop, !Nat.add_1_r in Hdrop.
Qed.

Lemma removeNamed_filter name (l : list fieldSpec) :
  removeNamed name l = filter (fun x => fs_name x ≠ name) l.
Proof.
  unfold removeNamed.
  pose proof (removeLoop_spec name (length l) 0 0 l l) as H.
  destruct (removeLoop name (length l) 0 0 l) as [l' j'].
  rewrite H; auto.
Qed.

(** The compiler is the traversal followed by one step per candidate. *)
Lemma compileAt_candidates t :
  ∀ tname depth index ss,
    compileAt tname t depth index ss =
      match candidatesAt tname t index with
      | Ok cs => Ok (foldl enterCandidate (depth, ss) cs)
      | Panicked v => Panicked v
      end.
Proof.
  induction t as [| | | | | | | | | fs IHfs | n u IHu |] using gtype_ind_fields;
    intros tname depth index ss; simpl; auto.
  generalize 0%nat as i. revert depth ss.
  induction IHfs as [|f fs Hf _ IH]; intros depth ss i; simpl; [done|].
  destruct (negb (String.eqb (PkgPath f) "")); [apply IH|].
  destruct (Anonymous f).
  - case_bool_decide; [|apply IH].
    rewrite Hf. destruct (candidatesAt (TypeName (Type_ f)) (Type_ f) (index ++ [i]))
      as [cs|v]; [|done].
    destruct (foldl enterCandidate (depth, ss) cs) as [depth' ss'] eqn:Hfold.
    rewrite IH. destruct (candidatesOfFields candidatesAt tname index fs (S i)); [|done].
    by rewrite foldl_app, Hfold.
  - destruct (resolveTag tname f) as [|e|name]; [apply IH|done|].
    destruct (enterField name index i depth ss) as [depth' ss'] eqn:He.
    rewrite IH. destruct (candidatesOfFields candidatesAt tname index fs (S i)); [|done].
    cbn [foldl].
    change (enterCandidate (depth, ss) (mkCandidate name index i))
      with (enterField name index i depth ss).
    by rewrite He.
Qed.

(** *** Least depth and resolution, one candidate at a time *)

Lemma minDepth_snoc n cs c :
  minDepth n (cs ++ [c]) =
    if bool_decide (c_name c = n)
    then Some (match minDepth n cs with
               | None => c_depth c
               | Some d => Nat.min d (c_depth c)
               end)
    else minDepth n cs.
Proof. unfold minDepth. by rewrite foldl_snoc. Qed.

Lemma minDepth_None n cs :
  minDepth n cs = None → ∀ c, c ∈ cs → c_name c ≠ n.
Proof.
  induction cs as [|c cs IH] using rev_ind; intros Hm c' Hin.
  - by apply elem_of_nil in Hin.
  - rewrite minDepth_snoc in Hm. case_bool_decide as Hn; [discriminate|].
    apply elem_of_app in Hin as [Hin|Hin]; [by apply IH|].
    apply list_elem_of_singleton in Hin. by subst.
Qed.

Lemma minDepth_Some n cs d :
  minDepth n cs = Some d →
  (∀ c, c ∈ cs → c_name c = n → (d <= c_depth c)%nat)
  ∧ (∃ c, c ∈ cs ∧ c_name c = n ∧ c_depth c = d).
Proof.
  revert d. induction cs as [|c cs IH] using rev_ind; intros d Hm; [discriminate|].
  rewrite minDepth_snoc in Hm. case_bool_decide as Hn.
  - destruct (minDepth n cs) as [d0|] eqn:Hm0; injection Hm as <-.
    + destruct (IH d0 eq_refl) as [Hle (c0 & Hin0 & Hn0 & Hd0)]. split.
      * intros c' Hin Hn'. apply elem_of_app in Hin as [Hin|Hin].
        -- specialize (Hle c' Hin Hn'). lia.
        -- apply list_elem_of_singleton in Hin. subst. lia.
      * destruct (decide (d0 <= c_depth c)%nat).
        -- exists c0. rewrite elem_of_app. split; [by left|]. split; [done|]. lia.
        -- exists c. rewrite elem_of_app, list_elem_of_singleton.
           split; [by right|]. split; [done|]. lia.
    + split.
      * intros c' Hin Hn'. apply elem_of_app in Hin as [Hin|Hin].
        -- by destruct (minDepth_None n cs Hm0 c' Hin).
        -- apply list_elem_of_singleton in Hin. by subst.
      * exists c. rewrite elem_of_app, list_elem_of_singleton. auto.
  - destruct (IH d Hm) as [Hle (c0 & Hin0 & Hn0 & Hd0)]. split.
    + intros c' Hin Hn'. apply elem_of_app in Hin as [Hin|Hin]; [by apply Hle|].
      apply list_elem_of_singleton in Hin. by subst.
    + exists c0. rewrite elem_of_app. auto.
Qed.

Lemma filter_nil_iff {A} (P : A → Prop) `{∀ x, Decision (P x)} (l : list A) :
  (∀ x, x ∈ l → ¬ P x) → filter P l = [].
Proof.
  induction l as [|x l IH]; intros Hall; [done|].
  rewrite filter_cons_False by (apply Hall; by left).
  apply IH. intros y Hy. apply Hall. by right.
Qed.

Lemma filter_nonempty {A} (P : A → Prop) `{∀ x, Decision (P x)} (l : list A) x :
  x ∈ l → P x → filter P l ≠ [].
Proof.
  intros Hin HP Hnil.
  assert (Hx : x ∈ filter P l) by (apply list_elem_of_filter; auto).
  rewrite Hnil in Hx. by apply elem_of_nil in Hx.
Qed.

(** How the resolution of [n] changes when one more candidate is met: a
    candidate at the least depth seen so far makes a tie and the name goes;
    a strictly shallower candidate takes the name; a strictly deeper one
    changes nothing. *)
Lemma resolve_snoc n cs c :
  resolve n (cs ++ [c]) =
    if bool_decide (c_name c = n) then
      match minDepth n cs with
      | None => Some (entry c)
      | Some d =>
          if bool_decide (c_depth c = d) then None
          else if bool_decide (c_depth c < d)%nat then Some (entry c)
          else resolve n cs
      end
    else resolve n cs.
Proof.
  unfold resolve, shallowest. rewrite minDepth_snoc.
  case_bool_decide as Hn.
  - destruct (minDepth n cs) as [d|] eqn:Hm.
    + destruct (minDepth_Some n cs d Hm) as [Hle (c0 & Hin0 & Hn0 & Hd0)].
      rewrite filter_app.
      case_bool_decide as Heq; [|case_bool_decide as Hlt].
      * replace (Nat.min d (c_depth c)) with d by lia.
        rewrite (filter_cons_True _ c []) by done.
        pose proof (filter_nonempty (fun c => c_name c = n ∧ c_depth c = d) cs c0 Hin0
                      (conj Hn0 Hd0)) as Hne.
        destruct (filter _ cs) as [|x [|y l]]; done.
      * replace (Nat.min d (c_depth c)) with (c_depth c) by lia.
        rewrite (filter_cons_True _ c []) by done.
        rewrite filter_nil_iff; [done|].
        intros x Hx [Hxn Hxd]. specialize (Hle x Hx Hxn). lia.
      * replace (Nat.min d (c_depth c)) with d by lia.
        rewrite (filter_cons_False _ c []) by (intros [_ ?]; lia).
        by rewrite app_nil_r.
    + rewrite filter_app, (filter_cons_True _ c []) by done.
      rewrite filter_nil_iff; [done|].
      intros x Hx [Hxn _]. by destruct (minDepth_None n cs Hm x Hx).
  - destruct (minDepth n cs) as [d|]; [|done].
    rewrite filter_app, (filter_cons_False _ c []) by (intros [? _]; done).
    by rewrite app_nil_r.
Qed.

(** *** The compiler keeps the resolution up to date *)

Lemma compiledFrom_step cs st c :
  compiledFrom cs st →
  Z.of_nat (c_depth c) < Z.shiftl 1 30 →
  compiledFrom (cs ++ [c]) (enterCandidate st c).
Proof.
  destruct st as [depth ss]. intros (Hd & Hm & Hl) Hb.
  unfold enterCandidate, enterField. simpl fst; simpl snd.
  simpl in Hd, Hm, Hl. fold (c_depth c).
  pose proof (Hd (c_name c)) as Hdc.
  assert (Hl' : ∀ fs, fs ∈ ss_l ss → ∃ c0, c0 ∈ cs ++ [c] ∧ fs = entry c0).
  { intros fs Hin. destruct (Hl fs Hin) as (c0 & ? & ?). exists c0.
    rewrite elem_of_app. auto. }
  destruct (minDepth (c_name c) cs) as [d|] eqn:Hmin; simpl in Hdc; rewrite Hdc.
  - destruct (Z.eqb_spec (Z.of_nat (c_depth c)) (Z.of_nat d)) as [Heq|Hne];
      [|destruct (Z.ltb_spec (Z.of_nat (c_depth c)) (Z.of_nat d)) as [Hlt|Hge]].
    + (* at the same depth: remove from the result *)
      apply Nat2Z.inj in Heq. repeat split; simpl.
      * intros n. rewrite minDepth_snoc, Hd. case_bool_decide as Hn; [|done].
        subst n. rewrite Hmin. by replace (Nat.min d (c_depth c)) with d by lia.
      * intros n. rewrite resolve_snoc. case_bool_decide as Hn.
        -- subst n. rewrite Hmin, bool_decide_true by done. apply lookup_delete_eq.
        -- rewrite lookup_delete_ne by done. apply Hm.
      * intros fs. rewrite removeNamed_filter, list_elem_of_filter.
        intros [_ Hin]. by apply Hl'.
    + (* shallower: enter the field *)
      repeat split; simpl.
      * intros n. rewrite minDepth_snoc. case_bool_decide as Hn.
        -- subst n. rewrite lookup_insert_eq, Hmin.
           by replace (Nat.min d (c_depth c)) with (c_depth c) by lia.
        -- rewrite lookup_insert_ne by done. apply Hd.
      * intros n. rewrite resolve_snoc. case_bool_decide as Hn.
        -- subst n. rewrite lookup_insert_eq, Hmin.
           rewrite bool_decide_false, bool_decide_true by lia. done.
        -- rewrite lookup_insert_ne by done. apply Hm.
      * intros fs. rewrite elem_of_app, list_elem_of_singleton.
        intros [Hin| ->]; [by apply Hl'|].
        exists c. rewrite elem_of_app, list_elem_of_singleton. auto.
    + (* deeper: nothing changes *)
      repeat split; simpl.
      * intros n. rewrite minDepth_snoc, Hd. case_bool_decide as Hn; [|done].
        subst n. rewrite Hmin. by replace (Nat.min d (c_depth c)) with d by lia.
      * intros n. rewrite resolve_snoc, Hm. case_bool_decide as Hn; [|done].
        subst n. rewrite Hmin. by rewrite !bool_decide_false by lia.
      * done.
  - rewrite (proj2 (Z.eqb_neq _ _)) by lia.
    rewrite (proj2 (Z.ltb_lt _ _)) by lia.
    repeat split; simpl.
    + intros n. rewrite minDepth_snoc. case_bool_decide as Hn.
      * subst n. by rewrite lookup_insert_eq, Hmin.
      * rewrite lookup_insert_ne by done. apply Hd.
    + intros n. rewrite resolve_snoc. case_bool_decide as Hn.
      * subst n. by rewrite lookup_insert_eq, Hmin.
      * rewrite lookup_insert_ne by done. apply Hm.
    + intros fs. rewrite elem_of_app, list_elem_of_singleton.
      intros [Hin| ->]; [by apply Hl'|].
      exists c. rewrite elem_of_app, list_elem_of_singleton. auto.
Qed.

Lemma compiledFrom_foldl cs :
  ∀ cs0 st,
    compiledFrom cs0 st →
    depthsBounded cs →
    compiledFrom (cs0 ++ cs) (foldl enterCandidate st cs).
Proof.
  induction cs as [|c cs IH]; intros cs0 st Hinv Hb; simpl.
  - by rewrite app_nil_r.
  - replace (cs0 ++ c :: cs) with ((cs0 ++ [c]) ++ cs) by (by rewrite <- app_assoc).
    apply IH.
    + apply compiledFrom_step; [done|]. apply Hb. by left.
    + intros c' Hc'. apply Hb. by right.
Qed.

Lemma compiledFrom_empty : compiledFrom [] (∅, {| ss_m := ∅; ss_l := [] |}).
Proof.
  split; [|split].
  - intros n. exact (lookup_empty n).
  - intros n. exact (lookup_empty n).
  - intros fs Hin. by apply elem_of_nil in Hin.
Qed.

(** What [structSpecForType] returns for a type whose traversal meets the
    candidates [cs]. *)
Lemma structSpecForType_candidates t cs :
  candidates t = Ok cs →
  depthsBounded cs →
  ∃ ss, structSpecForType t = Ok ss
        ∧ (∀ n, ss_m ss !! n = resolve n cs)
        ∧ (∀ fs, fs ∈ ss_l ss → ∃ c, c ∈ cs ∧ fs = entry c).
Proof.
  intros Hcs Hb. unfold structSpecForType, compileStructSpec.
  rewrite compileAt_candidates. unfold candidates in Hcs. rewrite Hcs.
  pose proof (compiledFrom_foldl cs [] _ compiledFrom_empty Hb) as Hinv.
  destruct (foldl enterCandidate _ cs) as [depth ss].
  destruct Hinv as (_ & Hm & Hl). simpl in Hm, Hl. eauto.
Qed.


Lemma filter_two {A} (P : A → Prop) `{∀ x, Decision (P x)} (l : list A) i j x y :
  i ≠ j → l !! i = Some x → l !! j = Some y → P x → P y →
  (2 <= length (filter P l))%nat.
Proof.
  revert i j. induction l as [|a l IH]; intros i j Hij Hi Hj Hx Hy; [done|].
  destruct i as [|i], j as [|j]; simpl in Hi, Hj; try done.
  - injection Hi as ->. rewrite filter_cons_True by done. simpl.
    assert (filter P l ≠ []) as Hne.
    { eapply filter_nonempty; [|exact Hy]. eapply list_elem_of_lookup_2; eauto. }
    destruct (filter P l); [done|simpl; lia].
  - injection Hj as ->. rewrite filter_cons_True by done. simpl.
    assert (filter P l ≠ []) as Hne.
    { eapply filter_nonempty; [|exact Hx]. eapply list_elem_of_lookup_2; eauto. }
    destruct (filter P l); [done|simpl; lia].
  - assert (2 <= length (filter P l))%nat by (eapply (IH i j); eauto).
    rewrite filter_cons. destruct (decide (P a)); simpl; lia.
Qed.

Lemma filter_one {A} (P : A → Prop) `{∀ x, Decision (P x)} (l : list A) i x :
  l !! i = Some x → P x →
  (∀ j y, j ≠ i → l !! j = Some y → ¬ P y) →
  filter P l = [x].
Proof.
  revert i. induction l as [|a l IH]; intros i Hi Hx Hothers; [done|].
  destruct i as [|i]; simpl in Hi.
  - injection Hi as ->. rewrite filter_cons_True by done. f_equal.
    apply filter_nil_iff. intros y Hy.
    apply list_elem_of_lookup in Hy as [j Hj]. by apply (Hothers (S j)).
  - rewrite filter_cons_False by (by apply (Hothers 0%nat)).
    apply (IH i); [done|done|]. intros j y Hj Hy. apply (Hothers (S j)); [lia|done].
Qed.

(** Two candidates of one name at the least depth: the name resolves to
    nothing. *)
Lemma resolve_tie n cs i j c1 c2 :
  i ≠ j → cs !! i = Some c1 → cs !! j = Some c2 →
  c_name c1 = n → c_name c2 = n →
  minDepth n cs = Some (c_depth c1) → c_depth c2 = c_depth c1 →
  resolve n cs = None.
Proof.
  intros Hij Hi Hj Hn1 Hn2 Hmin Hd. unfold resolve, shallowest. rewrite Hmin.
  pose proof (filter_two (fun c => c_name c = n ∧ c_depth c = c_depth c1) cs i j c1 c2
                Hij Hi Hj (conj Hn1 eq_refl) (conj Hn2 Hd)) as Hlen.
  destruct (filter _ cs) as [|a [|b l]]; simpl in Hlen; (done || lia).
Qed.

(** A candidate strictly shallower than every other candidate of its name:
    the name resolves to it. *)
Lemma resolve_shallowest n cs i c :
  cs !! i = Some c → c_name c = n →
  (∀ j c', j ≠ i → cs !! j = Some c' → c_name c' = n → (c_depth c < c_depth c')%nat) →
  resolve n cs = Some (entry c).
Proof.
  intros Hi Hn Hothers. unfold resolve, shallowest.
  destruct (minDepth n cs) as [d|] eqn:Hmin.
  - destruct (minDepth_Some n cs d Hmin) as [Hle (c0 & Hin0 & Hn0 & Hd0)].
    assert (d = c_depth c) as ->.
    { apply list_elem_of_lookup in Hin0 as [j Hj].
      destruct (decide (j = i)) as [->|Hne]; [congruence|].
      specialize (Hothers j c0 Hne Hj Hn0).
      assert (d <= c_depth c)%nat by (apply Hle; [eapply list_elem_of_lookup_2; eauto|done]).
      lia. }
    rewrite (filter_one _ cs i c); [done|done|done|].
    intros j y Hj Hy [Hyn Hyd]. specialize (Hothers j y Hj Hy Hyn). lia.
  - destruct (minDepth_None n cs Hmin c); [eapply list_elem_of_lookup_2; eauto|done].
Qed.

(** C1.  For a struct type whose traversal meets the candidates [cs] (fields
    in declaration order, depth-first into embedded structs), the compiled
    name-to-field mapping holds for every name exactly what the name resolves
    to by depth.  So: when two fields of a name sit at the least depth of that
    name, the name is not in the mapping at all; a field strictly shallower
    than every other field of its name is the mapping's entry, whether the
    deeper ones were met before it (it replaces them) or after it (they are
    ignored). *)
Theorem compiled_mapping_resolves_by_depth t cs :
  candidates t = Ok cs →
  depthsBounded cs →
  ∃ ss, structSpecForType t = Ok ss
    ∧ (∀ n, ss_m ss !! n = resolve n cs)
    ∧ (∀ n i j c1 c2,
         i ≠ j → cs !! i = Some c1 → cs !! j = Some c2 →
         c_name c1 = n → c_name c2 = n →
         minDepth n cs = Some (c_depth c1) → c_depth c2 = c_depth c1 →
         ss_m ss !! n = None)
    ∧ (∀ n i c,
         cs !! i = Some c → c_name c = n →
         (∀ j c', j ≠ i → cs !! j = Some c' → c_name c' = n →
                  (c_depth c < c_depth c')%nat) →
         ss_m ss !! n = Some (entry c)).
Proof.
  intros Hcs Hb.
  destruct (structSpecForType_candidates t cs Hcs Hb) as (ss & Hss & Hm & _).
  exists ss. split; [done|]. split; [done|]. split.
  - intros n i j c1 c2 Hij Hi Hj Hn1 Hn2 Hmin Hd. rewrite Hm.
    eapply resolve_tie; eauto.
  - intros n i c Hi Hn Hothers. rewrite Hm. eapply resolve_shallowest; eauto.
Qed.

Lemma exOuterCandidates_bounded : depthsBounded exOuterCandidates.
Proof.
  intros c Hc. unfold exOuterCandidates in Hc.
  repeat (apply elem_of_cons in Hc as [->|Hc]; [reflexivity|]).
  by apply elem_of_nil in Hc.
Qed.

Lemma compiled_mapping_resolves_by_depth_witness :
  candidates exOuter = Ok exOuterCandidates
  ∧ depthsBounded exOuterCandidates
  ∧ ∃ ss, structSpecForType exOuter = Ok ss
      ∧ ss_m ss !! "A" = Some {| fs_name := "A"; fs_index := [2%nat] |}
      ∧ ss_m ss !! "B" = None
      ∧ ss_m ss !! "C" = Some {| fs_name := "C"; fs_index := [1%nat; 1%nat] |}
      ∧ ss_m ss !! "D" = None.
Proof.
  assert (Hcs : candidates exOuter = Ok exOuterCandidates) by reflexivity.
  split; [exact Hcs|]. split; [exact exOuterCandidates_bounded|].
  destruct (compiled_mapping_resolves_by_depth exOuter exOuterCandidates Hcs
              exOuterCandidates_bounded) as (ss & Hss & Hm & _).
  exists ss. split; [exact Hss|].
  rewrite !Hm. repeat split; reflexivity.
Defined.

(** *** Compiled entries lead to named fields *)

Lemma namedFieldAt_typeAt path :
  ∀ t f, namedFieldAt t path = Some f → typeAt t path = Some (Type_ f).
Proof.
  induction path as [|i rest IH]; intros t f; simpl; [discriminate|].
  destruct (underlying t) as [| | | | | | | | | fs | |]; try discriminate.
  destruct (fs !! i) as [g|]; simpl; [|discriminate].
  destruct rest as [|j rest].
  - destruct (Anonymous g); [discriminate|]. by intros [= ->].
  - destruct (Anonymous g); [|discriminate]. apply IH.
Qed.

Lemma namedFieldAt_underlying t path :
  namedFieldAt (underlying t) path = namedFieldAt t path.
Proof. destruct path; simpl; [done|]. by rewrite underlying_idemp. Qed.

(** No candidate path runs through another one. *)
Lemma namedFieldAt_no_extension path :
  ∀ t f g more,
    namedFieldAt t path = Some f → namedFieldAt t (path ++ more) = Some g → more = [].
Proof.
  induction path as [|i rest IH]; intros t f g more; simpl; [discriminate|].
  destruct (underlying t) as [| | | | | | | | | fs | |]; try discriminate.
  destruct (fs !! i) as [x|]; simpl; [|discriminate].
  destruct rest as [|j rest]; simpl.
  - destruct (Anonymous x); [discriminate|]. intros _. by destruct more.
  - destruct (Anonymous x); [|discriminate]. apply IH.
Qed.

Lemma candidatesOfFields_named tname index fields :
  Forall (fun f => ∀ tname index cs,
            candidatesAt tname (Type_ f) index = Ok cs →
            ∀ c, c ∈ cs → ∃ rel g, c_index c = index ++ rel
                                   ∧ namedFieldAt (Type_ f) (rel ++ [c_i c]) = Some g)
         fields →
  ∀ fs i cs,
    fs = drop i fields →
    candidatesOfFields candidatesAt tname index fs i = Ok cs →
    ∀ c, c ∈ cs → ∃ rel g, c_index c = index ++ rel
                           ∧ namedFieldAt (TStruct fields) (rel ++ [c_i c]) = Some g.
Proof.
  intros HF fs. induction fs as [|f fs IH]; intros i cs Hfs; simpl.
  - intros [= <-] c Hc. by apply elem_of_nil in Hc.
  - assert (Hi : fields !! i = Some f).
    { rewrite <- (Nat.add_0_r i), <- lookup_drop, <- Hfs. done. }
    assert (Hfs' : fs = drop (S i) fields).
    { apply (f_equal (drop 1)) in Hfs. simpl in Hfs. rewrite drop_0 in Hfs.
      by rewrite Hfs, drop_drop, Nat.add_1_r. }
    destruct (negb (String.eqb (PkgPath f) "")); [by apply IH|].
    destruct (Anonymous f) eqn:Hanon.
    + case_bool_decide as Hk; [|by apply IH].
      destruct (candidatesAt (TypeName (Type_ f)) (Type_ f) (index ++ [i]))
        as [cs1|] eqn:Hc1; [|discriminate].
      destruct (candidatesOfFields candidatesAt tname index fs (S i))
        as [cs2|] eqn:Hc2; [|discriminate].
      intros [= <-] c Hc. apply elem_of_app in Hc as [Hc|Hc]; [|by eapply IH].
      rewrite Forall_forall in HF.
      destruct (HF f (list_elem_of_lookup_2 _ _ _ Hi) _ _ _ Hc1 c Hc)
        as (rel & g & Hrel & Hg).
      exists (i :: rel), g. rewrite Hrel, <- app_assoc. split; [done|].
      simpl. rewrite Hi. simpl. rewrite Hanon.
      destruct (rel ++ [c_i c]) eqn:Hnil; [by destruct rel|done].
    + destruct (resolveTag tname f) as [|e|name]; [by apply IH|discriminate|].
      destruct (candidatesOfFields candidatesAt tname index fs (S i))
        as [cs2|] eqn:Hc2; [|discriminate].
      intros [= <-] c Hc. apply elem_of_cons in Hc as [->|Hc]; [|by eapply IH].
      exists [], f. simpl. rewrite app_nil_r, Hi. simpl. by rewrite Hanon.
Qed.

Lemma candidatesAt_named t :
  ∀ tname index cs,
    candidatesAt tname t index = Ok cs →
    ∀ c, c ∈ cs → ∃ rel g, c_index c = index ++ rel
                           ∧ namedFieldAt t (rel ++ [c_i c]) = Some g.
Proof.
  induction t as [| | | | | | | | | fs IHfs | n u IHu |] using gtype_ind_fields;
    intros tname index cs; simpl; try discriminate.
  - intros Hcs. by eapply (candidatesOfFields_named tname index fs IHfs fs 0%nat).
  - intros Hcs c Hc. destruct (IHu _ _ _ Hcs c Hc) as (rel & g & Hrel & Hg).
    exists rel, g. split; [done|].
    rewrite <- namedFieldAt_underlying in Hg |- *. done.
Qed.

Lemma filter_filter_ne (n name : string) (l : list fieldSpec) :
  filter (fun x => fs_name x = n) (filter (fun x => fs_name x ≠ name) l) =
    if bool_decide (n = name) then [] else filter (fun x => fs_name x = n) l.
Proof.
  induction l as [|x l IH]; simpl.
  - by case_bool_decide.
  - rewrite (filter_cons (fun x => fs_name x ≠ name)).
    destruct (decide (fs_name x ≠ name)) as [Hne|He].
    + rewrite !filter_cons. rewrite IH.
      destruct (decide (fs_name x = n)) as [Hn|Hn]; case_bool_decide; congruence.
    + apply dec_stable in He. rewrite IH.
      case_bool_decide as Hnn; [done|].
      rewrite filter_cons_False; [done|congruence].
Qed.

Lemma specFrom_step cs depth ss c :
  specFrom cs ss → specFrom (cs ++ [c]) (enterCandidate (depth, ss) c).2.
Proof.
  intros [Hl Hm].
  assert (Hl' : ∀ fs, fs ∈ ss_l ss → ∃ c0, c0 ∈ cs ++ [c] ∧ fs = entry c0).
  { intros fs Hin. destruct (Hl fs Hin) as (c0 & ? & ?). exists c0.
    rewrite elem_of_app. auto. }
  unfold enterCandidate, enterField. simpl fst; simpl snd.
  destruct (_ =? _); [|destruct (_ <? _)]; simpl; split; simpl; try done.
  - intros fs. rewrite removeNamed_filter, list_elem_of_filter.
    intros [_ Hin]. by apply Hl'.
  - intros n. rewrite removeNamed_filter, filter_filter_ne.
    case_bool_decide as Hn.
    + subst. by rewrite lookup_delete_eq.
    + rewrite lookup_delete_ne by done. apply Hm.
  - intros fs. rewrite elem_of_app, list_elem_of_singleton.
    intros [Hin| ->]; [by apply Hl'|].
    exists c. rewrite elem_of_app, list_elem_of_singleton. auto.
  - intros n. rewrite filter_app.
    destruct (decide (c_name c = n)) as [<-|Hn].
    + rewrite lookup_insert_eq, (filter_cons_True _ _ []) by done.
      by rewrite filter_nil, last_snoc.
    + rewrite lookup_insert_ne by done.
      rewrite (filter_cons_False _ _ []) by done.
      rewrite filter_nil, app_nil_r. apply Hm.
Qed.

Lemma specFrom_foldl cs :
  ∀ cs0 st, specFrom cs0 st.2 → specFrom (cs0 ++ cs) (foldl enterCandidate st cs).2.
Proof.
  induction cs as [|c cs IH]; intros cs0 [depth ss] Hinv; simpl.
  - by rewrite app_nil_r.
  - replace (cs0 ++ c :: cs) with ((cs0 ++ [c]) ++ cs) by (by rewrite <- app_assoc).
    apply IH.
    destruct (enterCandidate (depth, ss) c) as [depth' ss'] eqn:He.
    pose proof (specFrom_step cs0 depth ss c Hinv) as Hs. by rewrite He in Hs.
Qed.

(** Every entry of a compiled spec leads to a named field of the type, and
    the mapping holds the last entry of each name in the list. *)
Lemma structSpecForType_wf t ss :
  structSpecForType t = Ok ss →
  (∀ fs, fs ∈ ss_l ss → ∃ g, namedFieldAt t (fs_index fs) = Some g)
  ∧ (∀ n, ss_m ss !! n = last (filter (fun x => fs_name x = n) (ss_l ss))).
Proof.
  unfold structSpecForType, compileStructSpec. rewrite compileAt_candidates.
  destruct (candidatesAt (TypeName t) t []) as [cs|] eqn:Hcs; [|discriminate].
  pose proof (specFrom_foldl cs [] (∅, {| ss_m := ∅; ss_l := [] |})) as Hinv.
  destruct (foldl enterCandidate _ cs) as [depth ss'].
  intros [= <-]. destruct Hinv as [Hl Hm].
  { split; simpl.
    - intros fs Hin. by apply elem_of_nil in Hin.
    - intros n. exact (lookup_empty n). }
  split; [|exact Hm].
  intros fs Hin. destruct (Hl fs Hin) as (c & Hc & ->).
  destruct (candidatesAt_named t _ _ _ Hcs c Hc) as (rel & g & Hrel & Hg).
  simpl in Hrel. exists g. unfold entry. simpl. by rewrite Hrel.
Qed.

Lemma last_filter_elem {A} (P : A → Prop) `{∀ x, Decision (P x)} (l : list A) x :
  last (filter P l) = Some x → x ∈ l ∧ P x.
Proof.
  intros Hlast.
  assert (Hx : x ∈ filter P l).
  { destruct (filter P l) as [|a l'] using rev_ind; [done|].
    rewrite last_snoc in Hlast. injection Hlast as ->.
    rewrite elem_of_app, list_elem_of_singleton. auto. }
  apply list_elem_of_filter in Hx. tauto.
Qed.

Lemma structSpecForType_lookup t ss n fs :
  structSpecForType t = Ok ss →
  ss_m ss !! n = Some fs →
  fs ∈ ss_l ss ∧ fs_name fs = n ∧ ∃ g, namedFieldAt t (fs_index fs) = Some g.
Proof.
  intros Hss Hn. destruct (structSpecForType_wf t ss Hss) as [Hl Hm].
  rewrite Hm in Hn. apply last_filter_elem in Hn as [Hin Hname]. auto.
Qed.

(** *** Reaching a field of a place *)

Lemma Kind_struct t fs : underlying t = TStruct fs → Kind t = KStruct.
Proof. intros H. by rewrite Kind_underlying, H. Qed.

Lemma Field_place t fs i f l p h :
  underlying t = TStruct fs → fs !! i = Some f →
  Field (RPlace t l p) i h = Ret (RPlace (Type_ f) l (p ++ [i])) h.
Proof.
  intros Hu Hi. unfold Field. change (rKind (RPlace t l p)) with (Kind t).
  rewrite (Kind_struct _ _ Hu). unfold bind, rType, ret, TypeField.
  by rewrite Hu, Hi.
Qed.

Lemma FieldByIndex_place index :
  ∀ t ft l p h,
    typeAt t index = Some ft →
    FieldByIndex (RPlace t l p) index h = Ret (RPlace ft l (p ++ index)) h.
Proof.
  induction index as [|i index IH]; intros t ft l p h; simpl.
  - intros [= ->]. by rewrite app_nil_r.
  - destruct (underlying t) as [| | | | | | | | | fs | |] eqn:Hu; try discriminate.
    destruct (fs !! i) as [f|] eqn:Hi; simpl; [|discriminate].
    intros Hrest. unfold bind. rewrite (Field_place _ _ _ _ _ _ _ Hu Hi).
    rewrite (IH _ _ _ _ _ Hrest). by rewrite <- app_assoc.
Qed.

(** ** Struct scan *)

Section ScanStructFacts.
Context (env : Env).
Implicit Types (T : gtype) (ss : structSpec) (l : loc) (h : heap).

(** [ScanStruct] on a non-nil pointer: compile, check the length, loop. *)
Lemma ScanStruct_pointer src T l h :
  ScanStruct env src (Some (TPtr T, VPtr (Some l))) h =
    match structSpecForType T with
    | Ok ss =>
        if bool_decide (length src mod 2 ≠ 0)%nat
        then Ret (Some (ErrorsNew
               "redigo: ScanStruct expects even number of values in values")) h
        else scanStructLoop env ss (RPlace T l []) src h
    | Panicked v => Panic v
    end.
Proof.
  unfold ScanStruct, bind, liftR. simpl.
  destruct (structSpecForType T) as [ss|v]; [|done].
  by case_bool_decide.
Qed.

Lemma scanStructLoop_unknown ss d key s rest h :
  ss_m ss !! string_of_bytes key = None →
  scanStructLoop env ss d (Some (bytesT, key) :: s :: rest) h =
    scanStructLoop env ss d rest h.
Proof. intros Hk. simpl. unfold fieldSpecOf. by rewrite Hk. Qed.

Lemma scanStructLoop_known ss T l key s rest h fs ft :
  ss_m ss !! string_of_bytes key = Some fs →
  typeAt T (fs_index fs) = Some ft →
  scanStructLoop env ss (RPlace T l []) (Some (bytesT, key) :: s :: rest) h =
    match scanStructValue env (RPlace ft l (fs_index fs)) s h with
    | Ret (Some e) h' => Ret (Some e) h'
    | Ret None h' => scanStructLoop env ss (RPlace T l []) rest h'
    | Panic v => Panic v
    | Fault => Fault
    end.
Proof.
  intros Hk Ht. unfold bytesT. cbn [scanStructLoop]. unfold fieldSpecOf. rewrite Hk.
  unfold bind at 1. erewrite FieldByIndex_place by done. simpl app.
  unfold bind.
  destruct (scanStructValue env (RPlace ft l (fs_index fs)) s h) as [[e|] h'| |]; done.
Qed.

Lemma compiled_field_type T ss n fs :
  structSpecForType T = Ok ss →
  ss_m ss !! n = Some fs →
  ∃ ft, typeAt T (fs_index fs) = Some ft.
Proof.
  intros Hss Hn.
  destruct (structSpecForType_lookup T ss n fs Hss Hn) as (_ & _ & g & Hg).
  exists (Type_ g). by apply namedFieldAt_typeAt.
Qed.

Lemma scanStructLoop_null_pair T ss l key rest h :
  structSpecForType T = Ok ss →
  scanStructLoop env ss (RPlace T l []) (Some (bytesT, key) :: None :: rest) h =
    scanStructLoop env ss (RPlace T l []) rest h.
Proof.
  intros Hss. destruct (ss_m ss !! string_of_bytes key) as [fs|] eqn:Hk.
  - destruct (compiled_field_type T ss _ fs Hss Hk) as [ft Hft].
    by rewrite (scanStructLoop_known ss T l key None rest h fs ft Hk Hft).
  - by apply scanStructLoop_unknown.
Qed.

Lemma scanLoop_null (src : list iface) (i : nat) d dest h :
  src !! i = Some None →
  scanLoop env src i (d :: dest) h = scanLoop env src (S i) dest h.
Proof. intros Hs. cbn [scanLoop]. by rewrite Hs. Qed.

Lemma scanLoop_all_null dest :
  ∀ spre rest h,
    scanLoop env (spre ++ replicate (length dest) None ++ rest) (length spre) dest h
    = Ret None h.
Proof.
  induction dest as [|d dest IH]; intros spre rest h; [done|].
  cbn [length replicate app].
  rewrite scanLoop_null by (by rewrite list_lookup_middle).
  specialize (IH (spre ++ [None]) rest h).
  rewrite length_app, <- app_assoc in IH. simpl in IH.
  rewrite Nat.add_1_r in IH. exact IH.
Qed.

End ScanStructFacts.

(** C4.  A [Null] source value is skipped in every binding operation: it gives
    no error and the store is left exactly as it was.  This holds for
    [convertAssign] with any destination whatever, hence for every step of
    the positional scan, and for the value of every pair of the struct scan,
    whether its key names a field or not; a positional scan that consumes
    only [Null] values, and a struct scan whose values are all [Null], return
    no error and the store they were given. *)
Theorem Null_source_is_skipped env :
  (∀ d h, convertAssign env d None h = Ret None h)
  ∧ (∀ (src : list iface) (i : nat) d dest h,
       src !! i = Some None →
       scanLoop env src i (d :: dest) h = scanLoop env src (S i) dest h)
  ∧ (∀ dest rest h,
       Scan env (replicate (length dest) None ++ rest) dest h = Ret (rest, None) h)
  ∧ (∀ f h, scanStructValue env f None h = Ret None h)
  ∧ (∀ T ss l key rest h,
       structSpecForType T = Ok ss →
       scanStructLoop env ss (RPlace T l []) (Some (bytesT, key) :: None :: rest) h
       = scanStructLoop env ss (RPlace T l []) rest h)
  ∧ (∀ T ss l keys h,
       structSpecForType T = Ok ss →
       ScanStruct env (nullPairs keys) (ptrTo T l) h = Ret None h).
Proof.
  split; [done|]. split; [apply scanLoop_null|]. split; [|split; [done|split]].
  - intros dest rest h. unfold Scan.
    rewrite bool_decide_false
      by (rewrite length_app, length_replicate; lia).
    unfold bind. pose proof (scanLoop_all_null env dest [] rest h) as Hrun.
    cbn [app length] in Hrun. rewrite Hrun.
    unfold ret. rewrite drop_app_length'; [done|]. by rewrite length_replicate.
  - apply scanStructLoop_null_pair.
  - intros T ss l keys h Hss. unfold ptrTo. rewrite ScanStruct_pointer, Hss.
    assert (Heven : (length (nullPairs keys) mod 2 = 0)%nat).
    { unfold nullPairs. induction keys as [|k keys IH]; [done|].
      change (length ((k :: keys) ≫= fun k => [bulk k; None]))
        with (S (S (length (keys ≫= fun k => [bulk k; None])))).
      rewrite <- IH at 2.
      replace (S (S (length (keys ≫= fun k => [bulk k; None]))))
        with (length (keys ≫= fun k => [bulk k; None]) + 1 * 2)%nat by lia.
      by rewrite Nat.Div0.mod_add. }
    rewrite bool_decide_false by lia.
    induction keys as [|k keys IH]; [done|].
    change (nullPairs (k :: keys)) with (bulk k :: None :: nullPairs keys).
    unfold bulk at 1. rewrite (scanStructLoop_null_pair env T ss l _ _ h Hss).
    apply IH. revert Heven.
    change (length (nullPairs (k :: keys))) with (S (S (length (nullPairs keys)))).
    replace (S (S (length (nullPairs keys))))
      with (length (nullPairs keys) + 1 * 2)%nat by lia.
    by rewrite Nat.Div0.mod_add.
Qed.

Lemma Null_source_is_skipped_witness :
  ∃ ss, structSpecForType exOuter = Ok ss
        ∧ ScanStruct RefEnv.env (nullPairs ["A"; "B"; "C"]) (ptrTo exOuter 0%nat)
            {[ 0%nat := zero exOuter ]}
          = Ret None {[ 0%nat := zero exOuter ]}.
Proof.
  destruct (structSpecForType exOuter) as [ss|v] eqn:Hss.
  - exists ss. split; [reflexivity|].
    exact (proj2 (proj2 (proj2 (proj2 (proj2 (Null_source_is_skipped RefEnv.env)))))
             exOuter _ 0%nat ["A"; "B"; "C"] _ Hss).
  - vm_compute in Hss. discriminate Hss.
Defined.

(** C5, as the code has it.  In the positional scan an [Error] reply makes
    the binding fail with that very value, for every destination: at the
    destination it is paired with, after the destinations before it took their
    values.  The struct scan has no case for an [Error] reply: paired with a
    key that names a compiled field it fails with the cannot-convert error for
    that field's type, and paired with an unknown key it is passed over like
    any other value. *)
Theorem Error_reply_binding env :
  (∀ d msg h, convertAssign env d (replyError msg) h = Ret (Some (ReplyError msg)) h)
  ∧ (∀ pre d post spre msg srest h h1,
       succeedInOrder env pre spre h h1 →
       (length post <= length srest)%nat →
       Scan env (spre ++ replyError msg :: srest) (pre ++ d :: post) h
       = Ret (drop (length (pre ++ d :: post)) (spre ++ replyError msg :: srest),
              Some (ReplyError msg)) h1)
  ∧ (∀ T ss l key msg rest h fs,
       structSpecForType T = Ok ss →
       ss_m ss !! string_of_bytes key = Some fs →
       ∃ ft, typeAt T (fs_index fs) = Some ft
             ∧ scanStructLoop env ss (RPlace T l [])
                 (Some (bytesT, key) :: replyError msg :: rest) h
               = Ret (Some (CannotConvert (Some ErrorT) ft)) h)
  ∧ (∀ T ss l key msg rest h,
       ss_m ss !! string_of_bytes key = None →
       scanStructLoop env ss (RPlace T l [])
         (Some (bytesT, key) :: replyError msg :: rest) h
       = scanStructLoop env ss (RPlace T l []) rest h).
Proof.
  assert (Hconv : ∀ d msg h,
            convertAssign env d (replyError msg) h = Ret (Some (ReplyError msg)) h)
    by done.
  split; [exact Hconv|]. split; [|split].
  - intros pre d post spre msg srest h h1 Hpre Hlen.
    exact (Scan_first_failure env pre d post spre _ srest _ h h1 h1
             Hpre (Hconv d msg h1) Hlen).
  - intros T ss l key msg rest h fs Hss Hk.
    destruct (compiled_field_type T ss _ fs Hss Hk) as [ft Hft].
    exists ft. split; [done|].
    by rewrite (scanStructLoop_known env ss T l key _ rest h fs ft Hk Hft).
  - intros T ss l key msg rest h Hk. by apply scanStructLoop_unknown.
Qed.

Lemma Error_reply_binding_witness :
  ∃ ss,
    structSpecForType exBase = Ok ss
    ∧ ss_m ss !! string_of_bytes (bytes_of_string "A")
      = Some {| fs_name := "A"; fs_index := [0%nat] |}
    ∧ ∃ ft, typeAt exBase [0%nat] = Some ft
            ∧ scanStructLoop RefEnv.env ss (RPlace exBase 0%nat [])
                (Some (bytesT, bytes_of_string "A") :: replyError "ERR wrong kind" :: [])
                oneBase
              = Ret (Some (CannotConvert (Some ErrorT) ft)) oneBase.
Proof.
  assert (Hall : match structSpecForType exBase with
                 | Ok ss => ss_m ss !! string_of_bytes (bytes_of_string "A")
                            = Some {| fs_name := "A"; fs_index := [0%nat] |}
                 | Panicked _ => False
                 end).
  { vm_compute. reflexivity. }
  destruct (structSpecForType exBase) as [ss|pv] eqn:Hss; [|destruct Hall].
  exists ss. split; [reflexivity|]. split; [exact Hall|].
  exact (proj1 (proj2 (proj2 (Error_reply_binding RefEnv.env)))
           exBase ss 0%nat (bytes_of_string "A") "ERR wrong kind" [] oneBase _ Hss Hall).
Defined.

(** C5 as stated fails for the struct scan: an [Error] reply paired with the
    key of a field comes back as a cannot-convert error, not as itself, and
    paired with an unknown key it is no failure at all. *)
Lemma ScanStruct_Error_reply_is_not_returned :
  ScanStruct RefEnv.env [bulk "A"; replyError "ERR wrong kind"] (ptrTo exBase 0%nat) oneBase
    = Ret (Some (CannotConvert (Some ErrorT) (TInt SzWord))) oneBase
  ∧ CannotConvert (Some ErrorT) (TInt SzWord) ≠ ReplyError "ERR wrong kind"
  ∧ ScanStruct RefEnv.env [bulk "Z"; replyError "ERR wrong kind"] (ptrTo exBase 0%nat) oneBase
    = Ret None oneBase.
Proof. split; [|split]; [vm_compute; reflexivity | discriminate | vm_compute; reflexivity]. Qed.

(** ** Destinations [ScanStruct] cannot fill *)

Lemma compileAt_non_struct T :
  Kind T ≠ KStruct →
  ∀ tn depth index ss,
    compileAt tn T depth index ss
    = Panicked (PanicMsg "reflect: NumField of non-struct type").
Proof. induction T; intros Hk tn depth index ss; simpl in *; try done. by apply IHT. Qed.

Lemma structSpecForType_Ok_struct T ss :
  structSpecForType T = Ok ss → Kind T = KStruct.
Proof.
  intros Hss. destruct (decide (Kind T = KStruct)) as [|Hk]; [done|].
  unfold structSpecForType, compileStructSpec in Hss.
  by rewrite compileAt_non_struct in Hss.
Qed.


(** C7 on the code.  A nil interface, a value that is no pointer and a nil
    pointer are refused with the error
    ["redigo: ScanStruct value must be non-nil pointer"] and the store is
    left alone; but a pointer to a variable that is no struct is not refused:
    the call goes on to compile a spec for its type and panics in
    [reflect]'s [NumField]. *)
Theorem ScanStruct_invalid_destination env src h :
  ScanStruct env src None h
    = Ret (Some (ErrorsNew "redigo: ScanStruct value must be non-nil pointer")) h
  ∧ (∀ t v, Kind t ≠ KPtr →
       ScanStruct env src (Some (t, v)) h
       = Ret (Some (ErrorsNew "redigo: ScanStruct value must be non-nil pointer")) h)
  ∧ (∀ t, Kind t = KPtr →
       ScanStruct env src (Some (t, VPtr None)) h
       = Ret (Some (ErrorsNew "redigo: ScanStruct value must be non-nil pointer")) h)
  ∧ (∀ l, ScanStruct env src (ptrTo (TInt SzWord) l) h
          = Panic (PanicMsg "reflect: NumField of non-struct type")).
Proof.
  split; [done|]. split; [|split].
  - intros t v Hk. unfold ScanStruct. simpl. by rewrite bool_decide_true.
  - intros t Hk. unfold ScanStruct. simpl. rewrite bool_decide_false by tauto.
    unfold bind, IsNil. simpl. rewrite Hk. done.
  - intros l. unfold ptrTo. by rewrite ScanStruct_pointer.
Qed.

Lemma ScanStruct_invalid_destination_witness :
  Kind (TInt SzWord) ≠ KPtr
  ∧ ScanStruct RefEnv.env [bulk "A"; bulk "1"] (Some (TInt SzWord, VInt 3)) oneBase
    = Ret (Some (ErrorsNew "redigo: ScanStruct value must be non-nil pointer")) oneBase.
Proof.
  assert (Hk : Kind (TInt SzWord) ≠ KPtr) by discriminate.
  split; [exact Hk|].
  exact (proj1 (proj2 (ScanStruct_invalid_destination RefEnv.env
                         [bulk "A"; bulk "1"] oneBase)) (TInt SzWord) (VInt 3) Hk).
Defined.

(** A pointer to anything that is no struct makes [ScanStruct] panic. *)
Lemma ScanStruct_non_struct_panics env src T l h :
  Kind T ≠ KStruct →
  ScanStruct env src (ptrTo T l) h = Panic (PanicMsg "reflect: NumField of non-struct type").
Proof.
  intros Hk. unfold ptrTo. rewrite ScanStruct_pointer.
  unfold structSpecForType, compileStructSpec. by rewrite compileAt_non_struct.
Qed.

(** [AppendStruct] does make the check that [ScanStruct] lacks. *)
Lemma AppendStruct_non_struct_is_an_error args T l h :
  Kind T ≠ KStruct →
  AppendStruct args (ptrTo T l) h
    = Ret ([], Some (ErrorsNew
        "redigo: AppendStruct argument must be a struct or pointer to a struct")) h.
Proof.
  intros Hk. unfold AppendStruct, ptrTo. simpl.
  unfold bind, IsNil, Elem. simpl. unfold bind, typeElem. simpl.
  by rewrite bool_decide_true.
Qed.

(** ** The ordered list of a compiled spec *)

(** C2 on the code.  For [type Base struct { A int }] and
    [type Shadow struct { Base; A int }] the compiler keeps the entry of the
    embedded, shadowed [A] in the ordered list when the outer [A] takes the
    name in the mapping: the list holds two entries named ["A"], the mapping
    one, and [AppendStruct] emits the name twice. *)
Theorem compiled_list_keeps_shadowed_entry :
  ∃ ss, structSpecForType exShadow = Ok ss
    ∧ ss_l ss = [ {| fs_name := "A"; fs_index := [0%nat; 0%nat] |};
                  {| fs_name := "A"; fs_index := [1%nat] |} ]
    ∧ ss_m ss !! "A" = Some {| fs_name := "A"; fs_index := [1%nat] |}
    ∧ size (ss_m ss) = 1%nat
    ∧ ¬ NoDup (fs_name <$> ss_l ss)
    ∧ AppendStruct [] (Some (exShadow, VStruct [VStruct [VInt 1]; VInt 2])) ∅
      = Ret ([Some (TString, VString "A"); Some (TInt SzWord, VInt 1);
              Some (TString, VString "A"); Some (TInt SzWord, VInt 2)], None) ∅.
Proof.
  assert (Hall : match structSpecForType exShadow with
                 | Ok ss =>
                     ss_l ss = [ {| fs_name := "A"; fs_index := [0%nat; 0%nat] |};
                                 {| fs_name := "A"; fs_index := [1%nat] |} ]
                     ∧ ss_m ss !! "A" = Some {| fs_name := "A"; fs_index := [1%nat] |}
                     ∧ size (ss_m ss) = 1%nat
                 | Panicked _ => False
                 end).
  { vm_compute. repeat split; reflexivity. }
  destruct (structSpecForType exShadow) as [ss|v]; [|done].
  destruct Hall as (Hl & Hm & Hsz).
  exists ss. repeat split; try done.
  rewrite Hl. simpl. intros Hnd. apply NoDup_cons in Hnd as [Hnin _].
  apply Hnin. by left.
Qed.

(** ** Flatten, then scan *)

Lemma string_of_bytes_of_string s : string_of_bytes (bytes_of_string s) = s.
Proof.
  unfold string_of_bytes, bytes_of_string.
  assert (Hlen : String.length s = length (String.list_ascii_of_string s)).
  { induction s as [|a s IH]; simpl; congruence. }
  rewrite Hlen, <- (length_map (fun a => VUint (Z.of_N (N_of_ascii a)))).
  rewrite firstn_all, List.map_map.
  rewrite (List.map_ext _ (fun a => a)).
  - by rewrite List.map_id, String.string_of_list_ascii_of_string.
  - intros a. unfold byteOf. by rewrite N2Z.id, ascii_N_embedding.
Qed.

Lemma zero_underlying t : zero t = zero (underlying t).
Proof. induction t; simpl; auto. Qed.

Lemma zero_path index :
  ∀ T ft, typeAt T index = Some ft → get_path index (zero T) = Some (zero ft).
Proof.
  induction index as [|i index IH]; intros T ft; simpl.
  - by intros [= ->].
  - rewrite (zero_underlying T).
    destruct (underlying T) as [| | | | | | | | | fs | |]; try discriminate.
    destruct (fs !! i) as [f|] eqn:Hi; simpl; [|discriminate].
    intros Hrest. rewrite list_lookup_fmap, Hi. simpl. by apply IH.
Qed.

(** Writing at one path leaves every path that neither runs through it nor
    is run through by it as it was. *)
Lemma get_path_set_path_other p :
  ∀ q x v v',
    set_path p x v = Some v' →
    ¬ p `prefix_of` q → ¬ q `prefix_of` p →
    get_path q v' = get_path q v.
Proof.
  induction p as [|i p IH]; intros q x v v' Hs Hpq Hqp.
  - destruct Hpq. apply prefix_nil.
  - destruct q as [|j q]; [destruct Hqp; apply prefix_nil|].
    simpl in Hs.
    destruct v; try discriminate;
      (destruct (_ !! i) as [e|] eqn:He; simpl in Hs; [|discriminate]);
      (destruct (set_path p x e) as [e'|] eqn:Hse; simpl in Hs; [|discriminate]);
      injection Hs as <-; simpl;
      (destruct (decide (i = j)) as [->|Hij];
       [ rewrite list_lookup_insert_eq by (eapply lookup_lt_Some; eauto);
         rewrite He; simpl; eapply IH; eauto;
         [ intros Hp; apply Hpq; by apply prefix_cons
         | intros Hq; apply Hqp; by apply prefix_cons ]
       | by rewrite list_lookup_insert_ne by done ]).
Qed.

Lemma named_paths_incomparable T p q f g :
  namedFieldAt T p = Some f → namedFieldAt T q = Some g → p ≠ q →
  ¬ p `prefix_of` q.
Proof.
  intros Hp Hq Hne [more ->].
  rewrite (namedFieldAt_no_extension p T f g more Hp Hq), app_nil_r in Hne. done.
Qed.

Lemma filter_NoDup_names (l : list fieldSpec) x :
  NoDup (fs_name <$> l) → x ∈ l →
  filter (fun y => fs_name y = fs_name x) l = [x].
Proof.
  induction l as [|a l IH]; intros Hnd Hin; [by apply elem_of_nil in Hin|].
  simpl in Hnd. apply NoDup_cons in Hnd as [Hnotin Hnd].
  apply elem_of_cons in Hin as [->|Hin].
  - rewrite filter_cons_True by done. f_equal.
    apply filter_nil_iff. intros y Hy Hname. apply Hnotin.
    rewrite <- Hname. apply list_elem_of_fmap. eauto.
  - rewrite filter_cons_False; [by apply IH|].
    intros Hname. apply Hnotin. rewrite Hname. apply list_elem_of_fmap. eauto.
Qed.

(** When no two entries of the list share a name, the mapping holds every
    entry of the list under its name. *)
Lemma compiled_lookup_of_list T ss fs :
  structSpecForType T = Ok ss →
  NoDup (fs_name <$> ss_l ss) →
  fs ∈ ss_l ss →
  ss_m ss !! fs_name fs = Some fs.
Proof.
  intros Hss Hnd Hin. destruct (structSpecForType_wf T ss Hss) as [_ Hm].
  by rewrite Hm, (filter_NoDup_names _ _ Hnd Hin).
Qed.


(** *** What [AppendStruct] emits for a struct value *)

Lemma Field_copy_inv T v i d h h' :
  Field (RCopy T v) i h = Ret d h' →
  h' = h ∧ ∃ fs f x, underlying T = TStruct fs ∧ fs !! i = Some f
                     ∧ get_path [i] v = Some x ∧ d = RCopy (Type_ f) x.
Proof.
  unfold Field. change (rKind (RCopy T v)) with (Kind T).
  destruct (Kind T) eqn:Hk; try discriminate.
  unfold bind, rType, ret, TypeField, load.
  destruct (underlying T) as [| | | | | | | | | fs | |] eqn:Hu; try discriminate.
  destruct (fs !! i) as [f|] eqn:Hi; [|discriminate].
  destruct (get_path [i] v) as [x|] eqn:Hx; [|discriminate].
  intros [= <- <-]. split; [done|]. by exists fs, f, x.
Qed.

Lemma get_path_cons i rest v :
  get_path (i :: rest) v = get_path [i] v ≫= get_path rest.
Proof. simpl. destruct v; try done; by destruct (_ !! i). Qed.

Lemma FieldByIndex_copy_inv index :
  ∀ T v d h h',
    FieldByIndex (RCopy T v) index h = Ret d h' →
    h' = h ∧ ∃ ft vi, typeAt T index = Some ft ∧ get_path index v = Some vi
                      ∧ d = RCopy ft vi.
Proof.
  induction index as [|i index IH]; intros T v d h h'.
  - intros [= <- <-]. split; [done|]. by exists T, v.
  - cbn [FieldByIndex]. unfold bind at 1.
    destruct (Field (RCopy T v) i h) as [d1 h1| |] eqn:Hf; try discriminate.
    destruct (Field_copy_inv _ _ _ _ _ _ Hf) as (-> & fs & f & x & Hu & Hi & Hx & ->).
    intros Hrest. destruct (IH _ _ _ _ _ Hrest) as (-> & ft & vi & Ht & Hg & ->).
    split; [done|]. exists ft, vi. split; [|split; [|done]].
    + simpl. by rewrite Hu, Hi.
    + by rewrite get_path_cons, Hx.
Qed.

Lemma Interface_copy_inv ft vi x h h' :
  Interface_ (RCopy ft vi) h = Ret x h' → h' = h ∧ emittedValue ft vi x.
Proof.
  unfold Interface_, bind, rType, load, ret, emittedValue.
  destruct (Kind ft) eqn:Hk;
    try (intros [= <- <-]; split; [done|]; left; split; [congruence|done]).
  destruct vi; try discriminate.
  intros [= <- <-]. split; [done|]. by right.
Qed.

Lemma appendStructLoop_copy_inv T v l :
  ∀ args0 args h h',
    appendStructLoop (RCopy T v) l args0 h = Ret args h' →
    h' = h ∧ ∃ em, args = args0 ++ em ∧ emitted T v l em.
Proof.
  induction l as [|fs l IH]; intros args0 args h h'.
  - intros [= <- <-]. split; [done|]. exists []. rewrite app_nil_r.
    split; [done|constructor].
  - cbn [appendStructLoop]. unfold bind at 1.
    destruct (FieldByIndex (RCopy T v) (fs_index fs) h) as [fv h1| |] eqn:Hf;
      try discriminate.
    destruct (FieldByIndex_copy_inv _ _ _ _ _ _ Hf) as (-> & ft & vi & Ht & Hg & ->).
    unfold bind at 1.
    destruct (Interface_ (RCopy ft vi) h) as [x h1| |] eqn:Hi; try discriminate.
    destruct (Interface_copy_inv _ _ _ _ _ Hi) as (-> & Hx).
    intros Hrest. destruct (IH _ _ _ _ Hrest) as (-> & em & -> & Hem).
    split; [done|].
    exists (Some (TString, VString (fs_name fs)) :: x :: em).
    split; [by rewrite <- app_assoc|]. econstructor; eauto.
Qed.

Lemma AppendStruct_value_inv T ss v args h h' :
  structSpecForType T = Ok ss →
  AppendStruct [] (Some (T, v)) h = Ret (args, None) h' →
  h' = h ∧ emitted T v (ss_l ss) args.
Proof.
  intros Hss. pose proof (structSpecForType_Ok_struct T ss Hss) as Hk.
  unfold AppendStruct. cbn [ValueOf rKind]. rewrite Hk. rewrite (bool_decide_false (KStruct = KPtr)) by done.
  rewrite bool_decide_false by (intros Hne; by apply Hne).
  unfold bind, rType, ret, liftR. rewrite Hss.
  destruct (appendStructLoop (RCopy T v) (ss_l ss) [] h) as [a h1| |] eqn:Hl;
    try discriminate.
  intros [= <- <-].
  by destruct (appendStructLoop_copy_inv _ _ _ _ _ _ _ Hl) as (-> & em & -> & Hem).
Qed.

(** *** No reply reproduces a value in a field of interface type *)

Lemma scanStructValue_interface env ft l p r h :
  Kind ft = KInterface →
  (r = None ∧ scanStructValue env (RPlace ft l p) r h = Ret None h)
  ∨ (∃ e, scanStructValue env (RPlace ft l p) r h = Ret (Some e) h).
Proof.
  intros Hk. destruct r as [[t x]|]; [right|by left].
  unfold scanStructValue.
  assert (Hc : ∀ s, ∃ e,
            (let! err := cannotConvert (RPlace ft l p) s in ret (Some err)) h
            = Ret (Some e) h) by (intros s; by eexists).
  assert (Hb : ∀ b, ∃ e, convertAssignBytes env (RPlace ft l p) b h = Ret (Some e) h).
  { intros b. unfold convertAssignBytes, bind, rType, ret. rewrite Hk. by eexists. }
  assert (Hi : ∀ z, ∃ e, convertAssignInt env (RPlace ft l p) z h = Ret (Some e) h).
  { intros z. unfold convertAssignInt, bind, rType, ret. rewrite Hk. by eexists. }
  destruct t as [| [] | | | | | | [| |[]| | | | | | | | |] | | | |]; try apply Hc; try apply Hb.
  destruct x; try apply Hc; apply Hi.
Qed.

Lemma reproduces_not_interface env ft r v :
  Kind ft = KInterface → ¬ reproduces env ft r v.
Proof.
  intros Hk Hrep.
  assert (Hv : ∀ old, v = old).
  { intros old.
    destruct (Hrep 0%nat [] {[ 0%nat := old ]} old) as (h' & Hrun & Hst);
      [unfold load_at; by rewrite lookup_singleton_eq|].
    destruct (scanStructValue_interface env ft 0%nat [] r {[ 0%nat := old ]} Hk)
      as [[_ Hnone]|[e Herr]]; [|congruence].
    rewrite Hnone in Hrun. injection Hrun as <-.
    apply load_store_eq in Hst. unfold load_at in Hst.
    rewrite lookup_singleton_eq in Hst. simpl in Hst. congruence. }
  pose proof (Hv (VBool true)). pose proof (Hv (VBool false)). congruence.
Qed.

(** *** The scan over the delivered pairs *)

Lemma delivered_even env T ss args src :
  delivered env T ss args src → (length src mod 2 = 0)%nat.
Proof.
  induction 1 as [|name fs ft v r args src _ _ _ _ IH]; [done|].
  change (length (bulk name :: r :: src)) with (S (S (length src))).
  replace (S (S (length src))) with (length src + 1 * 2)%nat by lia.
  by rewrite Nat.Div0.mod_add.
Qed.

Lemma roundtrip_loop env T ss v l :
  structSpecForType T = Ok ss →
  NoDup (fs_name <$> ss_l ss) →
  ∀ l0 args,
    emitted T v l0 args →
    ∀ src h sv,
      (∀ fs, fs ∈ l0 → fs ∈ ss_l ss) →
      delivered env T ss args src →
      h !! l = Some sv →
      (∀ fs, fs ∈ ss_l ss → is_Some (get_path (fs_index fs) sv)) →
      ∃ h' sv',
        scanStructLoop env ss (RPlace T l []) src h = Ret None h'
        ∧ h' !! l = Some sv'
        ∧ (∀ l', l' ≠ l → h' !! l' = h !! l')
        ∧ (∀ fs, fs ∈ l0 → get_path (fs_index fs) sv' = get_path (fs_index fs) v)
        ∧ (∀ fs, fs ∈ ss_l ss →
                 (∀ fs', fs' ∈ l0 → fs_index fs' ≠ fs_index fs) →
                 get_path (fs_index fs) sv' = get_path (fs_index fs) sv).
Proof.
  intros Hss Hnd.
  destruct (structSpecForType_wf T ss Hss) as [Hnamed _].
  induction 1 as [|fs0 l0 ft0 vi0 x args Ht0 Hg0 Hx _ IH];
    intros src h sv Hsub Hdel Hh Hvalid.
  - inversion Hdel; subst. exists h, sv. repeat split; try done.
    intros fs Hin. by apply elem_of_nil in Hin.
  - inversion Hdel as [|name fsm ftm vm r args' src' Hm Htm Hrep Hdel' Ha Hs]; subst.
    assert (Hin0 : fs0 ∈ ss_l ss) by (apply Hsub; by left).
    rewrite (compiled_lookup_of_list T ss fs0 Hss Hnd Hin0) in Hm.
    injection Hm as <-. rewrite Ht0 in Htm. injection Htm as <-.
    destruct Hx as [[Hk Hx]|[Hk _]];
      [|by destruct (reproduces_not_interface env ft0 r vm Hk)].
    injection Hx as <-.
    destruct (Hvalid fs0 Hin0) as [old Hold].
    destruct (Hrep l (fs_index fs0) h old) as (h1 & Hrun & Hst).
    { unfold load_at. by rewrite Hh. }
    unfold bulk.
    rewrite (scanStructLoop_known env ss T l _ r src' h fs0 ft0)
      by (by rewrite ?string_of_bytes_of_string,
               ?(compiled_lookup_of_list T ss fs0 Hss Hnd Hin0)).
    rewrite Hrun.
    (* the struct after the store *)
    unfold store_at in Hst. rewrite Hh in Hst. simpl in Hst.
    destruct (set_path (fs_index fs0) vm sv) as [sv1|] eqn:Hset; [|discriminate].
    simpl in Hst. injection Hst as <-.
    assert (Hother : ∀ fs, fs ∈ ss_l ss → fs_index fs ≠ fs_index fs0 →
                      get_path (fs_index fs) sv1 = get_path (fs_index fs) sv).
    { intros fs Hin Hne.
      destruct (Hnamed fs Hin) as [g Hg]. destruct (Hnamed fs0 Hin0) as [g0 Hg0'].
      eapply get_path_set_path_other; [exact Hset| |].
      - eapply named_paths_incomparable; eauto.
      - eapply named_paths_incomparable; eauto. }
    destruct (IH src' (<[l:=sv1]> h) sv1) as (h' & sv' & Hloop & Hh' & Hfr & Hdone & Hrest).
    { intros fs Hin. apply Hsub. by right. }
    { done. }
    { by rewrite lookup_insert_eq. }
    { intros fs Hin. destruct (decide (fs_index fs = fs_index fs0)) as [->|Hne].
      - rewrite (get_set_path _ _ _ _ Hset). eauto.
      - rewrite (Hother fs Hin Hne). by apply Hvalid. }
    exists h', sv'. split; [done|]. split; [done|]. split; [|split].
    + intros l' Hl'. rewrite Hfr by done. by rewrite lookup_insert_ne.
    + intros fs Hin. apply elem_of_cons in Hin as [->|Hin]; [|by apply Hdone].
      destruct (decide (Exists (fun fs' => fs_index fs' = fs_index fs0) l0))
        as [Hex|Hnex].
      * apply Exists_exists in Hex as (fs' & Hin' & Heq).
        rewrite <- Heq. by apply Hdone.
      * rewrite Hrest; [by rewrite (get_set_path _ _ _ _ Hset)|done|].
        intros fs' Hin' Heq. apply Hnex. apply Exists_exists. eauto.
    + intros fs Hin Hnone. rewrite Hrest.
      * apply Hother; [done|]. intros Heq. eapply (Hnone fs0); [by left|done].
      * done.
      * intros fs' Hin'. apply Hnone. by right.
Qed.

(** The scan of the delivered sequence fills a zeroed instance with the
    fields of [v]. *)
Lemma ScanStruct_of_delivered env T ss v l h args src :
  structSpecForType T = Ok ss →
  NoDup (fs_name <$> ss_l ss) →
  AppendStruct [] (Some (T, v)) h = Ret (args, None) h →
  delivered env T ss args src →
  h !! l = Some (zero T) →
  ∃ h',
    ScanStruct env src (ptrTo T l) h = Ret None h'
    ∧ (∀ fs, fs ∈ ss_l ss →
         is_Some (get_path (fs_index fs) v)
         ∧ load_at l (fs_index fs) h' = get_path (fs_index fs) v)
    ∧ (∀ l', l' ≠ l → h' !! l' = h !! l').
Proof.
  intros Hss Hnd Happ Hdel Hzero.
  destruct (AppendStruct_value_inv T ss v args h h Hss Happ) as [_ Hem].
  destruct (structSpecForType_wf T ss Hss) as [Hnamed _].
  destruct (roundtrip_loop env T ss v l Hss Hnd (ss_l ss) args Hem src h (zero T))
    as (h' & sv' & Hloop & Hh' & Hfr & Hdone & _); try done.
  { intros fs Hin. destruct (Hnamed fs Hin) as [g Hg].
    rewrite (zero_path _ _ _ (namedFieldAt_typeAt _ _ _ Hg)). eauto. }
  exists h'. split; [|split; [|done]].
  - unfold ptrTo. rewrite ScanStruct_pointer, Hss.
    by rewrite bool_decide_false
      by (rewrite (delivered_even env T ss args src Hdel); lia).
  - intros fs Hin. split.
    + clear -Hem Hin. induction Hem as [|fs0 l0 ft0 vi0 x args Ht0 Hg0 Hx _ IH];
        [by apply elem_of_nil in Hin|].
      apply elem_of_cons in Hin as [->|Hin]; eauto.
    + unfold load_at. rewrite Hh'. simpl. by apply Hdone.
Qed.

(** Applied to what [AppendStruct] returns, as it is, [ScanStruct] stops at
    the first key. *)
Lemma ScanStruct_of_emitted env T ss v l h fs l0 args :
  structSpecForType T = Ok ss →
  emitted T v (fs :: l0) args →
  ScanStruct env args (ptrTo T l) h
  = Ret (Some (ErrorsNew "redigo: ScanStruct key not a bulk value")) h.
Proof.
  intros Hss Hem. unfold ptrTo. rewrite ScanStruct_pointer, Hss.
  assert (Heven : ∀ l1 a, emitted T v l1 a → (length a mod 2 = 0)%nat).
  { induction 1 as [|? ? ? ? x a' _ _ _ _ IH]; [done|].
    change (length (_ :: x :: a')) with (S (S (length a'))).
    replace (S (S (length a'))) with (length a' + 1 * 2)%nat by lia.
    by rewrite Nat.Div0.mod_add. }
  rewrite bool_decide_false by (rewrite (Heven _ _ Hem); lia).
  by inversion Hem.
Qed.

(** C3, as the code has it.  Let [args] be what [AppendStruct] builds from a
    struct value [v] of type [T], starting from the empty sequence, and take a
    zeroed instance of [T].  [ScanStruct] of [args] itself fails whenever [T]
    has a compiled field: [AppendStruct] emits names as Go strings and
    [ScanStruct] takes a key only as a bulk string.  But when [args] comes
    back from the server as [src], every name as a bulk string of the same
    bytes and every field value as a reply that reproduces it in a field of
    its type, and no two entries of the compiled list share a name, then
    [ScanStruct] of [src] returns no error and afterwards every compiled field
    (every exported, named field not tagged ["-"] and not removed by a tie)
    holds the value it has in [v]; no other variable is changed. *)
Theorem AppendStruct_then_ScanStruct env T ss v l h args :
  structSpecForType T = Ok ss →
  AppendStruct [] (Some (T, v)) h = Ret (args, None) h →
  h !! l = Some (zero T) →
  (ss_l ss ≠ [] →
     ScanStruct env args (ptrTo T l) h
     = Ret (Some (ErrorsNew "redigo: ScanStruct key not a bulk value")) h)
  ∧ (∀ src,
       NoDup (fs_name <$> ss_l ss) →
       delivered env T ss args src →
       ∃ h',
         ScanStruct env src (ptrTo T l) h = Ret None h'
         ∧ (∀ fs, fs ∈ ss_l ss →
              is_Some (get_path (fs_index fs) v)
              ∧ load_at l (fs_index fs) h' = get_path (fs_index fs) v)
         ∧ (∀ l', l' ≠ l → h' !! l' = h !! l')).
Proof.
  intros Hss Happ Hzero. split.
  - intros Hne.
    destruct (AppendStruct_value_inv T ss v args h h Hss Happ) as [_ Hem].
    destruct (ss_l ss) as [|fs l0]; [done|].
    by eapply ScanStruct_of_emitted.
  - intros src Hnd Hdel. by eapply ScanStruct_of_delivered.
Qed.

(** Replies that reproduce a value: an [Integer] reply for an integer that
    fits the field, a bulk string for a string. *)
Lemma reproduces_integer env ft z :
  isIntegerType ft → fits env ft z → - 2 ^ 63 <= z < 2 ^ 63 →
  reproduces env ft (integer z) (intValue ft z).
Proof.
  intros Hi Hf Hz l p h old Hold. unfold isIntegerType in Hi.
  change (scanStructValue env (RPlace ft l p) (integer z))
    with (convertAssignInt env (RPlace ft l p) z).
  unfold intValue.
  destruct (underlying ft) as [| w | w | | | | | | | | |] eqn:Hu; try done.
  - rewrite (convertAssignInt_signed env ft w l p z h old Hu Hold).
    rewrite bool_decide_true by (by apply (fits_signed env ft w z Hu)).
    destruct (store_at_is_Some l p (VInt z) h old Hold) as [h1 H1].
    rewrite H1. eauto.
  - rewrite (convertAssignInt_unsigned env ft w l p z h old Hu Hold Hz).
    pose proof (proj1 (fits_unsigned env ft w z Hu) Hf) as Hw.
    assert (0 <= z) by (unfold fits in Hf; rewrite Hu in Hf; lia).
    rewrite bool_decide_false, bool_decide_true by (done || lia).
    destruct (store_at_is_Some l p (VUint z) h old Hold) as [h1 H1].
    rewrite H1. eauto.
Qed.

Lemma reproduces_string env ft s :
  underlying ft = TString → reproduces env ft (bulk s) (VString s).
Proof.
  intros Hu l p h old Hold.
  change (scanStructValue env (RPlace ft l p) (bulk s))
    with (convertAssignBytes env (RPlace ft l p) (bytes_of_string s)).
  unfold convertAssignBytes, bind at 1, rType, ret at 1.
  rewrite Kind_underlying, Hu. cbn [Kind].
  unfold bind, SetString, store. cbn [rKind]. rewrite Kind_underlying, Hu. cbn [Kind].
  rewrite string_of_bytes_of_string.
  destruct (store_at_is_Some l p (VString s) h old Hold) as [h1 H1].
  rewrite H1. eauto.
Qed.

Lemma AppendStruct_then_ScanStruct_witness :
  ∃ ss,
    structSpecForType exPoint = Ok ss
    ∧ NoDup (fs_name <$> ss_l ss)
    ∧ AppendStruct [] (Some (exPoint, exPointValue)) onePoint
      = Ret ([Some (TString, VString "X"); Some (TInt Sz8, VInt 5);
              Some (TString, VString "y"); Some (TUint Sz16, VUint 700)], None) onePoint
    ∧ delivered RefEnv.env exPoint ss
        [Some (TString, VString "X"); Some (TInt Sz8, VInt 5);
         Some (TString, VString "y"); Some (TUint Sz16, VUint 700)]
        [bulk "X"; integer 5; bulk "y"; integer 700]
    ∧ onePoint !! 0%nat = Some (zero exPoint)
    ∧ ∃ h', ScanStruct RefEnv.env [bulk "X"; integer 5; bulk "y"; integer 700]
              (ptrTo exPoint 0%nat) onePoint = Ret None h'
            ∧ load_at 0%nat [0%nat] h' = Some (VInt 5)
            ∧ load_at 0%nat [1%nat] h' = Some (VUint 700).
Proof.
  assert (Hall : match structSpecForType exPoint with
                 | Ok ss =>
                     ss_l ss = [ {| fs_name := "X"; fs_index := [0%nat] |};
                                 {| fs_name := "y"; fs_index := [1%nat] |} ]
                     ∧ ss_m ss !! "X" = Some {| fs_name := "X"; fs_index := [0%nat] |}
                     ∧ ss_m ss !! "y" = Some {| fs_name := "y"; fs_index := [1%nat] |}
                 | Panicked _ => False
                 end).
  { vm_compute. repeat split; reflexivity. }
  destruct (structSpecForType exPoint) as [ss|pv] eqn:Hss; [|destruct Hall].
  destruct Hall as (Hl & HX & Hy).
  assert (Hnd : NoDup (fs_name <$> ss_l ss)).
  { rewrite Hl. simpl. repeat constructor; intros Hin.
    - apply list_elem_of_singleton in Hin. discriminate Hin.
    - by apply elem_of_nil in Hin. }
  assert (Happ : AppendStruct [] (Some (exPoint, exPointValue)) onePoint
      = Ret ([Some (TString, VString "X"); Some (TInt Sz8, VInt 5);
              Some (TString, VString "y"); Some (TUint Sz16, VUint 700)], None) onePoint)
    by (vm_compute; reflexivity).
  assert (Hdel : delivered RefEnv.env exPoint ss
        [Some (TString, VString "X"); Some (TInt Sz8, VInt 5);
         Some (TString, VString "y"); Some (TUint Sz16, VUint 700)]
        [bulk "X"; integer 5; bulk "y"; integer 700]).
  { eapply delivered_pair; [exact HX | reflexivity | |].
    - apply (reproduces_integer RefEnv.env (TInt Sz8) 5); [exact I | |];
        (split; [discriminate | reflexivity]).
    - eapply delivered_pair; [exact Hy | reflexivity | | constructor].
      apply (reproduces_integer RefEnv.env (TUint Sz16) 700); [exact I | |];
        (split; [discriminate | reflexivity]). }
  assert (Hz : onePoint !! 0%nat = Some (zero exPoint)) by reflexivity.
  exists ss. split; [reflexivity|]. split; [exact Hnd|]. split; [exact Happ|].
  split; [exact Hdel|]. split; [exact Hz|].
  destruct (proj2 (AppendStruct_then_ScanStruct RefEnv.env exPoint ss
                     exPointValue 0%nat onePoint _ Hss Happ Hz) _ Hnd Hdel)
    as (h' & Hrun & Hfields & _).
  exists h'. split; [exact Hrun|].
  split.
  - apply (Hfields {| fs_name := "X"; fs_index := [0%nat] |}). rewrite Hl. by left.
  - apply (Hfields {| fs_name := "y"; fs_index := [1%nat] |}). rewrite Hl.
    right. by left.
Defined.

(** C3 as stated fails: [AppendStruct] emits every name as a Go string, and
    [ScanStruct] takes a key only as a bulk string, so the scan of the
    flattened sequence stops at the first pair with the error
    ["redigo: ScanStruct key not a bulk value"] and the zeroed instance stays
    zero. *)
Lemma ScanStruct_refuses_AppendStruct_output :
  AppendStruct [] (Some (exPoint, exPointValue)) onePoint
    = Ret ([Some (TString, VString "X"); Some (TInt Sz8, VInt 5);
            Some (TString, VString "y"); Some (TUint Sz16, VUint 700)], None) onePoint
  ∧ ScanStruct RefEnv.env
      [Some (TString, VString "X"); Some (TInt Sz8, VInt 5);
       Some (TString, VString "y"); Some (TUint Sz16, VUint 700)]
      (ptrTo exPoint 0%nat) onePoint
    = Ret (Some (ErrorsNew "redigo: ScanStruct key not a bulk value")) onePoint
  ∧ load_at 0%nat [0%nat] onePoint = Some (VInt 0)
  ∧ get_path [0%nat] exPointValue = Some (VInt 5).
Proof. repeat split; vm_compute; reflexivity. Qed.

(** * Further properties of the code *)

(** ** [Scan]: which variables, which results *)

Section ScanMore.
Context (env : Env).
Implicit Types (src dest : list iface) (h : heap).

(** A scan in which no conversion fills a slice assigns to the variables of
    its destinations; every other variable is left alone. *)
Lemma scanLoop_assigns src dest :
  ∀ i h r h' l,
    scanLoop env src i dest h = Ret r h' →
    noSliceFilled dest (drop i src) →
    (∀ d, d ∈ dest → destLoc d ≠ Some l) →
    h' !! l = h !! l.
Proof.
  induction dest as [|d dest IH]; intros i h r h' l; cbn [scanLoop].
  - by intros [= _ <-].
  - destruct (src !! i) as [s|] eqn:Hs; [|discriminate]. unfold bind at 1.
    destruct (convertAssign env d s h) as [[e|] h1| |] eqn:Hc; try discriminate.
    + intros [= _ <-] Hno Hl.
      eapply assignsP_frame; [apply (convertAssign_assigns env d s)|done|].
      * apply (Hno 0%nat); [done|]. by rewrite lookup_drop, Nat.add_0_r.
      * apply Hl. by left.
    + intros Hrest Hno Hl.
      rewrite (IH _ _ _ _ _ Hrest); [| |intros; apply Hl; by right].
      * eapply assignsP_frame; [apply (convertAssign_assigns env d s)|done|].
        -- apply (Hno 0%nat); [done|]. by rewrite lookup_drop, Nat.add_0_r.
        -- apply Hl. by left.
      * intros j d' s' Hd' Hs'. apply (Hno (S j)); [done|].
        rewrite lookup_drop in Hs' |- *. rewrite <- Hs'. f_equal. lia.
Qed.

Lemma Scan_None_inv src dest h rest h' :
  Scan env src dest h = Ret (rest, None) h' →
  (length dest <= length src)%nat
  ∧ rest = drop (length dest) src
  ∧ succeedInOrder env dest (take (length dest) src) h h'.
Proof.
  unfold Scan. case_bool_decide as Hlt; [discriminate|].
  unfold bind, ret.
  destruct (scanLoop env src 0 dest h) as [err h1| |] eqn:Hloop; try discriminate.
  intros [= <- -> <-]. split; [lia|]. split; [done|].
  destruct (scanLoop_returns_None env _ _ _ _ _ Hloop) as (ss & <- & Hsio).
  by rewrite drop_0 in Hsio.
Qed.

Lemma scanLoop_prefix src d1 d2 h h1 :
  succeedInOrder env d1 (take (length d1) src) h h1 →
  (length d1 <= length src)%nat →
  scanLoop env src 0 (d1 ++ d2) h = scanLoop env src (length d1) d2 h1.
Proof.
  intros Hsio Hlen.
  pose proof (scanLoop_succeed env _ _ _ _ Hsio [] (drop (length d1) src) d2) as Hrun.
  cbn [app length Nat.add] in Hrun. rewrite take_drop, length_take in Hrun.
  rewrite Hrun. f_equal. lia.
Qed.

Lemma Scan_of_succeed src dest h h' :
  (length dest <= length src)%nat →
  succeedInOrder env dest (take (length dest) src) h h' →
  Scan env src dest h = Ret (drop (length dest) src, None) h'.
Proof.
  intros Hlen Hsio. unfold Scan. rewrite bool_decide_false by lia.
  unfold bind. pose proof (scanLoop_prefix src dest [] h h' Hsio Hlen) as Hrun.
  rewrite app_nil_r in Hrun. by rewrite Hrun.
Qed.

Lemma scanLoop_drop dest :
  ∀ src k i h,
    scanLoop env src (k + i) dest h = scanLoop env (drop k src) i dest h.
Proof.
  induction dest as [|d dest IH]; intros src k i h; cbn [scanLoop]; [done|].
  rewrite lookup_drop. destruct (src !! (k + i)%nat) as [s|]; [|done].
  unfold bind. destruct (convertAssign env d s h) as [[e|] h1| |]; try done.
  rewrite <- IH. f_equal. lia.
Qed.

End ScanMore.

(** X1.  [Scan] can change the variables its destinations point to and no
    other: as long as no conversion fills a slice (there the code writes
    into the slice's array, which other variables may share), a variable that
    no destination points to holds after the call, with or without an error,
    what it held before. *)
Theorem Scan_changes_only_destinations env src dest h r h' l :
  Scan env src dest h = Ret r h' →
  noSliceFilled dest src →
  (∀ d, d ∈ dest → destLoc d ≠ Some l) →
  h' !! l = h !! l.
Proof.
  unfold Scan. case_bool_decide; [by intros [= _ <-]|].
  unfold bind, ret.
  destruct (scanLoop env src 0 dest h) as [err h1| |] eqn:Hloop; try discriminate.
  intros [= _ <-] Hno Hl. eapply scanLoop_assigns; [done| |done].
  by rewrite drop_0.
Qed.

Lemma Scan_changes_only_destinations_witness :
  Scan RefEnv.env [bulk "3"; integer 300] [ptrTo (TInt SzWord) 0%nat; ptrTo (TInt Sz8) 1%nat]
    threeBytes
  = Ret ([], Some ErrRange) {[ 0%nat := VInt 3; 1%nat := VInt 0; 2%nat := VInt 0 ]}
  ∧ noSliceFilled [ptrTo (TInt SzWord) 0%nat; ptrTo (TInt Sz8) 1%nat]
      [bulk "3"; integer 300]
  ∧ ({[ 0%nat := VInt 3; 1%nat := VInt 0; 2%nat := VInt 0 ]} : heap) !! 2%nat
    = threeBytes !! 2%nat.
Proof.
  assert (Hrun : Scan RefEnv.env [bulk "3"; integer 300]
                   [ptrTo (TInt SzWord) 0%nat; ptrTo (TInt Sz8) 1%nat] threeBytes
                 = Ret ([], Some ErrRange)
                     {[ 0%nat := VInt 3; 1%nat := VInt 0; 2%nat := VInt 0 ]})
    by (vm_compute; reflexivity).
  assert (Hno : noSliceFilled [ptrTo (TInt SzWord) 0%nat; ptrTo (TInt Sz8) 1%nat]
                  [bulk "3"; integer 300]).
  { intros [|[|i]] d' s' Hd' Hs'; simpl in Hd', Hs'; simplify_eq; reflexivity. }
  split; [exact Hrun|]. split; [exact Hno|].
  apply (Scan_changes_only_destinations RefEnv.env _ _ _ _ _ 2%nat Hrun Hno).
  intros d Hd.
  repeat (apply elem_of_cons in Hd as [->|Hd]; [discriminate|]).
  by apply elem_of_nil in Hd.
Defined.

(** X2.  [Scan] returns without an error exactly when [src] has a value for
    every destination and the conversions into the destinations, taken in
    order, each on the store the one before it left, all return no error; it
    then returns the rest of [src] and the store the last conversion left. *)
Theorem Scan_returns_no_error_iff env src dest h rest h' :
  Scan env src dest h = Ret (rest, None) h'
  ↔ (length dest <= length src)%nat
    ∧ rest = drop (length dest) src
    ∧ succeedInOrder env dest (take (length dest) src) h h'.
Proof.
  split; [apply Scan_None_inv|].
  intros (Hlen & -> & Hsio). by apply Scan_of_succeed.
Qed.

(** X3.  Every error that [Scan] returns is either the short-sequence error,
    returned with a nil remainder and an untouched store, or the error of the
    conversion into one destination [d], met after the conversions into all
    the destinations before [d] returned no error; the remainder is then
    still [src[len(dest):]]. *)
Theorem Scan_error_is_short_or_first_failure env src dest h rest e h' :
  Scan env src dest h = Ret (rest, Some e) h' →
  ((length src < length dest)%nat ∧ rest = []
   ∧ e = ErrorsNew "redigo: Scan multibulk short" ∧ h' = h)
  ∨ ((length dest <= length src)%nat ∧ rest = drop (length dest) src
     ∧ ∃ pre d post s h1,
         dest = pre ++ d :: post
         ∧ succeedInOrder env pre (take (length pre) src) h h1
         ∧ src !! length pre = Some s
         ∧ convertAssign env d s h1 = Ret (Some e) h').
Proof.
  unfold Scan. case_bool_decide as Hlt.
  - intros [= <- <- <-]. by left.
  - unfold bind, ret.
    destruct (scanLoop env src 0 dest h) as [err h1| |] eqn:Hloop; try discriminate.
    intros [= <- -> <-]. right. split; [lia|]. split; [done|].
    destruct (scanLoop_returns_error env _ _ _ _ _ _ Hloop)
      as (pre & d & post & s & h2 & -> & Hpre & Hs & Hd).
    rewrite drop_0 in Hpre. simpl in Hs. eauto 10.
Qed.

Lemma Scan_error_is_short_or_first_failure_witness :
  Scan RefEnv.env [bulk "3"; integer 300] [ptrTo (TInt SzWord) 0%nat; ptrTo (TInt Sz8) 1%nat]
    threeBytes
  = Ret ([], Some ErrRange) {[ 0%nat := VInt 3; 1%nat := VInt 0; 2%nat := VInt 0 ]}
  ∧ (((length [bulk "3"; integer 300]
       < length [ptrTo (TInt SzWord) 0%nat; ptrTo (TInt Sz8) 1%nat])%nat
      ∧ ([] : list iface) = []
      ∧ ErrRange = ErrorsNew "redigo: Scan multibulk short"
      ∧ ({[ 0%nat := VInt 3; 1%nat := VInt 0; 2%nat := VInt 0 ]} : heap) = threeBytes)
     ∨ ((length [ptrTo (TInt SzWord) 0%nat; ptrTo (TInt Sz8) 1%nat]
         <= length [bulk "3"; integer 300])%nat
        ∧ [] = drop (length [ptrTo (TInt SzWord) 0%nat; ptrTo (TInt Sz8) 1%nat])
                 [bulk "3"; integer 300]
        ∧ ∃ pre d post s h1,
            [ptrTo (TInt SzWord) 0%nat; ptrTo (TInt Sz8) 1%nat] = pre ++ d :: post
            ∧ succeedInOrder RefEnv.env pre (take (length pre) [bulk "3"; integer 300])
                threeBytes h1
            ∧ [bulk "3"; integer 300] !! length pre = Some s
            ∧ convertAssign RefEnv.env d s h1
              = Ret (Some ErrRange)
                  {[ 0%nat := VInt 3; 1%nat := VInt 0; 2%nat := VInt 0 ]})).
Proof.
  assert (Hrun : Scan RefEnv.env [bulk "3"; integer 300]
                   [ptrTo (TInt SzWord) 0%nat; ptrTo (TInt Sz8) 1%nat] threeBytes
                 = Ret ([], Some ErrRange)
                     {[ 0%nat := VInt 3; 1%nat := VInt 0; 2%nat := VInt 0 ]})
    by (vm_compute; reflexivity).
  split; [exact Hrun|].
  exact (Scan_error_is_short_or_first_failure RefEnv.env _ _ _ _ _ _ Hrun).
Defined.

(** X4.  [Scan] in a loop: when a call over the destinations [d1] returns no
    error and the remainder [rest], and [rest] has a value for every
    destination of [d2], then scanning [src] into [d1] followed by [d2] is the
    same as scanning [rest] into [d2] in the store the first call left. *)
Theorem Scan_in_a_loop env src d1 d2 h rest h1 :
  Scan env src d1 h = Ret (rest, None) h1 →
  (length d2 <= length rest)%nat →
  Scan env src (d1 ++ d2) h = Scan env rest d2 h1.
Proof.
  intros Hrun Hlen. destruct (Scan_None_inv env _ _ _ _ _ Hrun) as (Hl1 & -> & Hsio).
  rewrite length_drop in Hlen. unfold Scan.
  rewrite !bool_decide_false by (rewrite ?length_app, ?length_drop; lia).
  unfold bind. rewrite (scanLoop_prefix env src d1 d2 h h1 Hsio Hl1).
  rewrite <- (Nat.add_0_r (length d1)), scanLoop_drop.
  rewrite length_app, Nat.add_0_r, <- drop_drop. done.
Qed.

Lemma Scan_in_a_loop_witness :
  Scan RefEnv.env [bulk "3"; bulk "7"; bulk "9"] [ptrTo (TInt SzWord) 0%nat] twoInts
  = Ret ([bulk "7"; bulk "9"], None) {[ 0%nat := VInt 3; 1%nat := VInt 0 ]}
  ∧ (length [ptrTo (TInt SzWord) 1%nat] <= length [bulk "7"; bulk "9"])%nat
  ∧ Scan RefEnv.env [bulk "3"; bulk "7"; bulk "9"]
      ([ptrTo (TInt SzWord) 0%nat] ++ [ptrTo (TInt SzWord) 1%nat]) twoInts
    = Scan RefEnv.env [bulk "7"; bulk "9"] [ptrTo (TInt SzWord) 1%nat]
        {[ 0%nat := VInt 3; 1%nat := VInt 0 ]}.
Proof.
  assert (Hrun : Scan RefEnv.env [bulk "3"; bulk "7"; bulk "9"] [ptrTo (TInt SzWord) 0%nat]
                   twoInts
                 = Ret ([bulk "7"; bulk "9"], None) {[ 0%nat := VInt 3; 1%nat := VInt 0 ]})
    by (vm_compute; reflexivity).
  assert (Hlen : (length [ptrTo (TInt SzWord) 1%nat] <= length [bulk "7"; bulk "9"])%nat)
    by (simpl; lia).
  split; [exact Hrun|]. split; [exact Hlen|].
  exact (Scan_in_a_loop RefEnv.env _ _ _ _ _ _ Hrun Hlen).
Defined.

(** ** [convertAssign]: the type switch and the fall-back *)

Section ConvertMore.
Context (env : Env).
Implicit Types (t : gtype) (l : loc) (h : heap).

Lemma store_at_nil_None l x h : h !! l = None → store_at l [] x h = None.
Proof. intros Hl. unfold store_at. by rewrite Hl. Qed.

Lemma convertAssignInt_int_var l z h :
  convertAssignInt env (RPlace (TInt SzWord) l []) z h =
    match store_at l []
            (VInt (if bool_decide (wrapS (wordBits (intSize env)) z ≠ z) then 0 else z)) h with
    | Some h' =>
        Ret (if bool_decide (wrapS (wordBits (intSize env)) z ≠ z)
             then Some ErrRange else None) h'
    | None => Fault
    end.
Proof.
  destruct (h !! l) as [old|] eqn:Hl.
  - rewrite (convertAssignInt_signed env (TInt SzWord) SzWord l [] z h old eq_refl)
      by (unfold load_at; by rewrite Hl).
    change (isizeBits env SzWord) with (wordBits (intSize env)).
    destruct (decide (wrapS (wordBits (intSize env)) z = z)) as [Hw|Hw].
    + rewrite bool_decide_true, !bool_decide_false by tauto. done.
    + rewrite bool_decide_false, !bool_decide_true by done. done.
  - rewrite (store_at_nil_None _ _ _ Hl).
    unfold convertAssignInt, bind, rType, ret. cbn [Kind].
    rewrite (SetInt_place env (TInt SzWord) SzWord) by done.
    by rewrite (store_at_nil_None _ _ _ Hl).
Qed.

Lemma convertAssign_nil_reply s h :
  isReplyValue s → convertAssign env None s h = Ret None h.
Proof.
  destruct s as [[t v]|]; [|done].
  destruct t as [| [] | | | | | | e | | | |]; try done.
  - destruct v; done.
  - destruct e as [| | [] | | | | | | | | |]; done.
Qed.

Lemma convertAssign_nil_status msg h :
  convertAssign env None (status msg) h
  = Panic (PanicMsg "reflect: call of reflect.Value.Type on zero Value").
Proof. done. Qed.

Lemma scanLoop_nil_skip n :
  ∀ src i h,
    Forall isReplyValue (take n (drop i src)) →
    (i + n <= length src)%nat →
    scanLoop env src i (replicate n None) h = Ret None h.
Proof.
  induction n as [|n IH]; intros src i h Hall Hlen; [done|].
  cbn [replicate scanLoop].
  destruct (src !! i) as [s|] eqn:Hs.
  2:{ apply lookup_ge_None in Hs. lia. }
  rewrite (drop_S _ _ _ Hs) in Hall. cbn [take] in Hall.
  apply Forall_cons in Hall as [Hs1 Hall].
  unfold bind. rewrite (convertAssign_nil_reply s h Hs1).
  apply IH; [done|lia].
Qed.

Lemma scanLoop_nil_status n :
  ∀ src i k msg h,
    (k < n)%nat →
    Forall isReplyValue (take k (drop i src)) →
    src !! (i + k)%nat = Some (status msg) →
    scanLoop env src i (replicate n None) h
    = Panic (PanicMsg "reflect: call of reflect.Value.Type on zero Value").
Proof.
  induction n as [|n IH]; intros src i k msg h Hk Hall Hs; [lia|].
  cbn [replicate scanLoop].
  destruct k as [|k].
  - rewrite Nat.add_0_r in Hs. rewrite Hs. unfold bind.
    by rewrite convertAssign_nil_status.
  - destruct (src !! i) as [s|] eqn:Hsi.
    2:{ apply lookup_ge_None in Hsi. apply lookup_lt_Some in Hs. lia. }
    rewrite (drop_S _ _ _ Hsi) in Hall. cbn [take] in Hall.
    apply Forall_cons in Hall as [Hs1 Hall].
    unfold bind. rewrite (convertAssign_nil_reply s h Hs1).
    apply (IH src (S i) k msg); [lia|done|].
    by replace (S i + k)%nat with (i + S k)%nat by lia.
Qed.

End ConvertMore.

(** X5.  The type switch of [convertAssign] is an optimisation only, for an
    [Integer] reply: for a pointer to a variable of any type but
    [interface{}], the call does exactly what the reflection fall-back
    [convertAssignInt] does on that variable, the [*int] and [*bool] cases of
    the switch included. *)
Theorem convertAssign_integer_fast_path_agrees env t l z h :
  t ≠ TInterface →
  convertAssign env (ptrTo t l) (integer z) h = convertAssignInt env (RPlace t l []) z h.
Proof.
  intros Ht.
  destruct t as [| [] | | | | | | | | | |]; try done.
  (* *bool agrees by computation; *int is left *)
  rewrite convertAssignInt_int_var.
    unfold convertAssign, ptrTo, integer, int64T, bind, ret, assignDeref.
    cbv zeta.
    destruct (decide (wrapS (wordBits (intSize env)) z = z)) as [Hw|Hw].
  - rewrite !bool_decide_false by tauto. rewrite Hw.
    by destruct (store_at l [] (VInt z) h).
  - rewrite !bool_decide_true by done.
    by destruct (store_at l [] (VInt 0) h).
Qed.

Lemma convertAssign_integer_fast_path_agrees_witness :
  TInt SzWord ≠ TInterface
  ∧ convertAssign RefEnv.env (ptrTo (TInt SzWord) 0%nat) (integer (2 ^ 63 - 1)) twoInts
    = convertAssignInt RefEnv.env (RPlace (TInt SzWord) 0%nat []) (2 ^ 63 - 1) twoInts.
Proof.
  assert (Ht : TInt SzWord ≠ TInterface) by discriminate.
  split; [exact Ht|].
  exact (convertAssign_integer_fast_path_agrees RefEnv.env _ 0%nat (2 ^ 63 - 1) twoInts Ht).
Defined.

(** X6.  The type switch of [convertAssign] is an optimisation only, for a
    bulk-string reply too: for a pointer to a variable of any type but
    [interface{}] and [int], the call does exactly what the reflection
    fall-back [convertAssignBytes] does on that variable, the [*string],
    [*bool] and [*[]byte] cases of the switch included.  ([*int] is left out: there the
    switch calls [strconv.Atoi] and the fall-back [strconv.ParseInt].) *)
Theorem convertAssign_bulk_fast_path_agrees env t l b h :
  t ≠ TInterface → t ≠ TInt SzWord →
  convertAssign env (ptrTo t l) (Some (bytesT, b)) h
  = convertAssignBytes env (RPlace t l []) b h.
Proof.
  intros Ht Hi.
  destruct t as [| [] | | | | | | e | | | |]; try done.
  destruct e as [| | [] | | | | | | | | |]; done.
Qed.

Lemma convertAssign_bulk_fast_path_agrees_witness :
  TString ≠ TInterface ∧ TString ≠ TInt SzWord
  ∧ convertAssign RefEnv.env (ptrTo TString 0%nat) (bulk "abc") twoInts
    = convertAssignBytes RefEnv.env (RPlace TString 0%nat []) (bytes_of_string "abc") twoInts.
Proof.
  assert (Ht : TString ≠ TInterface) by discriminate.
  assert (Hi : TString ≠ TInt SzWord) by discriminate.
  split; [exact Ht|]. split; [exact Hi|].
  exact (convertAssign_bulk_fast_path_agrees RefEnv.env _ 0%nat _ twoInts Ht Hi).
Defined.

(** X7.  nil destinations.  When every destination is nil, [Scan] skips the
    values of [src] that stand against them, as long as each is nil, a bulk
    string, an integer or a multi-bulk: it returns the rest of [src] and
    leaves the store alone.  But a simple-string reply (a Go [string]) among
    them makes the call panic: [convertAssign] builds its cannot-convert error
    from [reflect.ValueOf(nil).Type()]. *)
Theorem Scan_nil_destinations env src n h :
  (n <= length src)%nat →
  (Forall isReplyValue (take n src) →
     Scan env src (replicate n None) h = Ret (drop n src, None) h)
  ∧ (∀ k msg,
       (k < n)%nat → Forall isReplyValue (take k src) → src !! k = Some (status msg) →
       Scan env src (replicate n None) h
       = Panic (PanicMsg "reflect: call of reflect.Value.Type on zero Value")).
Proof.
  intros Hlen. unfold Scan. rewrite length_replicate.
  rewrite bool_decide_false by lia. unfold bind. split.
  - intros Hall. by rewrite scanLoop_nil_skip by (rewrite ?drop_0; done).
  - intros k msg Hk Hall Hs.
    by rewrite (scanLoop_nil_status env n src 0 k msg) by (rewrite ?drop_0; done).
Qed.

Lemma Scan_nil_destinations_witness :
  (2 <= length [bulk "a"; integer 5; status "OK"])%nat
  ∧ Scan RefEnv.env [bulk "a"; integer 5; status "OK"] (replicate 2 None) twoInts
    = Ret ([status "OK"], None) twoInts
  ∧ Scan RefEnv.env [bulk "a"; status "OK"; integer 5] (replicate 2 None) twoInts
    = Panic (PanicMsg "reflect: call of reflect.Value.Type on zero Value").
Proof.
  assert (Hlen : (2 <= length [bulk "a"; integer 5; status "OK"])%nat) by (simpl; lia).
  assert (Hlen' : (2 <= length [bulk "a"; status "OK"; integer 5])%nat) by (simpl; lia).
  split; [exact Hlen|]. split.
  - apply (proj1 (Scan_nil_destinations RefEnv.env _ 2%nat twoInts Hlen)).
    repeat constructor.
  - apply (proj2 (Scan_nil_destinations RefEnv.env _ 2%nat twoInts Hlen') 1%nat "OK").
    + lia.
    + repeat constructor.
    + reflexivity.
Defined.

Lemma Kind_ptr_inv t : Kind t = KPtr → ∃ e, underlying t = TPtr e.
Proof.
  induction t as [| [] | [] | | | | | | | | | []]; simpl; try discriminate; eauto.
Qed.

(** X8.  Destinations [convertAssign] cannot write through, for a reply the
    type switch names (a bulk string, an integer or a multi-bulk).  A
    destination that is no pointer gets the cannot-convert error, which names
    the types of the reply and of the destination, and the store is left
    alone; a nil pointer of any pointer type makes the call panic. *)
Theorem convertAssign_bad_destination env s h :
  isReplyValue s → s ≠ None →
  (∀ t v, Kind t ≠ KPtr →
     convertAssign env (Some (t, v)) s h = Ret (Some (CannotConvert (TypeOf s) t)) h)
  ∧ (∀ t, Kind t = KPtr →
       ∃ msg, convertAssign env (Some (t, VPtr None)) s h = Panic (PanicMsg msg)).
Proof.
  intros Hs Hnil.
  assert (Hrefl : ∀ t v conv, Kind t ≠ KPtr →
            convertAssignReflect (Some (t, v)) s conv h
            = Ret (Some (CannotConvert (TypeOf s) t)) h).
  { intros t v conv Hk. unfold convertAssignReflect, bind, rType, ret, cannotConvert. simpl.
    by rewrite bool_decide_true. }
  assert (Hnilp : ∀ t conv, Kind t = KPtr →
            (∀ h, ∃ msg, conv RZero h = Panic (PanicMsg msg)) →
            ∃ msg, convertAssignReflect (Some (t, VPtr None)) s conv h = Panic (PanicMsg msg)).
  { intros t conv Hk Hconv. destruct (Kind_ptr_inv t Hk) as [e He].
    unfold convertAssignReflect, bind, rType, ret, Elem, typeElem, load. simpl.
    rewrite bool_decide_false by tauto. rewrite Hk. unfold bind, ret. rewrite He.
    apply Hconv. }
  destruct s as [[ts vs]|]; [|done].
  destruct ts as [| [] | | | | | | es | | | |]; try done.
  - destruct vs; try done. split.
    + intros t v Hk. destruct t as [| | | | | | | | e | | |]; try (by apply Hrefl).
      by destruct Hk.
    + intros t Hk. destruct t as [| | | | | | | | e | | |]; try (apply Hnilp; [done|by eexists]).
      destruct e as [| [] | | | | | | | | | |]; try (apply Hnilp; [done|by eexists]);
        try (by eexists).
      unfold convertAssign. cbv zeta. case_bool_decide; by eexists.
  - destruct es as [| | [] | | | | | | | | |]; try done.
    + split.
      * intros t v Hk. destruct t as [| | | | | | | | e | | |]; try (by apply Hrefl).
        by destruct Hk.
      * intros t Hk. destruct t as [| | | | | | | | e | | |];
          try (apply Hnilp; [done|by eexists]).
        destruct e as [| [] | | | | | | e' | | | |]; try (apply Hnilp; [done|by eexists]);
          try (by eexists).
        -- unfold convertAssign. destruct (ParseBool env _). by eexists.
        -- unfold convertAssign. destruct (Atoi env _). by eexists.
        -- destruct e' as [| | [] | | | | | | | | |]; try (apply Hnilp; [done|by eexists]);
             by eexists.
    + split.
      * intros t v Hk. destruct t as [| | | | | | | | e | | |]; try (by apply Hrefl).
        by destruct Hk.
      * intros t Hk. destruct t as [| | | | | | | | e | | |];
          try (apply Hnilp; [done|by eexists]).
        destruct e as [| | | | | | | e' | | | |]; try (apply Hnilp; [done|by eexists]);
          try by eexists.
        destruct e' as [| | | | | | | | | | |]; try (apply Hnilp; [done|by eexists]);
          by eexists.
Qed.

Lemma convertAssign_bad_destination_witness :
  isReplyValue (integer 5) ∧ integer 5 ≠ None
  ∧ convertAssign RefEnv.env (Some (TInt SzWord, VInt 0)) (integer 5) twoInts
    = Ret (Some (CannotConvert (Some int64T) (TInt SzWord))) twoInts
  ∧ ∃ msg, convertAssign RefEnv.env (Some (TPtr TString, VPtr None)) (integer 5) twoInts
           = Panic (PanicMsg msg).
Proof.
  assert (Hs : isReplyValue (integer 5)) by exact I.
  assert (Hn : integer 5 ≠ None) by discriminate.
  split; [exact Hs|]. split; [exact Hn|].
  destruct (convertAssign_bad_destination RefEnv.env (integer 5) twoInts Hs Hn) as [H1 H2].
  split.
  - apply (H1 (TInt SzWord) (VInt 0)). discriminate.
  - apply (H2 (TPtr TString)). reflexivity.
Defined.

Lemma underlying_not_named t n u : underlying t ≠ TNamed n u.
Proof. induction t; simpl; done. Qed.

(** X9.  An [Integer] reply converts into integer and boolean variables
    only.  For a variable of any other kind (a string or a float among them)
    [convertAssignInt] returns the cannot-convert error and leaves the store
    alone, and so do the struct scan, for a field of that type, and
    [convertAssign], for a pointer to such a variable ([*interface{}] apart,
    which takes the reply as it is). *)
Theorem convertAssignInt_refuses_non_integer env t l p z h :
  isIntKind (Kind t) = false → isUintKind (Kind t) = false → Kind t ≠ KBool →
  convertAssignInt env (RPlace t l p) z h = Ret (Some (CannotConvert (Some int64T) t)) h
  ∧ scanStructValue env (RPlace t l p) (integer z) h
    = Ret (Some (CannotConvert (Some int64T) t)) h
  ∧ (t ≠ TInterface →
     convertAssign env (ptrTo t l) (integer z) h
     = Ret (Some (CannotConvert (Some int64T) t)) h).
Proof.
  intros Hi Hu Hb.
  assert (Hc : ∀ p, convertAssignInt env (RPlace t l p) z h
               = Ret (Some (CannotConvert (Some int64T) t)) h).
  { intros q. unfold convertAssignInt, bind, rType, ret, cannotConvert.
    destruct (Kind t); try done. }
  split; [apply Hc|]. split; [apply Hc|].
  intros Ht. rewrite <- (Hc []).
  destruct t as [| [] | | | | | | | | | |]; done.
Qed.

Lemma convertAssignInt_refuses_non_integer_witness :
  isIntKind (Kind TString) = false ∧ isUintKind (Kind TString) = false
  ∧ Kind TString ≠ KBool
  ∧ convertAssign RefEnv.env (ptrTo TString 0%nat) (integer 5) {[ 0%nat := VString "x" ]}
    = Ret (Some (CannotConvert (Some int64T) TString)) {[ 0%nat := VString "x" ]}.
Proof.
  assert (Hi : isIntKind (Kind TString) = false) by reflexivity.
  assert (Hu : isUintKind (Kind TString) = false) by reflexivity.
  assert (Hb : Kind TString ≠ KBool) by discriminate.
  split; [exact Hi|]. split; [exact Hu|]. split; [exact Hb|].
  apply (proj2 (proj2 (convertAssignInt_refuses_non_integer RefEnv.env TString 0%nat [] 5
                         {[ 0%nat := VString "x" ]} Hi Hu Hb))).
  discriminate.
Defined.

(** X10.  A bulk-string reply converts into numbers, booleans, strings and
    byte slices only.  For a variable of any other kind (a struct, a pointer,
    a map, an interface, a slice whose elements are no bytes)
    [convertAssignBytes] returns the cannot-convert error and leaves the store
    alone, and so do the struct scan and [convertAssign] ([*interface{}]
    apart). *)
Theorem convertAssignBytes_refuses_other_kinds env t l p b h :
  isScalarKind (Kind t) = false →
  (∀ e, underlying t = TSlice e → Kind e ≠ KUint8) →
  convertAssignBytes env (RPlace t l p) b h = Ret (Some (CannotConvert (Some bytesT) t)) h
  ∧ scanStructValue env (RPlace t l p) (Some (bytesT, b)) h
    = Ret (Some (CannotConvert (Some bytesT) t)) h
  ∧ (t ≠ TInterface →
     convertAssign env (ptrTo t l) (Some (bytesT, b)) h
     = Ret (Some (CannotConvert (Some bytesT) t)) h).
Proof.
  intros Hs He.
  assert (Hc : ∀ p, convertAssignBytes env (RPlace t l p) b h
               = Ret (Some (CannotConvert (Some bytesT) t)) h).
  { intros q. unfold convertAssignBytes, bind, rType, ret, cannotConvert.
    destruct (Kind t) eqn:Hk; try done.
    unfold typeElem. rewrite Kind_underlying in Hk.
    destruct (underlying t) as [| [] | [] | | | | | e | | | n u | []] eqn:Hut; try done.
    - unfold ret. by rewrite bool_decide_true by (by apply He).
    - by destruct (underlying_not_named t n u). }
  split; [apply Hc|]. split; [apply Hc|].
  intros Ht. rewrite <- (Hc []).
  destruct t as [| [] | | | | | | e | | | |]; try done.
  destruct e as [| | [] | | | | | | | | |]; done.
Qed.

Lemma convertAssignBytes_refuses_other_kinds_witness :
  isScalarKind (Kind (TSlice TString)) = false
  ∧ (∀ e, underlying (TSlice TString) = TSlice e → Kind e ≠ KUint8)
  ∧ convertAssign RefEnv.env (ptrTo (TSlice TString) 0%nat) (bulk "abc")
      {[ 0%nat := VSlice [] 0 ]}
    = Ret (Some (CannotConvert (Some bytesT) (TSlice TString))) {[ 0%nat := VSlice [] 0 ]}.
Proof.
  assert (Hs : isScalarKind (Kind (TSlice TString)) = false) by reflexivity.
  assert (He : ∀ e, underlying (TSlice TString) = TSlice e → Kind e ≠ KUint8)
    by (intros e [= <-]; discriminate).
  split; [exact Hs|]. split; [exact He|].
  apply (proj2 (proj2 (convertAssignBytes_refuses_other_kinds RefEnv.env (TSlice TString)
                         0%nat [] (bytes_of_string "abc") {[ 0%nat := VSlice [] 0 ]} Hs He))).
  discriminate.
Defined.

(** ** The struct-spec compiler: names, order, tags *)

Lemma Split_nonempty s sep : Split s sep ≠ [].
Proof.
  induction s as [|c s IH]; simpl; [done|].
  destruct (Ascii.eqb c sep); [done|]. by destruct (Split s sep).
Qed.

Lemma Split_singleton s sep p :
  Split s sep = [p] → p = s ∧ sep ∉ chars s.
Proof.
  revert p. induction s as [|c s IH]; intros p; simpl.
  - intros [= <-]. split; [done|]. apply not_elem_of_nil.
  - destruct (Ascii.eqb_spec c sep) as [->|Hne].
    + intros [= _ H]. by destruct (Split_nonempty s sep).
    + destruct (Split s sep) as [|q qs] eqn:Hs; [by destruct (Split_nonempty s sep)|].
      intros [= <- ->]. destruct (IH q eq_refl) as [-> Hnot]. split; [done|].
      by apply not_elem_of_cons.
Qed.

Lemma Split_sep name sep rest :
  sep ∉ chars name →
  Split (name +:+ String sep rest) sep = name :: Split rest sep.
Proof.
  induction name as [|c name IH]; simpl; intros Hnot.
  - by rewrite Ascii.eqb_refl.
  - apply not_elem_of_cons in Hnot as [Hc Hnot].
    destruct (Ascii.eqb_spec c sep) as [->|_]; [done|].
    by rewrite IH.
Qed.

Lemma resolveTag_TagName tn f n :
  resolveTag tn f = TagName n →
  Tag f ≠ "-" ∧ (comma ∉ chars (Tag f))
  ∧ n = (if decide (Tag f = "") then Name f else Tag f).
Proof.
  unfold resolveTag. fold comma.
  destruct (Split (Tag f) comma) as [|p0 rest] eqn:Hs; [by destruct (Split_nonempty (Tag f) ",")|].
  destruct (String.eqb_spec p0 "-") as [|Hne]; [discriminate|].
  destruct rest; [|discriminate]. intros [= <-].
  destruct (Split_singleton _ _ _ Hs) as [-> Hnot].
  split; [done|]. split; [done|].
  destruct (decide (Tag f = "")) as [->|Hne']; [done|].
  by destruct (Tag f).
Qed.

Lemma resolveTag_flag tn f name flags :
  Tag f = name +:+ String comma flags →
  (","%char) ∉ String.list_ascii_of_string name → name ≠ "-" →
  ∃ e, resolveTag tn f = TagPanic e.
Proof.
  intros Ht Hnot Hne. unfold resolveTag. fold comma. rewrite Ht, Split_sep by done.
  destruct (String.eqb_spec name "-") as [|_]; [done|].
  destruct (Split flags comma) as [|s rest] eqn:Hs; [by destruct (Split_nonempty flags ",")|].
  eauto.
Qed.

Lemma candidatesOfFields_field tname index fields :
  Forall (fun f => ∀ tname index cs,
            candidatesAt tname (Type_ f) index = Ok cs →
            ∀ c, c ∈ cs → fieldOf (Type_ f) c index)
         fields →
  ∀ fs i cs,
    fs = drop i fields →
    candidatesOfFields candidatesAt tname index fs i = Ok cs →
    ∀ c, c ∈ cs → fieldOf (TStruct fields) c index.
Proof.
  intros HF fs. induction fs as [|f fs IH]; intros i cs Hfs; simpl.
  - intros [= <-] c Hc. by apply elem_of_nil in Hc.
  - assert (Hi : fields !! i = Some f).
    { rewrite <- (Nat.add_0_r i), <- lookup_drop, <- Hfs. done. }
    assert (Hfs' : fs = drop (S i) fields).
    { apply (f_equal (drop 1)) in Hfs. simpl in Hfs. rewrite drop_0 in Hfs.
      by rewrite Hfs, drop_drop, Nat.add_1_r. }
    destruct (String.eqb_spec (PkgPath f) "") as [Hpk|_]; simpl; [|by apply IH].
    destruct (Anonymous f) eqn:Hanon.
    + case_bool_decide as Hk; [|by apply IH].
      destruct (candidatesAt (TypeName (Type_ f)) (Type_ f) (index ++ [i]))
        as [cs1|] eqn:Hc1; [|discriminate].
      destruct (candidatesOfFields candidatesAt tname index fs (S i))
        as [cs2|] eqn:Hc2; [|discriminate].
      intros [= <-] c Hc. apply elem_of_app in Hc as [Hc|Hc]; [|by eapply IH].
      rewrite Forall_forall in HF.
      destruct (HF f (list_elem_of_lookup_2 _ _ _ Hi) _ _ _ Hc1 c Hc)
        as (rel & g & tn & Hrel & Hg & Hpg & Htag).
      exists (i :: rel), g, tn. rewrite Hrel, <- app_assoc. split; [done|].
      split; [|done].
      simpl. rewrite Hi. simpl. rewrite Hanon.
      destruct (rel ++ [c_i c]) eqn:Hnil; [by destruct rel|done].
    + destruct (resolveTag tname f) as [|e|name] eqn:Htag; [by apply IH|discriminate|].
      destruct (candidatesOfFields candidatesAt tname index fs (S i))
        as [cs2|] eqn:Hc2; [|discriminate].
      intros [= <-] c Hc. apply elem_of_cons in Hc as [->|Hc]; [|by eapply IH].
      exists [], f, tname. simpl. rewrite app_nil_r, Hi. simpl. by rewrite Hanon.
Qed.

Lemma candidatesAt_field t :
  ∀ tname index cs,
    candidatesAt tname t index = Ok cs →
    ∀ c, c ∈ cs → fieldOf t c index.
Proof.
  induction t as [| | | | | | | | | fs IHfs | n u IHu |] using gtype_ind_fields;
    intros tname index cs; simpl; try discriminate.
  - intros Hcs. by eapply (candidatesOfFields_field tname index fs IHfs fs 0%nat).
  - intros Hcs c Hc. destruct (IHu _ _ _ Hcs c Hc) as (rel & g & tn & Hrel & Hg & Hrest).
    exists rel, g, tn. split; [done|]. split; [|done].
    rewrite <- namedFieldAt_underlying in Hg |- *. done.
Qed.

(** The entries of the list of a compiled spec are entries of candidates. *)
Lemma structSpecForType_entries t ss cs :
  structSpecForType t = Ok ss → candidates t = Ok cs →
  ∀ fs, fs ∈ ss_l ss → ∃ c, c ∈ cs ∧ fs = entry c.
Proof.
  unfold structSpecForType, compileStructSpec, candidates.
  rewrite compileAt_candidates. intros Hss Hcs. rewrite Hcs in Hss.
  pose proof (specFrom_foldl cs [] (∅, {| ss_m := ∅; ss_l := [] |})) as Hinv.
  destruct (foldl enterCandidate _ cs) as [depth ss'].
  injection Hss as <-. apply Hinv. split; simpl.
  - intros fs Hin. by apply elem_of_nil in Hin.
  - intros n. exact (lookup_empty n).
Qed.

Lemma structSpecForType_Ok_candidates t ss :
  structSpecForType t = Ok ss → ∃ cs, candidates t = Ok cs.
Proof.
  unfold structSpecForType, compileStructSpec, candidates.
  rewrite compileAt_candidates.
  destruct (candidatesAt (TypeName t) t []) as [cs|]; [eauto|discriminate].
Qed.

(** X11.  Every entry of a compiled spec, in the list that [AppendStruct]
    walks as in the mapping that [ScanStruct] looks names up in, stands for a
    declared field that is exported and not embedded, reached through
    embedded fields; its tag is not ["-"] and has no flag, and the entry's
    name is the tag when there is one and the Go field name otherwise.  So
    no unexported field and no field tagged ["-"] is ever read or written. *)
Theorem compiled_entries_are_exported_named_fields t ss :
  structSpecForType t = Ok ss →
  (∀ fs, fs ∈ ss_l ss →
     ∃ g, namedFieldAt t (fs_index fs) = Some g
          ∧ PkgPath g = "" ∧ Anonymous g = false
          ∧ Tag g ≠ "-" ∧ (comma ∉ chars (Tag g))
          ∧ fs_name fs = (if decide (Tag g = "") then Name g else Tag g))
  ∧ (∀ n fs, ss_m ss !! n = Some fs → fs ∈ ss_l ss ∧ fs_name fs = n).
Proof.
  intros Hss. split.
  - intros fs Hin. destruct (structSpecForType_Ok_candidates t ss Hss) as [cs Hcs].
    destruct (structSpecForType_entries t ss cs Hss Hcs fs Hin) as (c & Hc & ->).
    destruct (candidatesAt_field t _ _ _ Hcs c Hc) as (rel & g & tn & Hrel & Hg & Hpk & Htag).
    simpl in Hrel. exists g. unfold entry. cbn [fs_index fs_name]. rewrite Hrel.
    split; [done|]. split; [done|].
    destruct (resolveTag_TagName _ _ _ Htag) as (H1 & H2 & H3).
    split; [|done].
    clear -Hg. revert t Hg. generalize (rel ++ [c_i c]) as path.
    induction path as [|i rest IH]; intros t; simpl; [discriminate|].
    destruct (underlying t) as [| | | | | | | | | fs | |]; try discriminate.
    destruct (fs !! i) as [x|]; simpl; [|discriminate].
    destruct rest as [|j rest].
    + destruct (Anonymous x) eqn:Hx; [discriminate|]. by intros [= <-].
    + destruct (Anonymous x); [|discriminate]. apply IH.
  - intros n fs Hn. destruct (structSpecForType_lookup t ss n fs Hss Hn) as (? & ? & _).
    done.
Qed.

Lemma compiled_entries_are_exported_named_fields_witness :
  ∃ ss, structSpecForType exPoint = Ok ss
        ∧ ∀ fs, fs ∈ ss_l ss →
            ∃ g, namedFieldAt exPoint (fs_index fs) = Some g
                 ∧ PkgPath g = "" ∧ Anonymous g = false
                 ∧ Tag g ≠ "-" ∧ (comma ∉ chars (Tag g))
                 ∧ fs_name fs = (if decide (Tag g = "") then Name g else Tag g).
Proof.
  destruct (structSpecForType exPoint) as [ss|v] eqn:Hss.
  - exists ss. split; [reflexivity|].
    exact (proj1 (compiled_entries_are_exported_named_fields exPoint ss Hss)).
  - vm_compute in Hss. discriminate Hss.
Defined.

(** X12.  Over the fields the traversal meets, the compiler is a left fold:
    [structSpecForType] returns what the per-field step [enterField], applied
    to the candidates in traversal order from empty maps, leaves, and it
    panics exactly when the traversal does (on a tag with a flag, or on a
    type that is no struct), with the same value. *)
Theorem structSpecForType_is_traversal_then_fold t :
  structSpecForType t =
    match candidates t with
    | Ok cs => Ok (foldl enterCandidate (∅, {| ss_m := ∅; ss_l := [] |}) cs).2
    | Panicked v => Panicked v
    end.
Proof.
  unfold structSpecForType, compileStructSpec, candidates.
  rewrite compileAt_candidates.
  destruct (candidatesAt (TypeName t) t []) as [cs|v]; [|done].
  by destruct (foldl enterCandidate _ cs).
Qed.

(** X13.  The list and the mapping of a compiled spec hold the same names:
    every name [ScanStruct] accepts is a name [AppendStruct] emits, and the
    other way round.  Where the list holds several entries of one name, the
    mapping holds the last of them. *)
Theorem compiled_list_and_mapping_names t ss :
  structSpecForType t = Ok ss →
  (∀ n, is_Some (ss_m ss !! n) ↔ n ∈ fs_name <$> ss_l ss)
  ∧ (∀ n fs, ss_m ss !! n = Some fs → fs ∈ ss_l ss ∧ fs_name fs = n)
  ∧ (∀ n, ss_m ss !! n = last (filter (fun x => fs_name x = n) (ss_l ss))).
Proof.
  intros Hss. destruct (structSpecForType_wf t ss Hss) as [_ Hm].
  split; [|split; [|done]].
  - intros n. rewrite Hm. split.
    + intros [fs Hfs]. apply last_filter_elem in Hfs as [Hin <-].
      apply list_elem_of_fmap. eauto.
    + intros Hin. apply list_elem_of_fmap in Hin as (fs & -> & Hin).
      apply last_is_Some. by eapply filter_nonempty.
  - intros n fs Hn. rewrite Hm in Hn. by apply last_filter_elem in Hn.
Qed.

Lemma compiled_list_and_mapping_names_witness :
  ∃ ss, structSpecForType exShadow = Ok ss
        ∧ (is_Some (ss_m ss !! "A") ↔ "A" ∈ fs_name <$> ss_l ss)
        ∧ ss_m ss !! "A" = last (filter (fun x => fs_name x = "A") (ss_l ss)).
Proof.
  destruct (structSpecForType exShadow) as [ss|v] eqn:Hss.
  - exists ss. split; [reflexivity|].
    destruct (compiled_list_and_mapping_names exShadow ss Hss) as (H1 & _ & H3).
    split; [exact (H1 "A") | exact (H3 "A")].
  - vm_compute in Hss. discriminate Hss.
Defined.

Lemma foldl_enterCandidate_sublist cs :
  ∀ cs0 st,
    ss_l st.2 `sublist_of` entry <$> cs0 →
    ss_l (foldl enterCandidate st cs).2 `sublist_of` entry <$> (cs0 ++ cs).
Proof.
  induction cs as [|c cs IH]; intros cs0 [depth ss] Hinv; simpl.
  - by rewrite app_nil_r.
  - replace (cs0 ++ c :: cs) with ((cs0 ++ [c]) ++ cs) by (by rewrite <- app_assoc).
    apply IH. rewrite fmap_app. simpl in Hinv |- *.
    unfold enterCandidate, enterField. simpl fst; simpl snd.
    destruct (_ =? _); [|destruct (_ <? _)]; simpl.
    + rewrite removeNamed_filter. apply sublist_inserts_r.
      etrans; [apply sublist_filter|done].
    + by apply sublist_app.
    + by apply sublist_inserts_r.
Qed.

(** X14.  The list of a compiled spec runs in declaration order: it is a
    subsequence of the entries of the candidates in the order the traversal
    meets them (fields in declaration order, an embedded struct's fields in
    the place of the embedded field).  [AppendStruct] emits in that order. *)
Theorem compiled_list_in_declaration_order t cs ss :
  candidates t = Ok cs →
  structSpecForType t = Ok ss →
  ss_l ss `sublist_of` entry <$> cs.
Proof.
  unfold structSpecForType, compileStructSpec, candidates.
  rewrite compileAt_candidates. intros Hcs Hss. rewrite Hcs in Hss.
  pose proof (foldl_enterCandidate_sublist cs [] (∅, {| ss_m := ∅; ss_l := [] |})) as Hinv.
  destruct (foldl enterCandidate _ cs) as [depth ss'].
  injection Hss as <-. by apply Hinv.
Qed.

Lemma compiled_list_in_declaration_order_witness :
  ∃ ss, candidates exOuter = Ok exOuterCandidates
        ∧ structSpecForType exOuter = Ok ss
        ∧ ss_l ss `sublist_of` entry <$> exOuterCandidates.
Proof.
  assert (Hcs : candidates exOuter = Ok exOuterCandidates) by reflexivity.
  destruct (structSpecForType exOuter) as [ss|v] eqn:Hss.
  - exists ss. split; [exact Hcs|]. split; [reflexivity|].
    exact (compiled_list_in_declaration_order exOuter _ ss Hcs Hss).
  - vm_compute in Hss. discriminate Hss.
Defined.

Lemma minDepth_fresh n cs :
  (∀ c, c ∈ cs → c_name c ≠ n) → minDepth n cs = None.
Proof.
  induction cs as [|c cs IH] using rev_ind; intros Hall; [done|].
  rewrite minDepth_snoc, bool_decide_false.
  - apply IH. intros c' Hc'. apply Hall. apply elem_of_app. by left.
  - apply Hall. apply elem_of_app. right. by apply list_elem_of_singleton.
Qed.

Lemma foldl_enterCandidate_distinct cs :
  NoDup (c_name <$> cs) → depthsBounded cs →
  compiledFrom cs (foldl enterCandidate (∅, {| ss_m := ∅; ss_l := [] |}) cs)
  ∧ ss_l (foldl enterCandidate (∅, {| ss_m := ∅; ss_l := [] |}) cs).2 = entry <$> cs.
Proof.
  induction cs as [|c cs IH] using rev_ind; intros Hnd Hb.
  - split; [exact compiledFrom_empty|done].
  - rewrite fmap_app in Hnd. apply NoDup_app in Hnd as (Hnd & Hfresh & _).
    destruct IH as [Hinv Hl]; [done|intros c' Hc'; apply Hb, elem_of_app; by left|].
    assert (Hbc : Z.of_nat (c_depth c) < Z.shiftl 1 30).
    { apply Hb. apply elem_of_app. right. by apply list_elem_of_singleton. }
    rewrite foldl_snoc. split; [by apply compiledFrom_step|].
    destruct (foldl enterCandidate _ cs) as [depth ss]. simpl in Hl.
    destruct Hinv as (Hd & _ & _). simpl in Hd.
    unfold enterCandidate, enterField. simpl fst; simpl snd.
    rewrite Hd, minDepth_fresh.
    2:{ intros c' Hc' Heq. apply (Hfresh (c_name c)).
        - apply list_elem_of_fmap. eauto.
        - simpl. by left. }
    simpl. fold (c_depth c).
    rewrite (proj2 (Z.eqb_neq _ _)) by lia.
    rewrite (proj2 (Z.ltb_lt _ _)) by lia.
    simpl. by rewrite Hl, fmap_app.
Qed.

(** X15.  A struct type in which no two fields met by the traversal resolve
    to the same name compiles to all of them: the list holds one entry for
    every such field, in declaration order, and the mapping holds each under
    its name.  (No field nested [1 << 30] deep, the compiler's sentinel.) *)
Theorem compiled_spec_of_distinct_names t cs :
  candidates t = Ok cs →
  NoDup (c_name <$> cs) →
  depthsBounded cs →
  ∃ ss, structSpecForType t = Ok ss
        ∧ ss_l ss = entry <$> cs
        ∧ (∀ c, c ∈ cs → ss_m ss !! c_name c = Some (entry c))
        ∧ (∀ n, n ∉ c_name <$> cs → ss_m ss !! n = None).
Proof.
  intros Hcs Hnd Hb.
  destruct (foldl_enterCandidate_distinct cs Hnd Hb) as [Hinv Hl].
  unfold structSpecForType, compileStructSpec. rewrite compileAt_candidates.
  unfold candidates in Hcs. rewrite Hcs.
  destruct (foldl enterCandidate _ cs) as [depth ss]. simpl in Hl.
  destruct Hinv as (_ & Hm & _). simpl in Hm.
  exists ss. split; [done|]. split; [done|]. split.
  - intros c Hc. rewrite Hm. apply list_elem_of_lookup in Hc as [i Hi].
    apply (resolve_shallowest _ cs i c Hi eq_refl).
    intros j c' Hj Hc' Hname. exfalso. apply Hj.
    eapply (NoDup_lookup (c_name <$> cs)); [done| |].
    + by rewrite list_lookup_fmap, Hc'.
    + by rewrite list_lookup_fmap, Hi, Hname.
  - intros n Hn. rewrite Hm. unfold resolve, shallowest.
    rewrite minDepth_fresh; [done|].
    intros c Hc Heq. apply Hn. apply list_elem_of_fmap. eauto.
Qed.

Lemma compiled_spec_of_distinct_names_witness :
  candidates exPoint = Ok [mkCandidate "X" [] 0; mkCandidate "y" [] 1]
  ∧ NoDup (c_name <$> [mkCandidate "X" [] 0; mkCandidate "y" [] 1])
  ∧ depthsBounded [mkCandidate "X" [] 0; mkCandidate "y" [] 1]
  ∧ ∃ ss, structSpecForType exPoint = Ok ss
          ∧ ss_l ss = [ {| fs_name := "X"; fs_index := [0%nat] |};
                        {| fs_name := "y"; fs_index := [1%nat] |} ].
Proof.
  assert (Hcs : candidates exPoint = Ok [mkCandidate "X" [] 0; mkCandidate "y" [] 1])
    by reflexivity.
  assert (Hnd : NoDup (c_name <$> [mkCandidate "X" [] 0; mkCandidate "y" [] 1])).
  { simpl. repeat constructor; intros Hin.
    - apply list_elem_of_singleton in Hin. discriminate Hin.
    - by apply elem_of_nil in Hin. }
  assert (Hb : depthsBounded [mkCandidate "X" [] 0; mkCandidate "y" [] 1]).
  { intros c Hc. repeat (apply elem_of_cons in Hc as [->|Hc]; [reflexivity|]).
    by apply elem_of_nil in Hc. }
  split; [exact Hcs|]. split; [exact Hnd|]. split; [exact Hb|].
  destruct (compiled_spec_of_distinct_names exPoint _ Hcs Hnd Hb) as (ss & Hss & Hl & _).
  exists ss. split; [exact Hss | exact Hl].
Defined.

(** X16.  The equal-depth case of [compileStructSpec]: when the name of the
    field is recorded at the depth of the struct being walked, the depth map
    stays, the name leaves the mapping, and the in-place loop over [ss.l]
    (read index [i], write index [j], cut at [j]) leaves exactly the entries
    of other names, in their order. *)
Theorem enterField_at_equal_depth name index i depth ss :
  depth !! name = Some (Z.of_nat (length index)) →
  enterField name index i depth ss
  = (depth, {| ss_m := delete name (ss_m ss);
               ss_l := filter (fun x => fs_name x ≠ name) (ss_l ss) |}).
Proof.
  intros Hd. unfold enterField. rewrite Hd, Z.eqb_refl.
  by rewrite removeNamed_filter.
Qed.

Lemma enterField_at_equal_depth_witness :
  let ss := {| ss_m := {[ "B" := {| fs_name := "B"; fs_index := [0%nat; 1%nat] |} ]};
               ss_l := [ {| fs_name := "A"; fs_index := [0%nat; 0%nat] |};
                         {| fs_name := "B"; fs_index := [0%nat; 1%nat] |};
                         {| fs_name := "C"; fs_index := [0%nat; 2%nat] |} ] |} in
  ({[ "B" := 1 ]} : gmap string Z) !! "B" = Some (Z.of_nat (length [1%nat]))
  ∧ ss_l (enterField "B" [1%nat] 0 {[ "B" := 1 ]} ss).2
    = [ {| fs_name := "A"; fs_index := [0%nat; 0%nat] |};
        {| fs_name := "C"; fs_index := [0%nat; 2%nat] |} ].
Proof.
  intros ss.
  assert (Hd : ({[ "B" := 1 ]} : gmap string Z) !! "B" = Some (Z.of_nat (length [1%nat])))
    by reflexivity.
  split; [exact Hd|].
  rewrite (enterField_at_equal_depth "B" [1%nat] 0%nat {[ "B" := 1 ]} ss Hd).
  reflexivity.
Defined.

Lemma compileFields_flag compile tname index fs :
  ∀ i depth ss f k,
    fs !! k = Some f → PkgPath f = "" → Anonymous f = false →
    (∃ e, resolveTag tname f = TagPanic e) →
    ∃ v, compileFields compile tname index fs i depth ss = Panicked v.
Proof.
  induction fs as [|a fs IH]; intros i depth ss f k Hk Hpk Han [e He]; [done|].
  destruct k as [|k]; simpl in Hk.
  - injection Hk as ->. simpl. rewrite Hpk, Han, He. simpl. eauto.
  - simpl. destruct (negb (String.eqb (PkgPath a) "")); [by eapply IH; eauto|].
    destruct (Anonymous a).
    + case_bool_decide; [|by eapply IH; eauto].
      destruct (compile _ _ _ _ _) as [[d' s']|v]; [by eapply IH; eauto|eauto].
    + destruct (resolveTag tname a) as [|e'|n]; [by eapply IH; eauto|eauto|].
      destruct (enterField n index i depth ss) as [d' s']. by eapply IH; eauto.
Qed.

Lemma compileAt_underlying t :
  ∀ tn depth index ss,
    compileAt tn t depth index ss = compileAt tn (underlying t) depth index ss.
Proof. induction t; intros; simpl; auto. Qed.

(** X17.  A flag in a tag is fatal.  When a struct type declares an exported,
    named field whose [redis] tag has a comma after a name other than ["-"]
    (as in [`redis:"title,omitempty"`]), compiling its spec panics, and so
    every [ScanStruct] into a variable of the type and every [AppendStruct]
    and [FlattenStruct] of a value of the type panics, whatever the replies
    or the value. *)
Theorem tag_with_flag_panics env T fields i f name flags :
  underlying T = TStruct fields → fields !! i = Some f →
  PkgPath f = "" → Anonymous f = false →
  Tag f = name +:+ String comma flags → comma ∉ chars name → name ≠ "-" →
  ∃ v, structSpecForType T = Panicked v
       ∧ (∀ src l h, ScanStruct env src (ptrTo T l) h = Panic v)
       ∧ (∀ args val h, AppendStruct args (Some (T, val)) h = Panic v)
       ∧ (∀ args val h, FlattenStruct args (Some (T, val)) h = Panic v).
Proof.
  intros Hu Hi Hpk Han Htag Hnot Hne.
  destruct (compileFields_flag compileAt (TypeName T) [] fields 0%nat ∅
              {| ss_m := ∅; ss_l := [] |} f i Hi Hpk Han
              (resolveTag_flag _ _ _ _ Htag Hnot Hne)) as [v Hv].
  assert (Hss : structSpecForType T = Panicked v).
  { unfold structSpecForType, compileStructSpec.
    rewrite compileAt_underlying, Hu. simpl. by rewrite Hv. }
  assert (Happ : ∀ args val h, AppendStruct args (Some (T, val)) h = Panic v).
  { intros args val h. unfold AppendStruct. cbn [ValueOf rKind].
    rewrite (Kind_struct _ _ Hu).
    rewrite (bool_decide_false (KStruct = KPtr)) by done.
    rewrite bool_decide_false by (intros Hk; by apply Hk).
    unfold bind, rType, ret, liftR. by rewrite Hss. }
  exists v. split; [done|]. split; [|split; [done|]].
  - intros src l h. unfold ptrTo. by rewrite ScanStruct_pointer, Hss.
  - intros args val h. unfold FlattenStruct, bind. by rewrite Happ.
Qed.

Lemma tag_with_flag_panics_witness :
  ∃ v, structSpecForType exItem = Panicked v
       ∧ ScanStruct RefEnv.env [bulk "title"; bulk "x"] (ptrTo exItem 0%nat)
           {[ 0%nat := zero exItem ]} = Panic v
       ∧ AppendStruct [] (Some (exItem, VStruct [VString "x"])) ∅ = Panic v
       ∧ v = PanicErr (ErrorsNew "redigo: unknown field flag omitempty for type Item").
Proof.
  destruct (tag_with_flag_panics RefEnv.env exItem
              [mkField "Title" "" false TString "title,omitempty"] 0%nat
              (mkField "Title" "" false TString "title,omitempty") "title" "omitempty")
    as (v & Hss & Hscan & Happ & _); try reflexivity.
  - intros Hin. unfold chars in Hin. simpl in Hin.
    repeat (apply elem_of_cons in Hin as [Hin|Hin]; [discriminate Hin|]).
    by apply elem_of_nil in Hin.
  - discriminate.
  - exists v. split; [exact Hss|]. split; [apply Hscan|]. split; [apply Happ|].
    vm_compute in Hss. by injection Hss as <-.
Defined.

(** ** [ScanStruct]: panics, fields, concatenation *)

Lemma Kind_inv t :
  match Kind t with
  | KBool => underlying t = TBool
  | KInt => underlying t = TInt SzWord
  | KInt8 => underlying t = TInt Sz8
  | KInt16 => underlying t = TInt Sz16
  | KInt32 => underlying t = TInt Sz32
  | KInt64 => underlying t = TInt Sz64
  | KUint => underlying t = TUint SzWord
  | KUint8 => underlying t = TUint Sz8
  | KUint16 => underlying t = TUint Sz16
  | KUint32 => underlying t = TUint Sz32
  | KUint64 => underlying t = TUint Sz64
  | KFloat32 => underlying t = TFloat32
  | KFloat64 => underlying t = TFloat64
  | KString => underlying t = TString
  | KSlice => ∃ e, underlying t = TSlice e
  | KPtr => ∃ e, underlying t = TPtr e
  | KStruct => ∃ fs, underlying t = TStruct fs
  | _ => True
  end.
Proof.
  induction t as [| [] | [] | | | | | | | | | []]; simpl; eauto.
Qed.

Section PlaceOutcome.
Context (env : Env).
Implicit Types (t : gtype) (l : loc) (p : list nat) (h : heap).

Lemma po_ret {A} l p (P : A → Prop) a : P a → placeOutcome l p P (ret a).
Proof. intros HP h. simpl. auto. Qed.

Lemma po_Fault {A} l p (P : A → Prop) : placeOutcome l p P (fun _ => Fault).
Proof. by intros h. Qed.

Lemma po_bind {A B} l p (P : A → Prop) (Q : B → Prop) (c : M A) (k : A → M B) :
  placeOutcome l p P c →
  (∀ a, P a → placeOutcome l p Q (k a)) →
  placeOutcome l p Q (bind c k).
Proof.
  intros Hc Hk h. unfold bind. specialize (Hc h).
  destruct (c h) as [a h1| |]; [|done|done].
  destruct Hc as [HP Hh1]. specialize (Hk a HP h1).
  destruct (k a h1) as [b h2| |]; [|done|done].
  destruct Hk as [HQ Hh2]. split; [done|].
  destruct Hh1 as [->|[x Hx]]; [done|]. right.
  destruct Hh2 as [->|[y Hy]]; [eauto|].
  exists y. by rewrite <- (store_store _ _ _ _ _ _ Hx).
Qed.

Lemma po_weaken {A} l p (P Q : A → Prop) (c : M A) :
  placeOutcome l p P c → (∀ a, P a → Q a) → placeOutcome l p Q c.
Proof.
  intros Hc HPQ h. specialize (Hc h). destruct (c h); try done.
  destruct Hc. auto.
Qed.

Lemma po_rType t l0 p0 l p :
  placeOutcome l p (fun a => a = t) (rType (RPlace t l0 p0)).
Proof. intros h. simpl. auto. Qed.

Lemma po_store t l p x : placeOutcome l p (fun _ => True) (store (RPlace t l p) x).
Proof.
  intros h. unfold store. destruct (store_at l p x h) as [h'|] eqn:Hs; [|done].
  split; [done|]. eauto.
Qed.

Lemma po_load t l p : placeOutcome l p (fun _ => True) (load (RPlace t l p)).
Proof. intros h. unfold load. destruct (load_at l p h); [|done]. auto. Qed.

Lemma po_cannotConvert t l p s :
  placeOutcome l p (fun _ => True) (cannotConvert (RPlace t l p) s).
Proof. intros h. simpl. auto. Qed.

Lemma po_SetInt t w l p x :
  underlying t = TInt w → placeOutcome l p (fun _ => True) (SetInt env (RPlace t l p) x).
Proof.
  intros Hu h. rewrite (SetInt_place env t w) by done.
  destruct (store_at l p _ h) eqn:Hs; [|done]. split; [done|]. eauto.
Qed.

Lemma po_GetInt t w l p :
  underlying t = TInt w → placeOutcome l p (fun _ => True) (GetInt (RPlace t l p)).
Proof.
  intros Hu h. rewrite (GetInt_place t w) by done.
  destruct (load_at l p h) as [[]|]; try done. auto.
Qed.

Lemma po_SetUint t w l p x :
  underlying t = TUint w → placeOutcome l p (fun _ => True) (SetUint env (RPlace t l p) x).
Proof.
  intros Hu h. rewrite (SetUint_place env t w) by done.
  destruct (store_at l p _ h) eqn:Hs; [|done]. split; [done|]. eauto.
Qed.

Lemma po_GetUint t w l p :
  underlying t = TUint w → placeOutcome l p (fun _ => True) (GetUint (RPlace t l p)).
Proof.
  intros Hu h. rewrite (GetUint_place t w) by done.
  destruct (load_at l p h) as [[]|]; try done. auto.
Qed.

Lemma po_Bits t l p :
  (∃ w, underlying t = TInt w) ∨ (∃ w, underlying t = TUint w)
  ∨ underlying t = TFloat32 ∨ underlying t = TFloat64 →
  placeOutcome l p (fun _ => True) (Bits env t).
Proof.
  intros Hu h. unfold Bits.
  destruct Hu as [[w ->]|[[w ->]|[->| ->]]]; simpl; auto.
Qed.

Lemma po_convertAssignInt t l p z :
  placeOutcome l p (fun _ => True) (convertAssignInt env (RPlace t l p) z).
Proof.
  unfold convertAssignInt. eapply po_bind; [apply po_rType|].
  intros ? ->. pose proof (Kind_inv t) as Hk.
  assert (Hi : ∀ w, underlying t = TInt w →
    placeOutcome l p (fun _ => True)
      (do! SetInt env (RPlace t l p) z in
       let! x := GetInt (RPlace t l p) in
       if bool_decide (x ≠ z) then do! SetInt env (RPlace t l p) 0 in ret (Some ErrRange)
       else ret None)).
  { intros w Hu. eapply po_bind; [by eapply po_SetInt|]. intros _ _.
    eapply po_bind; [by eapply po_GetInt|]. intros x _.
    case_bool_decide; [|by apply po_ret].
    eapply po_bind; [by eapply po_SetInt|]. intros _ _. by apply po_ret. }
  assert (Hu : ∀ w, underlying t = TUint w →
    placeOutcome l p (fun _ => True)
      (if bool_decide (z < 0) then ret (Some ErrRange)
       else
         let x := wrapU 64 z in
         do! SetUint env (RPlace t l p) x in
         let! y := GetUint (RPlace t l p) in
         if bool_decide (y ≠ x) then do! SetUint env (RPlace t l p) 0 in ret (Some ErrRange)
         else ret None)).
  { intros w Hu. case_bool_decide; [by apply po_ret|]. cbv zeta.
    eapply po_bind; [by eapply po_SetUint|]. intros _ _.
    eapply po_bind; [by eapply po_GetUint|]. intros x _.
    case_bool_decide; [|by apply po_ret].
    eapply po_bind; [by eapply po_SetUint|]. intros _ _. by apply po_ret. }
  destruct (Kind t) eqn:HK; try (by eapply Hi); try (by eapply Hu);
    try (eapply po_bind; [apply po_cannotConvert|]; intros; by apply po_ret).
  eapply po_bind; [|intros; by apply po_ret].
  unfold SetBool. cbn [rKind]. rewrite HK. apply po_store.
Qed.

Lemma po_convertAssignBytes t l p b :
  placeOutcome l p (fun _ => True) (convertAssignBytes env (RPlace t l p) b).
Proof.
  unfold convertAssignBytes. eapply po_bind; [apply po_rType|].
  intros ? ->. pose proof (Kind_inv t) as Hk.
  assert (Hf : underlying t = TFloat32 ∨ underlying t = TFloat64 →
    placeOutcome l p (fun _ => True)
      (let! b0 := Bits env t in
       let '(x, err) := ParseFloat env (string_of_bytes b) b0 in
       do! SetFloat env (RPlace t l p) x in ret err)).
  { intros Hu. eapply po_bind; [apply po_Bits; tauto|]. intros b0 _.
    destruct (ParseFloat env _ b0) as [x err].
    eapply po_bind; [|intros; by apply po_ret].
    unfold SetFloat. cbn [rKind]. rewrite Kind_underlying.
    destruct Hu as [-> | ->]; apply po_store. }
  assert (Hi : ∀ w, underlying t = TInt w →
    placeOutcome l p (fun _ => True)
      (let! b0 := Bits env t in
       let '(x, err) := ParseInt env (string_of_bytes b) 10 b0 in
       do! SetInt env (RPlace t l p) x in ret err)).
  { intros w Hu. eapply po_bind; [apply po_Bits; eauto|]. intros b0 _.
    destruct (ParseInt env _ 10 b0) as [x err].
    eapply po_bind; [by eapply po_SetInt|]. intros; by apply po_ret. }
  assert (Hu : ∀ w, underlying t = TUint w →
    placeOutcome l p (fun _ => True)
      (let! b0 := Bits env t in
       let '(x, err) := ParseUint env (string_of_bytes b) 10 b0 in
       do! SetUint env (RPlace t l p) x in ret err)).
  { intros w Hu. eapply po_bind; [apply po_Bits; eauto|]. intros b0 _.
    destruct (ParseUint env _ 10 b0) as [x err].
    eapply po_bind; [by eapply po_SetUint|]. intros; by apply po_ret. }
  destruct (Kind t) eqn:HK; try (by eapply Hi); try (by eapply Hu);
    try (apply Hf; tauto);
    try (eapply po_bind; [apply po_cannotConvert|]; intros; by apply po_ret).
  - destruct (ParseBool env _) as [x err].
    eapply po_bind; [|intros; by apply po_ret].
    unfold SetBool. cbn [rKind]. rewrite HK. apply po_store.
  - destruct Hk as [e He].
    eapply (po_bind _ _ (fun a => a = e)).
    { intros h. unfold typeElem. rewrite He. simpl. auto. }
    intros ? ->. case_bool_decide as Hke.
    + eapply po_bind; [apply po_cannotConvert|]. intros; by apply po_ret.
    + eapply po_bind; [|intros; by apply po_ret].
      unfold SetBytes. cbn [rKind]. rewrite HK.
      eapply po_bind; [apply po_rType|]. intros ? ->.
      eapply (po_bind _ _ (fun a => a = e)).
      { intros h. unfold typeElem. rewrite He. simpl. auto. }
      intros ? ->.
      rewrite bool_decide_true
        by (destruct (decide (Kind e = KUint8)); [done|by destruct Hke]).
      apply po_store.
  - eapply po_bind; [|intros; by apply po_ret].
    unfold SetString. cbn [rKind]. rewrite HK. apply po_store.
Qed.

Lemma po_scanStructValue t l p s :
  placeOutcome l p (fun _ => True) (scanStructValue env (RPlace t l p) s).
Proof.
  assert (Hc : placeOutcome l p (fun _ => True)
                 (let! err := cannotConvert (RPlace t l p) s in ret (Some err))).
  { eapply po_bind; [apply po_cannotConvert|]. intros; by apply po_ret. }
  unfold scanStructValue.
  destruct s as [[ts vs]|]; [|by apply po_ret].
  destruct ts as [| [] | | | | | | es | | | |]; try exact Hc.
  - destruct vs; try exact Hc. apply po_convertAssignInt.
  - destruct es as [| | [] | | | | | | | | |]; try exact Hc. apply po_convertAssignBytes.
Qed.

End PlaceOutcome.

Lemma pairs_ind {A} (P : list A → Prop) :
  P [] → (∀ x y l, P l → P (x :: y :: l)) →
  ∀ l, (length l mod 2 = 0)%nat → P l.
Proof.
  intros Hnil Hstep l.
  assert (H : ∀ n (l : list A), (length l <= n)%nat → (length l mod 2 = 0)%nat → P l).
  { clear l. induction n as [|n IH]; intros [|x [|y l]] Hn Hev; cbn [length] in *;
      try done; try lia.
    apply Hstep. apply IH; [lia|].
    replace (S (S (length l))) with (length l + 1 * 2)%nat in Hev by lia.
    by rewrite Nat.Div0.mod_add in Hev. }
  by apply (H (length l)).
Qed.

Lemma even_app_inv {A} (a b : list A) :
  (length a mod 2 = 0)%nat →
  (length (a ++ b) mod 2)%nat = (length b mod 2)%nat.
Proof.
  intros Ha. rewrite length_app, Nat.Div0.add_mod, Ha, Nat.add_0_l.
  by rewrite Nat.Div0.mod_mod.
Qed.

Lemma load_store_other l p q x h h' :
  store_at l p x h = Some h' →
  ¬ p `prefix_of` q → ¬ q `prefix_of` p →
  load_at l q h' = load_at l q h.
Proof.
  unfold store_at, load_at. destruct (h !! l) as [v|]; simpl; [|discriminate].
  destruct (set_path p x v) as [v'|] eqn:Hs; simpl; [|discriminate].
  intros [= <-] Hpq Hqp. rewrite lookup_insert_eq. simpl.
  by eapply get_path_set_path_other.
Qed.

Lemma onlyMapped_refl ss l h : onlyMappedFieldsChange ss l h h.
Proof. by split. Qed.

Lemma onlyMapped_trans ss l h1 h2 h3 :
  onlyMappedFieldsChange ss l h1 h2 → onlyMappedFieldsChange ss l h2 h3 →
  onlyMappedFieldsChange ss l h1 h3.
Proof.
  intros [Ha Hb] [Hc Hd]. split.
  - intros l' Hl'. by rewrite Hc, Ha.
  - intros q Hq. by rewrite Hd, Hb.
Qed.

Lemma onlyMapped_store ss l n fs h h' :
  ss_m ss !! n = Some fs →
  (h' = h ∨ ∃ x, store_at l (fs_index fs) x h = Some h') →
  onlyMappedFieldsChange ss l h h'.
Proof.
  intros Hn [->|[x Hx]]; [apply onlyMapped_refl|]. split.
  - intros l' Hl'. eapply store_at_other; eauto.
  - intros q Hq. destruct (Hq n fs Hn). by eapply load_store_other.
Qed.

Section ScanStructMore.
Context (env : Env).
Implicit Types (T : gtype) (ss : structSpec) (l : loc) (h : heap).

Lemma scanStructLoop_outcome T ss l :
  structSpecForType T = Ok ss →
  ∀ src, (length src mod 2 = 0)%nat →
  ∀ h, match scanStructLoop env ss (RPlace T l []) src h with
       | Ret _ h' => onlyMappedFieldsChange ss l h h'
       | Panic _ => False
       | Fault => True
       end.
Proof.
  intros Hss.
  apply (pairs_ind (fun src => ∀ h,
           match scanStructLoop env ss (RPlace T l []) src h with
           | Ret _ h' => onlyMappedFieldsChange ss l h h'
           | Panic _ => False
           | Fault => True
           end)).
  - intros h. apply onlyMapped_refl.
  - intros key s rest IH.
    assert (Hbad : ∀ h,
      match ret (Some (ErrorsNew "redigo: ScanStruct key not a bulk value")) h with
      | Ret _ h' => onlyMappedFieldsChange ss l h h'
      | Panic _ => False
      | Fault => True
      end) by (intros h; apply onlyMapped_refl).
    intros h.
    destruct key as [[tk name]|]; [|apply Hbad].
    destruct tk as [| | | | | | | e | | | |]; try apply Hbad.
    destruct e as [| | [] | | | | | | | | |]; try apply Hbad.
    destruct (ss_m ss !! string_of_bytes name) as [fs|] eqn:Hk.
    + destruct (compiled_field_type T ss _ fs Hss Hk) as [ft Hft].
      change (TSlice (TUint Sz8)) with bytesT.
      rewrite (scanStructLoop_known env ss T l name s rest h fs ft Hk Hft).
      pose proof (po_scanStructValue env ft l (fs_index fs) s h) as Hpo.
      destruct (scanStructValue env (RPlace ft l (fs_index fs)) s h)
        as [[e|] h1| |]; try done.
      * destruct Hpo as [_ Hh1]. by eapply onlyMapped_store.
      * destruct Hpo as [_ Hh1]. specialize (IH h1).
        destruct (scanStructLoop env ss (RPlace T l []) rest h1); try done.
        eapply onlyMapped_trans; [|done]. by eapply onlyMapped_store.
    + change (TSlice (TUint Sz8)) with bytesT.
      rewrite scanStructLoop_unknown by done. apply IH.
Qed.

Lemma scanStructLoop_app ss d b :
  ∀ a, (length a mod 2 = 0)%nat →
  ∀ h, scanStructLoop env ss d (a ++ b) h =
       match scanStructLoop env ss d a h with
       | Ret None h1 => scanStructLoop env ss d b h1
       | r => r
       end.
Proof.
  apply (pairs_ind (fun a => ∀ h,
           scanStructLoop env ss d (a ++ b) h =
           match scanStructLoop env ss d a h with
           | Ret None h1 => scanStructLoop env ss d b h1
           | r => r
           end)).
  - done.
  - intros key s rest IH h.
    change ((key :: s :: rest) ++ b) with (key :: s :: (rest ++ b)).
    cbn [scanStructLoop].
    destruct key as [[tk name]|]; [|done].
    destruct tk as [| | | | | | | e | | | |]; try done.
    destruct e as [| | [] | | | | | | | | |]; try done.
    destruct (fieldSpecOf ss name) as [fs|]; [|apply IH].
    unfold bind.
    destruct (FieldByIndex d (fs_index fs) h) as [f h1| |]; try done.
    destruct (scanStructValue env f s h1) as [[e|] h2| |]; try done.
Qed.

(** What [ScanStruct] does with a destination before it looks at [src]:
    either the outcome is fixed (an error, a panic), or the destination is a
    pointer to a variable whose type compiles, and the call checks the length
    of [src] and runs the loop. *)
Lemma ScanStruct_cases dest :
  (∃ f : heap → outcome (option error),
     (∀ src h, ScanStruct env src dest h = f h) ∧ (∀ h h', f h ≠ Ret None h'))
  ∨ (∃ T l ss,
       structSpecForType T = Ok ss
       ∧ ∀ src h, ScanStruct env src dest h =
           if bool_decide (length src mod 2 ≠ 0)%nat
           then Ret (Some (ErrorsNew
                  "redigo: ScanStruct expects even number of values in values")) h
           else scanStructLoop env ss (RPlace T l []) src h).
Proof.
  destruct dest as [[t v]|].
  2:{ left. eexists (fun h => Ret _ h). split; [by intros src h|done]. }
  destruct (decide (Kind t = KPtr)) as [Hk|Hk].
  2:{ left. eexists (fun h => Ret _ h).
      split; [intros src h; unfold ScanStruct; simpl; by rewrite bool_decide_true|done]. }
  pose proof (Kind_inv t) as Hinv. rewrite Hk in Hinv. destruct Hinv as [e He].
  assert (Hhead : ∀ src h, ScanStruct env src (Some (t, v)) h =
            match v with
            | VPtr None =>
                Ret (Some (ErrorsNew "redigo: ScanStruct value must be non-nil pointer")) h
            | VPtr (Some l) =>
                match structSpecForType e with
                | Ok ss =>
                    if bool_decide (length src mod 2 ≠ 0)%nat
                    then Ret (Some (ErrorsNew
                           "redigo: ScanStruct expects even number of values in values")) h
                    else scanStructLoop env ss (RPlace e l []) src h
                | Panicked pv => Panic pv
                end
            | _ => Fault
            end).
  { intros src h. unfold ScanStruct. cbn [ValueOf rKind].
    rewrite bool_decide_false by tauto.
    generalize (length src mod 2)%nat as m. intros m.
    unfold IsNil, Elem. cbn [rKind]. rewrite Hk.
    unfold bind, load, rType, ret, liftR, typeElem.
    destruct v as [| | | | | | |[l|]| |]; try done; cbn beta iota; rewrite He;
      unfold ret; simpl.
    destruct (structSpecForType e); [|done]. by case_bool_decide. }
  destruct v as [| | | | | | |[l|]| |];
    try (left; eexists (fun h => Fault); split; [by intros; rewrite Hhead|done]).
  - destruct (structSpecForType e) as [ss|pv] eqn:Hss.
    + right. exists e, l, ss. split; [done|]. intros src h. by rewrite Hhead.
    + left. eexists (fun h => Panic pv). split; [by intros; rewrite Hhead|done].
  - left. eexists (fun h => Ret _ h). split; [by intros; rewrite Hhead|done].
Qed.

End ScanStructMore.

(** X18.  On a non-nil pointer, [ScanStruct] panics exactly when compiling
    the spec of the pointed-to type panics, and with the same value: whatever
    the replies are and whatever the fields' types, neither the look-up of a
    field by its index path nor a conversion through [reflect] panics. *)
Theorem ScanStruct_panics_exactly_when_compiling_does env src T l h v :
  ScanStruct env src (ptrTo T l) h = Panic v ↔ structSpecForType T = Panicked v.
Proof.
  unfold ptrTo. rewrite ScanStruct_pointer.
  destruct (structSpecForType T) as [ss|pv] eqn:Hss.
  - split; [|discriminate]. case_bool_decide as Hev; [discriminate|].
    pose proof (scanStructLoop_outcome env T ss l Hss src) as Hout.
    intros Hp. exfalso.
    assert (Hev' : (length src mod 2 = 0)%nat)
      by lia.
    specialize (Hout Hev' h). by rewrite Hp in Hout.
  - split; by intros [= ->].
Qed.

(** X19.  [ScanStruct] writes the fields its mapping names and nothing else:
    when a call on a pointer to the struct variable [l] returns, with or
    without an error, every other variable holds what it held, and so does
    every part of [l] outside the mapped fields; in particular every declared
    field, reached through embedded fields, that is not the field of a
    mapping entry: an unexported field, a field tagged ["-"], a field
    shadowed by a shallower one or removed by a tie. *)
Theorem ScanStruct_changes_only_mapped_fields env src T ss l h r h' :
  structSpecForType T = Ok ss →
  ScanStruct env src (ptrTo T l) h = Ret r h' →
  onlyMappedFieldsChange ss l h h'
  ∧ (∀ q g, namedFieldAt T q = Some g →
            (∀ n fs, ss_m ss !! n = Some fs → fs_index fs ≠ q) →
            load_at l q h' = load_at l q h).
Proof.
  intros Hss. unfold ptrTo. rewrite ScanStruct_pointer, Hss. intros Hrun.
  assert (Hchg : onlyMappedFieldsChange ss l h h').
  { revert Hrun. case_bool_decide as Hev.
    - intros [= _ <-]. apply onlyMapped_refl.
    - assert (Hev' : (length src mod 2 = 0)%nat)
        by lia.
      intros Hrun. pose proof (scanStructLoop_outcome env T ss l Hss src Hev' h) as Hout.
      by rewrite Hrun in Hout. }
  split; [done|]. intros q g Hq Hnone. apply Hchg. intros n fs Hn.
  destruct (structSpecForType_lookup T ss n fs Hss Hn) as (_ & _ & g' & Hg').
  split; eapply named_paths_incomparable; eauto.
  intros Heq. by eapply Hnone.
Qed.

Lemma ScanStruct_changes_only_mapped_fields_witness :
  let h : heap := {[ 0%nat := exPointValue; 1%nat := VInt 1 ]} in
  ∃ ss h',
    structSpecForType exPoint = Ok ss
    ∧ ScanStruct RefEnv.env [bulk "X"; integer 6; bulk "Hidden"; integer 7; bulk "y"; bulk "z"]
        (ptrTo exPoint 0%nat) h
      = Ret (Some (NumError "ParseUint" "z" ErrSyntax)) h'
    ∧ load_at 0%nat [0%nat] h' = Some (VInt 6)
    ∧ load_at 0%nat [2%nat] h' = load_at 0%nat [2%nat] h
    ∧ h' !! 1%nat = h !! 1%nat.
Proof.
  intros h.
  assert (Hall : match structSpecForType exPoint with
                 | Ok ss => ss_l ss = [ {| fs_name := "X"; fs_index := [0%nat] |};
                                        {| fs_name := "y"; fs_index := [1%nat] |} ]
                 | Panicked _ => False
                 end).
  { vm_compute. reflexivity. }
  destruct (structSpecForType exPoint) as [ss|pv] eqn:Hss; [|destruct Hall].
  assert (Hnot : ∀ n fs, ss_m ss !! n = Some fs → fs_index fs ≠ [2%nat]).
  { intros n fs Hn.
    destruct (structSpecForType_lookup exPoint ss n fs Hss Hn) as (Hin & _ & _).
    rewrite Hall in Hin.
    repeat (apply elem_of_cons in Hin as [->|Hin]; [discriminate|]).
    by apply elem_of_nil in Hin. }
  destruct (ScanStruct RefEnv.env
              [bulk "X"; integer 6; bulk "Hidden"; integer 7; bulk "y"; bulk "z"]
              (ptrTo exPoint 0%nat) h) as [r h'| |] eqn:Hrun.
  - exists ss, h'. split; [reflexivity|].
    destruct (ScanStruct_changes_only_mapped_fields RefEnv.env _ exPoint ss 0%nat h r h'
                Hss Hrun) as [[Hother _] Hfield].
    assert (Hr : r = Some (NumError "ParseUint" "z" ErrSyntax)
                 ∧ load_at 0%nat [0%nat] h' = Some (VInt 6)).
    { vm_compute in Hrun. injection Hrun as <- <-. split; reflexivity. }
    destruct Hr as [-> HX6].
    split; [reflexivity|]. split; [exact HX6|]. split.
    + apply (Hfield [2%nat] (mkField "Hidden" "" false (TInt SzWord) "-")); [reflexivity|].
      exact Hnot.
    + apply Hother. discriminate.
  - vm_compute in Hrun. discriminate Hrun.
  - vm_compute in Hrun. discriminate Hrun.
Defined.

(** X20.  Scanning two replies one after the other is scanning their
    concatenation: for sequences [a] and [b] of even length, [ScanStruct] of
    [a ++ b] is [ScanStruct] of [a] followed, when that returns no error, by
    [ScanStruct] of [b] in the store it left; an error, a panic or a fault of
    the first is the outcome of the whole, and the fields set before an error
    stay set. *)
Theorem ScanStruct_of_concatenation env a b dest h :
  (length a mod 2 = 0)%nat → (length b mod 2 = 0)%nat →
  ScanStruct env (a ++ b) dest h =
    match ScanStruct env a dest h with
    | Ret None h1 => ScanStruct env b dest h1
    | r => r
    end.
Proof.
  intros Ha Hb.
  destruct (ScanStruct_cases env dest) as [(f & Hf & Hnot)|(T & l & ss & Hss & Hrun)].
  - rewrite !Hf. pose proof (Hnot h) as Hn.
    destruct (f h) as [[e|] h1| |]; try done. by destruct (Hn h1).
  - rewrite Hrun, (Hrun a).
    rewrite !bool_decide_false by (rewrite ?even_app_inv by done; lia).
    rewrite scanStructLoop_app by done.
    destruct (scanStructLoop env ss (RPlace T l []) a h) as [[e|] h1| |]; try done.
    rewrite Hrun. by rewrite bool_decide_false by lia.
Qed.

Lemma ScanStruct_of_concatenation_witness :
  (length [bulk "X"; integer 6] mod 2 = 0)%nat
  ∧ (length [bulk "X"; integer 7] mod 2 = 0)%nat
  ∧ ScanStruct RefEnv.env ([bulk "X"; integer 6] ++ [bulk "X"; integer 7])
      (ptrTo exPoint 0%nat) onePoint
    = Ret None {[ 0%nat := VStruct [VInt 7; VUint 0; VInt 0] ]}.
Proof.
  assert (Ha : (length [bulk "X"; integer 6] mod 2 = 0)%nat) by reflexivity.
  assert (Hb : (length [bulk "X"; integer 7] mod 2 = 0)%nat) by reflexivity.
  split; [exact Ha|]. split; [exact Hb|].
  rewrite (ScanStruct_of_concatenation RefEnv.env _ _ (ptrTo exPoint 0%nat) onePoint Ha Hb).
  vm_compute. reflexivity.
Defined.

(** ** [AppendStruct] and [FlattenStruct] *)

Section ReadOnly.
Implicit Types (d : rvalue) (h : heap).

Lemma ro_ret {A} (a : A) : readOnly (ret a).
Proof. by intros h a' h' [= _ <-]. Qed.

Lemma ro_panic {A} msg : readOnly (panic msg : M A).
Proof. by intros h a h'. Qed.

Lemma ro_Fault {A} : readOnly (fun _ => Fault : outcome A).
Proof. by intros h a h'. Qed.

Lemma ro_bind {A B} (c : M A) (k : A → M B) :
  readOnly c → (∀ a, readOnly (k a)) → readOnly (bind c k).
Proof.
  intros Hc Hk h b h'. unfold bind.
  destruct (c h) as [a h1| |] eqn:Hch; try discriminate.
  intros Hkh. rewrite (Hk a _ _ _ Hkh). by eapply Hc.
Qed.

Lemma ro_rType d : readOnly (rType d).
Proof. destruct d; simpl; auto using ro_ret, ro_panic. Qed.

Lemma ro_load d : readOnly (load d).
Proof.
  intros h a h'. unfold load. destruct d; try discriminate.
  - by intros [= _ <-].
  - destruct (load_at l p h); [|discriminate]. by intros [= _ <-].
Qed.

Lemma ro_TypeField t i : readOnly (TypeField t i).
Proof.
  unfold TypeField. destruct (underlying t); try apply ro_panic.
  destruct (_ !! i); [apply ro_ret|apply ro_panic].
Qed.

Lemma ro_Field d i : readOnly (Field d i).
Proof.
  unfold Field. destruct (rKind d); try apply ro_panic.
  apply ro_bind; [apply ro_rType|]. intros t.
  apply ro_bind; [apply ro_TypeField|]. intros f.
  destruct d; try apply ro_ret.
  - apply ro_bind; [apply ro_load|]. intros v.
    destruct (get_path [i] v); [apply ro_ret|apply ro_Fault].
  - apply ro_bind; [apply ro_load|]. intros v0.
    destruct (get_path [i] v0); [apply ro_ret|apply ro_Fault].
Qed.

Lemma ro_FieldByIndex index : ∀ d, readOnly (FieldByIndex d index).
Proof.
  induction index as [|i index IH]; intros d; simpl; [apply ro_ret|].
  apply ro_bind; [apply ro_Field|]. intros d'. apply IH.
Qed.

Lemma ro_Interface d : readOnly (Interface_ d).
Proof.
  unfold Interface_. apply ro_bind; [apply ro_rType|]. intros t.
  apply ro_bind; [apply ro_load|]. intros v.
  destruct (Kind t); try apply ro_ret. destruct v; try apply ro_ret; apply ro_Fault.
Qed.

End ReadOnly.

(** What the loop of [AppendStruct] appends: two values per entry, the first
    of them the entry's name as a string. *)
Lemma appendStructLoop_shape v l0 :
  ∀ args0 out h h',
    appendStructLoop v l0 args0 h = Ret out h' →
    h' = h
    ∧ ∃ em, out = args0 ++ em
            ∧ length em = (2 * length l0)%nat
            ∧ ∀ i fs, l0 !! i = Some fs →
                      em !! (2 * i)%nat = Some (Some (TString, VString (fs_name fs))).
Proof.
  induction l0 as [|fs0 l0 IH]; intros args0 out h h'.
  - intros [= <- <-]. split; [done|]. exists []. rewrite app_nil_r.
    split; [done|]. split; [done|]. intros i fs Hi. done.
  - cbn [appendStructLoop]. unfold bind at 1.
    destruct (FieldByIndex v (fs_index fs0) h) as [fv h1| |] eqn:Hf; try discriminate.
    rewrite (ro_FieldByIndex _ _ _ _ _ Hf). unfold bind at 1.
    destruct (Interface_ fv h) as [x h2| |] eqn:Hi; try discriminate.
    rewrite (ro_Interface _ _ _ _ Hi).
    intros Hrest. destruct (IH _ _ _ _ Hrest) as (-> & em & -> & Hlen & Hnames).
    split; [done|].
    exists (Some (TString, VString (fs_name fs0)) :: x :: em).
    split; [by rewrite <- app_assoc|]. split; [simpl; lia|].
    intros [|i] fs Hfs.
    + simpl in Hfs. by injection Hfs as <-.
    + simpl in Hfs. replace (2 * S i)%nat with (S (S (2 * i))) by lia.
      simpl. by apply Hnames.
Qed.

Lemma FieldByIndex_copy index :
  ∀ T ft v h,
    typeAt T index = Some ft →
    FieldByIndex (RCopy T v) index h =
      match get_path index v with
      | Some x => Ret (RCopy ft x) h
      | None => Fault
      end.
Proof.
  induction index as [|i index IH]; intros T ft v h.
  - by intros [= ->].
  - intros Hty. cbn [typeAt] in Hty.
    destruct (underlying T) as [| | | | | | | | | fs | |] eqn:Hu; try discriminate.
    destruct (fs !! i) as [f|] eqn:Hi; simpl in Hty; [|discriminate].
    assert (Hfield : Field (RCopy T v) i h =
              match get_path [i] v with
              | Some x => Ret (RCopy (Type_ f) x) h
              | None => Fault
              end).
    { unfold Field. cbn [rKind]. rewrite (Kind_struct _ _ Hu).
      unfold bind, rType, ret, TypeField, load. rewrite Hu, Hi.
      by destruct (get_path [i] v). }
    cbn [FieldByIndex]. rewrite (get_path_cons i index v). unfold bind at 1.
    rewrite Hfield.
    destruct (get_path [i] v) as [x|]; [|done]. simpl.
    by apply IH.
Qed.

(** Through a pointer or by value, the loop reads the same fields. *)
Lemma appendStructLoop_place_copy T l v h l0 :
  h !! l = Some v →
  (∀ fs, fs ∈ l0 → ∃ ft, typeAt T (fs_index fs) = Some ft) →
  ∀ args,
    appendStructLoop (RPlace T l []) l0 args h = appendStructLoop (RCopy T v) l0 args h.
Proof.
  intros Hl. induction l0 as [|fs l0 IH]; intros Hty args; [done|].
  destruct (Hty fs) as [ft Hft]; [by left|].
  cbn [appendStructLoop]. unfold bind at 1 3.
  rewrite (FieldByIndex_place _ _ _ _ [] h Hft), (FieldByIndex_copy _ _ _ v h Hft).
  simpl app.
  assert (Hload : load_at l (fs_index fs) h = get_path (fs_index fs) v)
    by (unfold load_at; by rewrite Hl).
  destruct (get_path (fs_index fs) v) as [x|] eqn:Hx.
  - assert (Hi : Interface_ (RPlace ft l (fs_index fs)) h = Interface_ (RCopy ft x) h).
    { unfold Interface_, bind, rType, ret, load. by rewrite Hload. }
    unfold bind. rewrite Hi. destruct (Interface_ (RCopy ft x) h) as [y h1| |] eqn:Hy; try done.
    rewrite (ro_Interface _ _ _ _ Hy). apply IH. intros fs' Hin. apply Hty. by right.
  - unfold bind, Interface_, bind, rType, ret, load. by rewrite Hload.
Qed.

Lemma AppendStruct_of_value args T v h :
  Kind T ≠ KPtr →
  AppendStruct args (Some (T, v)) h =
    if bool_decide (Kind T ≠ KStruct) then
      Ret ([], Some (ErrorsNew
        "redigo: AppendStruct argument must be a struct or pointer to a struct")) h
    else match structSpecForType T with
         | Ok ss =>
             match appendStructLoop (RCopy T v) (ss_l ss) args h with
             | Ret out h' => Ret (out, None) h'
             | Panic pv => Panic pv
             | Fault => Fault
             end
         | Panicked pv => Panic pv
         end.
Proof.
  intros Hk. unfold AppendStruct. cbn [ValueOf rKind].
  rewrite (bool_decide_false (Kind T = KPtr)) by done.
  case_bool_decide; [done|].
  unfold bind, rType, ret, liftR. by destruct (structSpecForType T).
Qed.

Lemma AppendStruct_of_pointer args t T l h :
  underlying t = TPtr T →
  AppendStruct args (Some (t, VPtr (Some l))) h =
    if bool_decide (Kind T ≠ KStruct) then
      Ret ([], Some (ErrorsNew
        "redigo: AppendStruct argument must be a struct or pointer to a struct")) h
    else match structSpecForType T with
         | Ok ss =>
             match appendStructLoop (RPlace T l []) (ss_l ss) args h with
             | Ret out h' => Ret (out, None) h'
             | Panic pv => Panic pv
             | Fault => Fault
             end
         | Panicked pv => Panic pv
         end.
Proof.
  intros Hu. assert (Hk : Kind t = KPtr) by (by rewrite Kind_underlying, Hu).
  unfold AppendStruct. cbn [ValueOf rKind]. rewrite Hk.
  rewrite (bool_decide_true (KPtr = KPtr)) by done.
  unfold IsNil, Elem. cbn [rKind]. rewrite Hk.
  unfold bind, load, rType, ret, typeElem. cbn beta iota. rewrite Hu.
  unfold ret. simpl.
  case_bool_decide; [done|].
  unfold liftR. by destruct (structSpecForType T).
Qed.

(** X21.  Whatever [AppendStruct] returns, it has left the store as it was.
    With an error it returns a nil sequence, and the error is one of its two
    messages.  Without an error it returns the arguments it was given
    followed by two values for every entry of the compiled list of the struct
    type (the type of [src], or the type [src] points to), entry by entry in
    the order of the list, the first of each pair being the entry's name as a
    string. *)
Theorem AppendStruct_result args src h out err h' :
  AppendStruct args src h = Ret (out, err) h' →
  h' = h
  ∧ match err with
    | Some e =>
        out = []
        ∧ (e = ErrorsNew "redigo: AppendStruct argument must not be nil"
           ∨ e = ErrorsNew
                   "redigo: AppendStruct argument must be a struct or pointer to a struct")
    | None =>
        ∃ T ss em,
          (TypeOf src = Some T ∨ ∃ P, TypeOf src = Some P ∧ underlying P = TPtr T)
          ∧ structSpecForType T = Ok ss
          ∧ out = args ++ em
          ∧ length em = (2 * length (ss_l ss))%nat
          ∧ ∀ i fs, ss_l ss !! i = Some fs →
                    em !! (2 * i)%nat = Some (Some (TString, VString (fs_name fs)))
    end.
Proof.
  assert (Hloop : ∀ T v,
    (TypeOf src = Some T ∨ ∃ P, TypeOf src = Some P ∧ underlying P = TPtr T) →
    (if bool_decide (Kind T ≠ KStruct) then
       Ret ([], Some (ErrorsNew
         "redigo: AppendStruct argument must be a struct or pointer to a struct")) h
     else match structSpecForType T with
          | Ok ss =>
              match appendStructLoop v (ss_l ss) args h with
              | Ret out h' => Ret (out, None) h'
              | Panic pv => Panic pv
              | Fault => Fault
              end
          | Panicked pv => Panic pv
          end) = Ret (out, err) h' →
    h' = h
    ∧ match err with
      | Some e =>
          out = []
          ∧ (e = ErrorsNew "redigo: AppendStruct argument must not be nil"
             ∨ e = ErrorsNew
                     "redigo: AppendStruct argument must be a struct or pointer to a struct")
      | None =>
          ∃ T ss em,
            (TypeOf src = Some T ∨ ∃ P, TypeOf src = Some P ∧ underlying P = TPtr T)
            ∧ structSpecForType T = Ok ss
            ∧ out = args ++ em
            ∧ length em = (2 * length (ss_l ss))%nat
            ∧ ∀ i fs, ss_l ss !! i = Some fs →
                      em !! (2 * i)%nat = Some (Some (TString, VString (fs_name fs)))
      end).
  { intros T v HT. case_bool_decide.
    - intros [= <- <- <-]. split; [done|]. split; [done|]. by right.
    - destruct (structSpecForType T) as [ss|pv] eqn:Hss; [|discriminate].
      destruct (appendStructLoop v (ss_l ss) args h) as [o h1| |] eqn:Hl; try discriminate.
      intros [= <- <- <-].
      destruct (appendStructLoop_shape _ _ _ _ _ _ Hl) as (-> & em & -> & Hlen & Hnames).
      split; [done|]. exists T, ss, em. done. }
  destruct src as [[t v]|].
  - destruct (decide (Kind t = KPtr)) as [Hk|Hk].
    + pose proof (Kind_inv t) as Hinv. rewrite Hk in Hinv. destruct Hinv as [T Hu].
      destruct v as [| | | | | | |[l|]| |];
        try (unfold AppendStruct; cbn [ValueOf rKind]; rewrite Hk;
             rewrite (bool_decide_true (KPtr = KPtr)) by done;
             unfold IsNil; cbn [rKind]; rewrite Hk; unfold bind, load, ret;
             discriminate).
      * rewrite (AppendStruct_of_pointer args t T l h Hu).
        apply (Hloop T). right. by exists t.
      * unfold AppendStruct. cbn [ValueOf rKind]. rewrite Hk.
        rewrite (bool_decide_true (KPtr = KPtr)) by done.
        unfold IsNil. cbn [rKind]. rewrite Hk. unfold bind, load, ret. simpl.
        intros [= <- <- <-]. split; [done|]. split; [done|]. by left.
    + rewrite (AppendStruct_of_value args t v h Hk). apply (Hloop t). by left.
  - intros [= <- <- <-]. split; [done|]. split; [done|]. by right.
Qed.

Lemma AppendStruct_result_witness :
  AppendStruct [bulk "HMSET"; bulk "key"] (Some (exPoint, exPointValue)) onePoint
  = Ret ([bulk "HMSET"; bulk "key";
          Some (TString, VString "X"); Some (TInt Sz8, VInt 5);
          Some (TString, VString "y"); Some (TUint Sz16, VUint 700)], None) onePoint
  ∧ ∃ T ss em,
      structSpecForType T = Ok ss
      ∧ [bulk "HMSET"; bulk "key";
         Some (TString, VString "X"); Some (TInt Sz8, VInt 5);
         Some (TString, VString "y"); Some (TUint Sz16, VUint 700)]
        = [bulk "HMSET"; bulk "key"] ++ em
      ∧ length em = (2 * length (ss_l ss))%nat.
Proof.
  assert (Hrun : AppendStruct [bulk "HMSET"; bulk "key"] (Some (exPoint, exPointValue))
                   onePoint
                 = Ret ([bulk "HMSET"; bulk "key";
                         Some (TString, VString "X"); Some (TInt Sz8, VInt 5);
                         Some (TString, VString "y"); Some (TUint Sz16, VUint 700)], None)
                     onePoint) by (vm_compute; reflexivity).
  split; [exact Hrun|].
  destruct (AppendStruct_result _ _ _ _ _ _ Hrun) as (_ & T & ss & em & _ & Hss & Hout & Hlen & _).
  exists T, ss, em. split; [exact Hss|]. split; [exact Hout|exact Hlen].
Defined.

(** X22.  A struct may be passed to [AppendStruct] by value or through a
    pointer: for a variable [l] holding [v], of a type that is neither a
    pointer type nor an interface type, the call with a pointer to [l] and
    the call with [v] itself have the same outcome (and so have the two calls
    of [FlattenStruct]).  A variable of interface type is different: handed
    over itself it passes the value it holds, but a pointer to it is refused
    as no pointer to a struct, whatever the variable holds. *)
Theorem AppendStruct_pointer_or_value args T l v h :
  h !! l = Some v → Kind T ≠ KPtr →
  (Kind T ≠ KInterface →
   AppendStruct args (ptrTo T l) h = AppendStruct args (Some (T, v)) h
   ∧ FlattenStruct args (ptrTo T l) h = FlattenStruct args (Some (T, v)) h)
  ∧ (Kind T = KInterface →
     AppendStruct args (ptrTo T l) h
     = Ret ([], Some (ErrorsNew
         "redigo: AppendStruct argument must be a struct or pointer to a struct")) h).
Proof.
  intros Hl Hk. split.
  - intros _.
    assert (Heq : AppendStruct args (ptrTo T l) h = AppendStruct args (Some (T, v)) h).
    { unfold ptrTo. rewrite (AppendStruct_of_pointer args (TPtr T) T l h eq_refl).
      rewrite (AppendStruct_of_value args T v h Hk).
      case_bool_decide; [done|].
      destruct (structSpecForType T) as [ss|pv] eqn:Hss; [|done].
      rewrite (appendStructLoop_place_copy T l v h (ss_l ss) Hl); [done|].
      intros fs Hin. destruct (structSpecForType_wf T ss Hss) as [Hnamed _].
      destruct (Hnamed fs Hin) as [g Hg]. exists (Type_ g). by apply namedFieldAt_typeAt. }
    split; [done|]. unfold FlattenStruct, bind. by rewrite Heq.
  - intros Hi. unfold ptrTo.
    rewrite (AppendStruct_of_pointer args (TPtr T) T l h eq_refl).
    rewrite bool_decide_true; [done|]. by rewrite Hi.
Qed.

Lemma AppendStruct_pointer_or_value_witness :
  ({[ 0%nat := exPointValue ]} : heap) !! 0%nat = Some exPointValue
  ∧ Kind exPoint ≠ KPtr
  ∧ Kind exPoint ≠ KInterface
  ∧ AppendStruct [] (ptrTo exPoint 0%nat) {[ 0%nat := exPointValue ]}
    = AppendStruct [] (Some (exPoint, exPointValue)) {[ 0%nat := exPointValue ]}
  ∧ AppendStruct [] (ptrTo exPoint 0%nat) {[ 0%nat := exPointValue ]}
    = Ret ([Some (TString, VString "X"); Some (TInt Sz8, VInt 5);
            Some (TString, VString "y"); Some (TUint Sz16, VUint 700)], None)
        {[ 0%nat := exPointValue ]}.
Proof.
  assert (Hl : ({[ 0%nat := exPointValue ]} : heap) !! 0%nat = Some exPointValue)
    by reflexivity.
  assert (Hk : Kind exPoint ≠ KPtr) by discriminate.
  assert (Hi : Kind exPoint ≠ KInterface) by discriminate.
  split; [exact Hl|]. split; [exact Hk|]. split; [exact Hi|].
  split; [|vm_compute; reflexivity].
  exact (proj1 (proj1 (AppendStruct_pointer_or_value [] exPoint 0%nat exPointValue _ Hl Hk)
                  Hi)).
Defined.

(** X23.  Sources [AppendStruct] refuses.  A nil interface, a value that is
    neither a struct nor a pointer, and a pointer to a variable that is no
    struct get the error that the argument must be a struct or a pointer to
    a struct; a nil pointer gets the error that the argument must not be
    nil; each time with a nil sequence and an untouched store.
    [FlattenStruct] panics with the error whenever [AppendStruct] returns
    one, and otherwise returns the sequence [AppendStruct] returns. *)
Theorem AppendStruct_refuses_and_FlattenStruct_panics args h :
  AppendStruct args None h
  = Ret ([], Some (ErrorsNew
      "redigo: AppendStruct argument must be a struct or pointer to a struct")) h
  ∧ (∀ t v, Kind t ≠ KPtr → Kind t ≠ KStruct →
       AppendStruct args (Some (t, v)) h
       = Ret ([], Some (ErrorsNew
           "redigo: AppendStruct argument must be a struct or pointer to a struct")) h)
  ∧ (∀ t T l, underlying t = TPtr T → Kind T ≠ KStruct →
       AppendStruct args (Some (t, VPtr (Some l))) h
       = Ret ([], Some (ErrorsNew
           "redigo: AppendStruct argument must be a struct or pointer to a struct")) h)
  ∧ (∀ t, Kind t = KPtr →
       AppendStruct args (Some (t, VPtr None)) h
       = Ret ([], Some (ErrorsNew "redigo: AppendStruct argument must not be nil")) h)
  ∧ (∀ src out e h',
       AppendStruct args src h = Ret (out, Some e) h' →
       FlattenStruct args src h = Panic (PanicErr e))
  ∧ (∀ src out h',
       AppendStruct args src h = Ret (out, None) h' ↔ FlattenStruct args src h = Ret out h').
Proof.
  split; [done|]. split; [|split; [|split; [|split]]].
  - intros t v Hk Hs. rewrite (AppendStruct_of_value args t v h Hk).
    by rewrite bool_decide_true.
  - intros t T l Hu Hs. rewrite (AppendStruct_of_pointer args t T l h Hu).
    by rewrite bool_decide_true.
  - intros t Hk. unfold AppendStruct. cbn [ValueOf rKind]. rewrite Hk.
    rewrite (bool_decide_true (KPtr = KPtr)) by done.
    unfold IsNil. cbn [rKind]. rewrite Hk. done.
  - intros src out e h' Hrun. unfold FlattenStruct, bind. by rewrite Hrun.
  - intros src out h'. unfold FlattenStruct, bind.
    destruct (AppendStruct args src h) as [[o [e|]] h1| |]; split; try done.
    + by intros [= <- <-].
    + by intros [= <- <-].
Qed.

(** ** [convertAssignValues]: a multi-bulk into a slice *)

Lemma get_path_app p q v : get_path (p ++ q) v = get_path p v ≫= get_path q.
Proof.
  revert v. induction p as [|i p IH]; intros v; [done|].
  simpl. destruct v; try done; (destruct (_ !! i) as [e|]; [apply IH|done]).
Qed.

Lemma set_path_snoc_slice p i x arr n old :
  ∀ v,
    get_path p v = Some (VSlice arr n) → arr !! i = Some old →
    set_path (p ++ [i]) x v = set_path p (VSlice (<[i:=x]> arr) n) v.
Proof.
  induction p as [|j p IH]; intros v Hg Hi.
  - simpl in Hg. injection Hg as ->. simpl. by rewrite Hi.
  - simpl in Hg |- *.
    destruct v; try discriminate;
      (destruct (_ !! j) as [e|]; simpl in Hg |- *; [|discriminate]);
      by rewrite (IH e Hg Hi).
Qed.

Lemma load_at_snoc l p i h :
  load_at l (p ++ [i]) h = load_at l p h ≫= get_path [i].
Proof.
  unfold load_at. destruct (h !! l) as [v|]; [|done]. simpl. apply get_path_app.
Qed.

Lemma store_at_snoc_slice l p i x arr n old h :
  load_at l p h = Some (VSlice arr n) → arr !! i = Some old →
  store_at l (p ++ [i]) x h = store_at l p (VSlice (<[i:=x]> arr) n) h.
Proof.
  unfold load_at, store_at. destruct (h !! l) as [v|]; [|done]. simpl.
  intros Hg Hi. by rewrite (set_path_snoc_slice p i x arr n old v Hg Hi).
Qed.

Section ValuesMore.
Context (env : Env).
Implicit Types (t e : gtype) (l : loc) (p : list nat) (h : heap).

Lemma Index_place t e l p i arr n h :
  underlying t = TSlice e →
  load_at l p h = Some (VSlice arr n) → (i < n)%nat →
  Index (RPlace t l p) i h = Ret (RPlace e l (p ++ [i])) h.
Proof.
  intros Hu Hl Hi. unfold Index. cbn [rKind]. rewrite Kind_underlying, Hu. cbn [Kind].
  unfold bind, rType, ret. cbn beta iota. unfold typeElem. rewrite Hu.
  unfold ret. cbn beta iota. unfold load. rewrite Hl.
  by rewrite bool_decide_true.
Qed.

(** An element that is a bulk string or an integer is converted as the
    struct scan converts the value of a pair. *)
Lemma reproduces_element t e l p i arr n h r v old :
  underlying t = TSlice e →
  load_at l p h = Some (VSlice arr n) → (i < n)%nat → arr !! i = Some old →
  r ≠ None → reproduces env e r v →
  ∀ rest,
    convertAssignValuesLoop env (RPlace t l p) (VIface r :: rest) i h =
    match store_at l p (VSlice (<[i:=v]> arr) n) h with
    | Some h' => convertAssignValuesLoop env (RPlace t l p) rest (S i) h'
    | None => Fault
    end.
Proof.
  intros Hu Hl Hi Hold Hr Hrep rest.
  assert (Hload : load_at l (p ++ [i]) h = Some old).
  { rewrite load_at_snoc, Hl. simpl. by rewrite Hold. }
  destruct (Hrep l (p ++ [i]) h old Hload) as (h' & Hrun & Hst).
  rewrite (store_at_snoc_slice l p i v arr n old h Hl Hold) in Hst. rewrite Hst.
  cbn [convertAssignValuesLoop]. unfold bind at 1.
  destruct r as [[tr vr]|]; [|done].
  assert (Hother : scanStructValue env (RPlace e l (p ++ [i])) (Some (tr, vr)) h
                   = (let! err := cannotConvert (RPlace e l (p ++ [i])) (Some (tr, vr)) in
                      ret (Some err)) h → False).
  { intros Heq. rewrite Heq in Hrun. discriminate Hrun. }
  destruct tr as [| [] | | | | | | er | | | |]; try (by destruct Hother).
  - destruct vr; try (by destruct Hother).
    unfold bind at 1. rewrite (Index_place t e l p i arr n h Hu Hl Hi).
    change (convertAssignInt env (RPlace e l (p ++ [i])) z h)
      with (scanStructValue env (RPlace e l (p ++ [i])) (Some (TInt Sz64, VInt z)) h).
    by rewrite Hrun.
  - destruct er as [| | [] | | | | | | | | |]; try (by destruct Hother).
    unfold bind at 1. rewrite (Index_place t e l p i arr n h Hu Hl Hi).
    change (convertAssignBytes env (RPlace e l (p ++ [i])) vr h)
      with (scanStructValue env (RPlace e l (p ++ [i])) (Some (TSlice (TUint Sz8), vr)) h).
    by rewrite Hrun.
Qed.

(** The loop over a run of convertible elements: they land, in order, in
    the elements of the destination from [i] on. *)
Lemma convertAssignValuesLoop_run t e l p n rs vs :
  underlying t = TSlice e →
  Forall2 (fun r v => r ≠ None ∧ reproduces env e r v) rs vs →
  ∀ done rest tail h,
    load_at l p h = Some (VSlice (done ++ rest) n) →
    (length done + length rs <= n)%nat → (length rs <= length rest)%nat →
    ∃ h', store_at l p (VSlice (done ++ vs ++ drop (length rs) rest) n) h = Some h'
          ∧ convertAssignValuesLoop env (RPlace t l p) ((VIface <$> rs) ++ tail)
              (length done) h
            = convertAssignValuesLoop env (RPlace t l p) tail
                (length done + length rs) h'.
Proof.
  intros Hu. induction 1 as [|r v rs vs [Hr Hrep] _ IH]; intros done rest tail h Hl Hn Hrest.
  - simpl. rewrite drop_0, Nat.add_0_r.
    destruct (store_at_is_Some l p (VSlice (done ++ rest) n) h _ Hl) as [h' Hst].
    exists h'. split; [done|].
    assert (h' = h) as ->; [|done].
    unfold store_at, load_at in *. destruct (h !! l) as [v0|] eqn:Hh; [|done].
    simpl in *.
    assert (Hid : ∀ q w x, get_path q w = Some x → set_path q x w = Some w).
    { clear. induction q as [|j q IHq]; intros w x; simpl; [congruence|].
      destruct w; try discriminate;
        (destruct (_ !! j) as [u|] eqn:Hj; simpl; [|discriminate]);
        intros Hg; rewrite (IHq _ _ Hg); simpl; by rewrite list_insert_id. }
    rewrite (Hid _ _ _ Hl) in Hst. simpl in Hst. injection Hst as <-.
    by rewrite insert_id.
  - destruct rest as [|old rest]; [simpl in Hrest; lia|].
    cbn [length] in Hn, Hrest. cbn [fmap list_fmap app].
    change (VIface r :: (VIface <$> rs) ++ tail)
      with (VIface r :: ((VIface <$> rs) ++ tail)).
    rewrite (reproduces_element t e l p (length done) (done ++ old :: rest) n h r v old
               Hu Hl) by (done || lia || by rewrite list_lookup_middle).
    destruct (store_at_is_Some l p
                (VSlice (<[length done:=v]> (done ++ old :: rest)) n) h _ Hl) as [h1 Hst1].
    rewrite Hst1.
    assert (Hins : <[length done:=v]> (done ++ old :: rest) = (done ++ [v]) ++ rest).
    { rewrite insert_app_r_alt by lia. rewrite Nat.sub_diag. simpl.
      by rewrite <- app_assoc. }
    rewrite Hins in Hst1.
    destruct (IH (done ++ [v]) rest tail h1) as (h' & Hst' & Hrun).
    { by apply (load_store_eq _ _ _ _ _ Hst1). }
    { rewrite length_app. simpl. lia. }
    { lia. }
    exists h'. split.
    + rewrite <- (store_store _ _ _ _ _ _ Hst1), <- Hst'. simpl.
      by rewrite <- !app_assoc.
    + rewrite length_app in Hrun. simpl in Hrun.
      replace (length done + 1)%nat with (S (length done)) in Hrun by lia.
      rewrite Hrun. f_equal. cbn [length]. lia.
Qed.

(** The resizing step of [convertAssignValues]. *)
Lemma convertAssignValues_resize t e l p h arr0 n0 sarr n :
  underlying t = TSlice e →
  load_at l p h = Some (VSlice arr0 n0) →
  convertAssignValues env (RPlace t l p) (VSlice sarr n) h =
    match store_at l p
            (VSlice (if bool_decide (length arr0 < n)%nat
                     then replicate n (zero e) else arr0) n) h with
    | Some h1 => convertAssignValuesLoop env (RPlace t l p) (take n sarr) 0 h1
    | None => Fault
    end.
Proof.
  intros Hu Hl. assert (Hk : Kind t = KSlice) by (by rewrite Kind_underlying, Hu).
  unfold convertAssignValues. unfold bind at 1. cbn [rType]. unfold ret at 1.
  rewrite bool_decide_false by (intros Hne; by apply Hne).
  unfold bind at 1. unfold Cap. cbn [rKind]. rewrite Hk.
  unfold bind at 1, load. rewrite Hl. unfold ret at 1.
  unfold bind at 1.
  case_bool_decide as Hc.
  - unfold bind at 1, MakeSlice. rewrite Hk. unfold bind at 1, typeElem. rewrite Hu.
    unfold ret at 1. rewrite bool_decide_true by lia. unfold ret at 1.
    unfold Set_, store. by destruct (store_at l p _ h).
  - unfold SetLen. cbn [rKind]. rewrite Hk. unfold bind at 1, load. rewrite Hl.
    rewrite bool_decide_true by lia. unfold store. by destruct (store_at l p _ h).
Qed.

End ValuesMore.

(** X24.  A multi-bulk reply into a slice variable.  When every element of
    the reply is a bulk string or an integer that converts into an element of
    the slice's type (reproducing the value [v] there), [convertAssignValues]
    returns no error and leaves the slice with the length of the reply and
    the converted values as its elements, in order.  The backing array is
    reused when its capacity suffices (what lies beyond the new length stays)
    and replaced by a fresh one of exactly that length otherwise. *)
Theorem convertAssignValues_fills_the_slice env t e l p h arr0 n0 rs vs extra :
  underlying t = TSlice e →
  load_at l p h = Some (VSlice arr0 n0) →
  Forall2 (fun r v => r ≠ None ∧ reproduces env e r v) rs vs →
  ∃ h',
    convertAssignValues env (RPlace t l p)
      (VSlice ((VIface <$> rs) ++ extra) (length rs)) h = Ret None h'
    ∧ store_at l p
        (VSlice (vs ++ drop (length rs)
                         (if bool_decide (length arr0 < length rs)%nat
                          then replicate (length rs) (zero e) else arr0))
                (length rs)) h = Some h'.
Proof.
  intros Hu Hl Hall.
  rewrite (convertAssignValues_resize env t e l p h arr0 n0 _ _ Hu Hl).
  set (arr1 := if bool_decide (length arr0 < length rs)%nat
               then replicate (length rs) (zero e) else arr0).
  assert (Hlen1 : (length rs <= length arr1)%nat).
  { unfold arr1. case_bool_decide; [by rewrite length_replicate|lia]. }
  destruct (store_at_is_Some l p (VSlice arr1 (length rs)) h _ Hl) as [h1 Hst1].
  rewrite Hst1.
  rewrite take_app_length' by (by rewrite length_fmap).
  destruct (convertAssignValuesLoop_run env t e l p (length rs) rs vs Hu Hall
              [] arr1 [] h1) as (h' & Hst' & Hrun); simpl; try lia.
  { by apply (load_store_eq _ _ _ _ _ Hst1). }
  exists h'. rewrite app_nil_r in Hrun. simpl in Hrun, Hst'. rewrite Hrun.
  split; [by destruct rs|].
  by rewrite <- (store_store _ _ _ _ _ _ Hst1).
Qed.

Lemma convertAssignValues_fills_the_slice_witness :
  let h : heap := {[ 0%nat := VSlice [VInt 9; VInt 9; VInt 9] 1 ]} in
  underlying (TSlice (TInt Sz8)) = TSlice (TInt Sz8)
  ∧ load_at 0%nat [] h = Some (VSlice [VInt 9; VInt 9; VInt 9] 1)
  ∧ Forall2 (fun r v => r ≠ None ∧ reproduces RefEnv.env (TInt Sz8) r v)
      [integer 5; integer (-7)] [VInt 5; VInt (-7)]
  ∧ convertAssignValues RefEnv.env (RPlace (TSlice (TInt Sz8)) 0%nat [])
      (VSlice ((VIface <$> [integer 5; integer (-7)]) ++ []) 2) h
    = Ret None {[ 0%nat := VSlice [VInt 5; VInt (-7); VInt 9] 2 ]}.
Proof.
  intros h.
  assert (Hu : underlying (TSlice (TInt Sz8)) = TSlice (TInt Sz8)) by reflexivity.
  assert (Hl : load_at 0%nat [] h = Some (VSlice [VInt 9; VInt 9; VInt 9] 1))
    by reflexivity.
  assert (Hall : Forall2 (fun r v => r ≠ None ∧ reproduces RefEnv.env (TInt Sz8) r v)
                   [integer 5; integer (-7)] [VInt 5; VInt (-7)]).
  { repeat constructor; try discriminate.
    - apply (reproduces_integer RefEnv.env (TInt Sz8) 5); [exact I | |];
        (split; [discriminate | reflexivity]).
    - apply (reproduces_integer RefEnv.env (TInt Sz8) (-7)); [exact I | |];
        (split; [discriminate | reflexivity]). }
  split; [exact Hu|]. split; [exact Hl|]. split; [exact Hall|].
  destruct (convertAssignValues_fills_the_slice RefEnv.env _ _ 0%nat [] h _ _ _ _ []
              Hu Hl Hall) as (h' & Hrun & Hst).
  change (length [integer 5; integer (-7)]) with 2%nat in Hrun.
  rewrite Hrun. f_equal.
  vm_compute in Hst. by injection Hst as <-.
Defined.

(** X25.  Inside a multi-bulk that is converted into a slice, a [Null]
    element is no longer skipped, and neither is a nested multi-bulk
    converted: after the elements before it have been stored, the call
    returns the cannot-convert error, which names the type of the slice (not
    of its element), and the slice keeps its new length. *)
Theorem convertAssignValues_refuses_element env t e l p h arr0 n0 rs vs r rest :
  underlying t = TSlice e →
  load_at l p h = Some (VSlice arr0 n0) →
  Forall2 (fun r v => r ≠ None ∧ reproduces env e r v) rs vs →
  r = None ∨ (∃ x, r = Some (valuesT, x)) →
  ∃ h',
    convertAssignValues env (RPlace t l p)
      (VSlice ((VIface <$> rs) ++ VIface r :: rest) (length rs + 1 + length rest)) h
    = Ret (Some (CannotConvert (TypeOf r) t)) h'
    ∧ store_at l p
        (VSlice (vs ++ drop (length rs)
                         (if bool_decide (length arr0 < length rs + 1 + length rest)%nat
                          then replicate (length rs + 1 + length rest) (zero e)
                          else arr0))
                (length rs + 1 + length rest)) h = Some h'.
Proof.
  intros Hu Hl Hall Hr.
  rewrite (convertAssignValues_resize env t e l p h arr0 n0 _ _ Hu Hl).
  set (n := (length rs + 1 + length rest)%nat).
  set (arr1 := if bool_decide (length arr0 < n)%nat then replicate n (zero e) else arr0).
  assert (Hlen1 : (n <= length arr1)%nat).
  { unfold arr1. case_bool_decide; [by rewrite length_replicate|lia]. }
  destruct (store_at_is_Some l p (VSlice arr1 n) h _ Hl) as [h1 Hst1].
  rewrite Hst1.
  rewrite take_ge by (rewrite length_app, length_fmap; simpl; unfold n; lia).
  destruct (convertAssignValuesLoop_run env t e l p n rs vs Hu Hall
              [] arr1 (VIface r :: rest) h1) as (h' & Hst' & Hrun); simpl; try (unfold n; lia).
  { by apply (load_store_eq _ _ _ _ _ Hst1). }
  exists h'. simpl in Hrun, Hst'. rewrite Hrun. split.
  - destruct Hr as [->|[x ->]]; done.
  - by rewrite <- (store_store _ _ _ _ _ _ Hst1).
Qed.

Lemma convertAssignValues_refuses_element_witness :
  let h : heap := {[ 0%nat := VSlice [] 0 ]} in
  underlying (TSlice (TInt Sz8)) = TSlice (TInt Sz8)
  ∧ load_at 0%nat [] h = Some (VSlice [] 0)
  ∧ Forall2 (fun r v => r ≠ None ∧ reproduces RefEnv.env (TInt Sz8) r v)
      [integer 5] [VInt 5]
  ∧ convertAssignValues RefEnv.env (RPlace (TSlice (TInt Sz8)) 0%nat [])
      (VSlice ((VIface <$> [integer 5]) ++ VIface None :: [VIface (integer 6)]) 3) h
    = Ret (Some (CannotConvert None (TSlice (TInt Sz8))))
        {[ 0%nat := VSlice [VInt 5; VInt 0; VInt 0] 3 ]}.
Proof.
  intros h.
  assert (Hu : underlying (TSlice (TInt Sz8)) = TSlice (TInt Sz8)) by reflexivity.
  assert (Hl : load_at 0%nat [] h = Some (VSlice [] 0)) by reflexivity.
  assert (Hall : Forall2 (fun r v => r ≠ None ∧ reproduces RefEnv.env (TInt Sz8) r v)
                   [integer 5] [VInt 5]).
  { repeat constructor; try discriminate.
    apply (reproduces_integer RefEnv.env (TInt Sz8) 5); [exact I | |];
      (split; [discriminate | reflexivity]). }
  split; [exact Hu|]. split; [exact Hl|]. split; [exact Hall|].
  destruct (convertAssignValues_refuses_element RefEnv.env _ _ 0%nat [] h _ _ _ _ None
              [VIface (integer 6)] Hu Hl Hall (or_introl eq_refl)) as (h' & Hrun & Hst).
  change (length [integer 5] + 1 + length [VIface (integer 6)])%nat with 3%nat in Hrun.
  rewrite Hrun. f_equal.
  vm_compute in Hst. by injection Hst as <-.
Defined.

(** ** What a bulk string leaves in a variable *)

(** X26.  [convertAssignBytes] stores what [strconv] returns whether or not
    the parse failed: an integer variable is overwritten with the value
    [ParseInt] (or [ParseUint]) returned for the width of its type, a boolean
    variable with what [ParseBool] returned, and the parse error is returned
    beside it; so after a failed parse the variable no longer holds what it
    held (with Go's [strconv]: zero after a syntax error, the nearest bound
    after a range error).  A string variable takes the bytes as they are and
    a byte slice the slice itself, without error. *)
Theorem convertAssignBytes_stores_what_strconv_returns env t l p b h old :
  load_at l p h = Some old →
  (∀ w x err,
     underlying t = TInt w →
     ParseInt env (string_of_bytes b) 10 (isizeBits env w) = (x, err) →
     ∃ h', convertAssignBytes env (RPlace t l p) b h = Ret err h'
           ∧ store_at l p (VInt (wrapS (isizeBits env w) x)) h = Some h')
  ∧ (∀ w x err,
       underlying t = TUint w →
       ParseUint env (string_of_bytes b) 10 (isizeBits env w) = (x, err) →
       ∃ h', convertAssignBytes env (RPlace t l p) b h = Ret err h'
             ∧ store_at l p (VUint (wrapU (isizeBits env w) x)) h = Some h')
  ∧ (∀ x err,
       underlying t = TBool →
       ParseBool env (string_of_bytes b) = (x, err) →
       ∃ h', convertAssignBytes env (RPlace t l p) b h = Ret err h'
             ∧ store_at l p (VBool x) h = Some h')
  ∧ (underlying t = TString →
       ∃ h', convertAssignBytes env (RPlace t l p) b h = Ret None h'
             ∧ store_at l p (VString (string_of_bytes b)) h = Some h')
  ∧ (∀ e, underlying t = TSlice e → Kind e = KUint8 →
       ∃ h', convertAssignBytes env (RPlace t l p) b h = Ret None h'
             ∧ store_at l p b h = Some h').
Proof.
  intros Hold.
  assert (Hst : ∀ x, ∃ h', store_at l p x h = Some h')
    by (intros x; by eapply store_at_is_Some).
  split; [|split; [|split; [|split]]].
  - intros w x err Hu Hp. destruct (Hst (VInt (wrapS (isizeBits env w) x))) as [h' Hh'].
    exists h'. split; [|done].
    unfold convertAssignBytes, bind at 1, rType, ret at 1.
    rewrite Kind_underlying, Hu.
    assert (Hrun : (let! b0 := Bits env t in
                    let '(x, err) := ParseInt env (string_of_bytes b) 10 b0 in
                    do! SetInt env (RPlace t l p) x in ret err) h = Ret err h').
    { unfold bind at 1, Bits. rewrite Hu. unfold ret at 1. rewrite Hp.
      unfold bind. by rewrite (SetInt_place env t w), Hh'. }
    by destruct w.
  - intros w x err Hu Hp. destruct (Hst (VUint (wrapU (isizeBits env w) x))) as [h' Hh'].
    exists h'. split; [|done].
    unfold convertAssignBytes, bind at 1, rType, ret at 1.
    rewrite Kind_underlying, Hu.
    assert (Hrun : (let! b0 := Bits env t in
                    let '(x, err) := ParseUint env (string_of_bytes b) 10 b0 in
                    do! SetUint env (RPlace t l p) x in ret err) h = Ret err h').
    { unfold bind at 1, Bits. rewrite Hu. unfold ret at 1. rewrite Hp.
      unfold bind. by rewrite (SetUint_place env t w), Hh'. }
    by destruct w.
  - intros x err Hu Hp. destruct (Hst (VBool x)) as [h' Hh'].
    exists h'. split; [|done].
    unfold convertAssignBytes, bind at 1, rType, ret at 1.
    rewrite Kind_underlying, Hu. cbn [Kind]. rewrite Hp.
    unfold bind, SetBool, store. cbn [rKind]. rewrite Kind_underlying, Hu. cbn [Kind].
    by rewrite Hh'.
  - intros Hu. destruct (Hst (VString (string_of_bytes b))) as [h' Hh'].
    exists h'. split; [|done].
    unfold convertAssignBytes, bind at 1, rType, ret at 1.
    rewrite Kind_underlying, Hu. cbn [Kind].
    unfold bind, SetString, store. cbn [rKind]. rewrite Kind_underlying, Hu. cbn [Kind].
    by rewrite Hh'.
  - intros e Hu Hk. destruct (Hst b) as [h' Hh'].
    exists h'. split; [|done].
    unfold convertAssignBytes, bind at 1, rType, ret at 1.
    rewrite Kind_underlying, Hu. cbn [Kind].
    unfold bind at 1, typeElem. rewrite Hu. unfold ret at 1.
    rewrite bool_decide_false by (intros Hne; by apply Hne).
    unfold bind at 1, SetBytes. cbn [rKind]. rewrite Kind_underlying, Hu. cbn [Kind].
    unfold bind, rType, ret, typeElem. rewrite Hu. unfold ret.
    rewrite bool_decide_true by done. unfold store. by rewrite Hh'.
Qed.

Lemma convertAssignBytes_stores_what_strconv_returns_witness :
  let h : heap := {[ 0%nat := VInt 5 ]} in
  load_at 0%nat [] h = Some (VInt 5)
  ∧ ParseInt RefEnv.env (string_of_bytes (bytes_of_string "999")) 10
      (isizeBits RefEnv.env Sz8)
    = (127, Some (NumError "ParseInt" "999" ErrRange))
  ∧ convertAssignBytes RefEnv.env (RPlace (TInt Sz8) 0%nat []) (bytes_of_string "999") h
    = Ret (Some (NumError "ParseInt" "999" ErrRange)) {[ 0%nat := VInt 127 ]}.
Proof.
  intros h.
  assert (Hl : load_at 0%nat [] h = Some (VInt 5)) by reflexivity.
  assert (Hp : ParseInt RefEnv.env (string_of_bytes (bytes_of_string "999")) 10
                 (isizeBits RefEnv.env Sz8)
               = (127, Some (NumError "ParseInt" "999" ErrRange)))
    by (vm_compute; reflexivity).
  split; [exact Hl|]. split; [exact Hp|].
  destruct (proj1 (convertAssignBytes_stores_what_strconv_returns RefEnv.env (TInt Sz8)
                     0%nat [] (bytes_of_string "999") h _ Hl) Sz8 _ _ eq_refl Hp)
    as (h' & Hrun & Hst).
  rewrite Hrun. f_equal. vm_compute in Hst. by injection Hst as <-.
Defined.

(** X27.  What [ScanStruct] checks, and when.  For a pointer to a variable
    whose type compiles: a reply of odd length is refused before anything is
    stored; in a reply of even length, a key that is no bulk string is
    refused when the loop reaches its pair, after the pairs before it have
    been scanned, whose stores stay. *)
Theorem ScanStruct_checks_length_then_keys env T ss l h :
  structSpecForType T = Ok ss →
  (∀ src, (length src mod 2 ≠ 0)%nat →
     ScanStruct env src (ptrTo T l) h
     = Ret (Some (ErrorsNew
         "redigo: ScanStruct expects even number of values in values")) h)
  ∧ (∀ a key v rest,
       (length a mod 2 = 0)%nat → (length rest mod 2 = 0)%nat →
       (∀ b, key ≠ Some (bytesT, b)) →
       ScanStruct env (a ++ key :: v :: rest) (ptrTo T l) h =
         match ScanStruct env a (ptrTo T l) h with
         | Ret None h1 => Ret (Some (ErrorsNew "redigo: ScanStruct key not a bulk value")) h1
         | r => r
         end).
Proof.
  intros Hss. split.
  - intros src Hodd. unfold ptrTo. rewrite ScanStruct_pointer, Hss.
    by rewrite bool_decide_true.
  - intros a key v rest Ha Hrest Hkey. unfold ptrTo. rewrite !ScanStruct_pointer, Hss.
    assert (Hlen : (length (a ++ key :: v :: rest) mod 2 = 0)%nat).
    { rewrite even_app_inv by done. cbn [length].
      replace (S (S (length rest))) with (length rest + 1 * 2)%nat by lia.
      by rewrite Nat.Div0.mod_add. }
    rewrite !bool_decide_false by lia.
    rewrite scanStructLoop_app by done.
    destruct (scanStructLoop env ss (RPlace T l []) a h) as [[e|] h1| |]; try done.
    cbn [scanStructLoop].
    destruct key as [[tk name]|]; [|done].
    destruct tk as [| | | | | | | e | | | |]; try done.
    destruct e as [| | [] | | | | | | | | |]; try done.
    by destruct (Hkey name).
Qed.

Lemma ScanStruct_checks_length_then_keys_witness :
  ∃ ss, structSpecForType exPoint = Ok ss
        ∧ ScanStruct RefEnv.env ([bulk "X"; integer 6] ++ integer 1 :: integer 2 :: [])
            (ptrTo exPoint 0%nat) onePoint
          = Ret (Some (ErrorsNew "redigo: ScanStruct key not a bulk value"))
              {[ 0%nat := VStruct [VInt 6; VUint 0; VInt 0] ]}.
Proof.
  destruct (structSpecForType exPoint) as [ss|v] eqn:Hss.
  - exists ss. split; [reflexivity|].
    rewrite (proj2 (ScanStruct_checks_length_then_keys RefEnv.env exPoint ss 0%nat onePoint
                      Hss) [bulk "X"; integer 6] (integer 1) (integer 2) []);
      [vm_compute; reflexivity | reflexivity | reflexivity | discriminate].
  - vm_compute in Hss. discriminate Hss.
Defined.

(** ** More on the compiled list and on what [AppendStruct] emits *)

Lemma candidatesOfFields_paths tname index fields :
  Forall (fun f => ∀ tname index cs,
            candidatesAt tname (Type_ f) index = Ok cs →
            NoDup (fs_index ∘ entry <$> cs)
            ∧ ∀ c, c ∈ cs → ∃ rel, fs_index (entry c) = index ++ rel)
         fields →
  ∀ fs i cs,
    fs = drop i fields →
    candidatesOfFields candidatesAt tname index fs i = Ok cs →
    NoDup (fs_index ∘ entry <$> cs)
    ∧ ∀ c, c ∈ cs → ∃ j rel, fs_index (entry c) = index ++ j :: rel ∧ (i <= j)%nat.
Proof.
  intros HF fs. induction fs as [|f fs IH]; intros i cs Hfs; simpl.
  - intros [= <-]. split; [constructor|]. intros c Hc. by apply elem_of_nil in Hc.
  - assert (Hi : fields !! i = Some f).
    { rewrite <- (Nat.add_0_r i), <- lookup_drop, <- Hfs. done. }
    assert (Hfs' : fs = drop (S i) fields).
    { apply (f_equal (drop 1)) in Hfs. simpl in Hfs. rewrite drop_0 in Hfs.
      by rewrite Hfs, drop_drop, Nat.add_1_r. }
    assert (Hnext : ∀ cs,
              candidatesOfFields candidatesAt tname index fs (S i) = Ok cs →
              NoDup (fs_index ∘ entry <$> cs)
              ∧ ∀ c, c ∈ cs →
                     ∃ j rel, fs_index (entry c) = index ++ j :: rel ∧ (i <= j)%nat).
    { intros cs' Hcs'. destruct (IH (S i) cs' Hfs' Hcs') as [Hnd Hp]. split; [done|].
      intros c Hc. destruct (Hp c Hc) as (j & rel & ? & ?). exists j, rel. split; [done|lia]. }
    destruct (negb (String.eqb (PkgPath f) "")); [by apply Hnext|].
    destruct (Anonymous f) eqn:Hanon.
    + case_bool_decide as Hk; [|by apply Hnext].
      destruct (candidatesAt (TypeName (Type_ f)) (Type_ f) (index ++ [i]))
        as [cs1|] eqn:Hc1; [|discriminate].
      destruct (candidatesOfFields candidatesAt tname index fs (S i))
        as [cs2|] eqn:Hc2; [|discriminate].
      intros [= <-].
      rewrite Forall_forall in HF.
      destruct (HF f (list_elem_of_lookup_2 _ _ _ Hi) _ _ _ Hc1) as [Hnd1 Hp1].
      destruct (IH (S i) cs2 Hfs' Hc2) as [Hnd2 Hp2].
      split.
      * rewrite fmap_app. apply NoDup_app. split; [done|]. split; [|done].
        intros q Hq1 Hq2.
        apply list_elem_of_fmap in Hq1 as (c1 & -> & Hin1).
        apply list_elem_of_fmap in Hq2 as (c2 & Heq & Hin2).
        destruct (Hp1 c1 Hin1) as (rel1 & Hr1).
        destruct (Hp2 c2 Hin2) as (j & rel2 & Hr2 & Hj).
        simpl in Heq, Hr1, Hr2. rewrite Hr1, Hr2, <- app_assoc in Heq.
        apply app_inv_head in Heq. simpl in Heq. injection Heq as Heq _. lia.
      * intros c Hc. apply elem_of_app in Hc as [Hc|Hc].
        -- destruct (Hp1 c Hc) as (rel & Hr). exists i, rel.
           simpl in Hr |- *. rewrite Hr, <- app_assoc. done.
        -- destruct (Hp2 c Hc) as (j & rel & ? & ?). exists j, rel. split; [done|lia].
    + destruct (resolveTag tname f) as [|e|name]; [by apply Hnext|discriminate|].
      destruct (candidatesOfFields candidatesAt tname index fs (S i))
        as [cs2|] eqn:Hc2; [|discriminate].
      intros [= <-].
      destruct (IH (S i) cs2 Hfs' Hc2) as [Hnd2 Hp2].
      split.
      * rewrite fmap_cons. apply NoDup_cons. split; [|done].
        intros Hin. apply list_elem_of_fmap in Hin as (c2 & Heq & Hin2).
        destruct (Hp2 c2 Hin2) as (j & rel2 & Hr2 & Hj).
        simpl in Heq, Hr2. rewrite Hr2 in Heq.
        apply app_inv_head in Heq. injection Heq as Heq _. lia.
      * intros c Hc. apply elem_of_cons in Hc as [->|Hc].
        -- exists i, []. done.
        -- destruct (Hp2 c Hc) as (j & rel & ? & ?). exists j, rel. split; [done|lia].
Qed.

Lemma candidatesAt_paths t :
  ∀ tname index cs,
    candidatesAt tname t index = Ok cs →
    NoDup (fs_index ∘ entry <$> cs)
    ∧ ∀ c, c ∈ cs → ∃ rel, fs_index (entry c) = index ++ rel.
Proof.
  induction t as [| | | | | | | | | fs IHfs | n u IHu |] using gtype_ind_fields;
    intros tname index cs; simpl; try discriminate.
  - intros Hcs.
    destruct (candidatesOfFields_paths tname index fs IHfs fs 0%nat cs eq_refl Hcs)
      as [Hnd Hp].
    split; [done|]. intros c Hc. destruct (Hp c Hc) as (j & rel & Hr & _). eauto.
  - apply IHu.
Qed.

(** X28.  No field is entered twice: the index paths of the entries of a
    compiled list are pairwise different, even where two entries bear the
    same name.  So [AppendStruct] emits every field at most once. *)
Theorem compiled_list_has_distinct_paths t ss :
  structSpecForType t = Ok ss →
  NoDup (fs_index <$> ss_l ss).
Proof.
  intros Hss. destruct (structSpecForType_Ok_candidates t ss Hss) as [cs Hcs].
  destruct (candidatesAt_paths t _ _ _ Hcs) as [Hnd _].
  assert (Hsub : ss_l ss `sublist_of` entry <$> cs).
  { revert Hss. unfold structSpecForType, compileStructSpec.
    rewrite compileAt_candidates. unfold candidates in Hcs. rewrite Hcs.
    pose proof (foldl_enterCandidate_sublist cs [] (∅, {| ss_m := ∅; ss_l := [] |})) as Hinv.
    destruct (foldl enterCandidate _ cs) as [depth ss'].
    intros [= <-]. by apply Hinv. }
  apply (sublist_NoDup _ (fs_index <$> (entry <$> cs)));
    [by rewrite <- list_fmap_compose | by apply fmap_sublist].
Qed.

Lemma compiled_list_has_distinct_paths_witness :
  ∃ ss, structSpecForType exShadow = Ok ss
        ∧ NoDup (fs_index <$> ss_l ss)
        ∧ ¬ NoDup (fs_name <$> ss_l ss).
Proof.
  assert (Hall : match structSpecForType exShadow with
                 | Ok ss => ss_l ss = [ {| fs_name := "A"; fs_index := [0%nat; 0%nat] |};
                                        {| fs_name := "A"; fs_index := [1%nat] |} ]
                 | Panicked _ => False
                 end).
  { vm_compute. reflexivity. }
  destruct (structSpecForType exShadow) as [ss|v] eqn:Hss; [|destruct Hall].
  exists ss. split; [reflexivity|].
  split; [exact (compiled_list_has_distinct_paths exShadow ss Hss)|].
  rewrite Hall. simpl. intros Hnd. apply NoDup_cons in Hnd as [Hnin _].
  apply Hnin. by left.
Defined.

(** X29.  What [AppendStruct] emits for a struct, passed by value or through
    a pointer: after the arguments it was given, for every entry of the
    compiled list in order, the entry's name as a string and then the value
    of the field the entry's index path leads to, under the field's own type
    (or, for a field of interface type, the value the interface holds). *)
Theorem AppendStruct_emits_the_fields args T ss v :
  structSpecForType T = Ok ss →
  (∀ h out h',
     AppendStruct args (Some (T, v)) h = Ret (out, None) h' →
     ∃ em, out = args ++ em ∧ emitted T v (ss_l ss) em)
  ∧ (∀ l h out h',
       h !! l = Some v →
       AppendStruct args (ptrTo T l) h = Ret (out, None) h' →
       ∃ em, out = args ++ em ∧ emitted T v (ss_l ss) em).
Proof.
  intros Hss. pose proof (structSpecForType_Ok_struct T ss Hss) as Hk.
  assert (Hloop : ∀ h out h',
            match appendStructLoop (RCopy T v) (ss_l ss) args h with
            | Ret out h' => Ret (out, None) h'
            | Panic pv => Panic pv
            | Fault => Fault
            end = Ret (out, @None error) h' →
            ∃ em, out = args ++ em ∧ emitted T v (ss_l ss) em).
  { intros h out h'.
    destruct (appendStructLoop (RCopy T v) (ss_l ss) args h) as [o h1| |] eqn:Hl;
      try discriminate.
    intros [= <- <-].
    destruct (appendStructLoop_copy_inv _ _ _ _ _ _ _ Hl) as (_ & em & -> & Hem). eauto. }
  split.
  - intros h out h'. rewrite AppendStruct_of_value by (rewrite Hk; discriminate).
    rewrite bool_decide_false by (intros Hne; by apply Hne). rewrite Hss. apply Hloop.
  - intros l h out h' Hl. unfold ptrTo.
    rewrite (AppendStruct_of_pointer args (TPtr T) T l h eq_refl).
    rewrite bool_decide_false by (intros Hne; by apply Hne). rewrite Hss.
    rewrite (appendStructLoop_place_copy T l v h (ss_l ss) Hl); [apply Hloop|].
    intros fs Hin. destruct (structSpecForType_wf T ss Hss) as [Hnamed _].
    destruct (Hnamed fs Hin) as [g Hg]. exists (Type_ g). by apply namedFieldAt_typeAt.
Qed.

Lemma AppendStruct_emits_the_fields_witness :
  ∃ ss em,
    structSpecForType exPoint = Ok ss
    ∧ AppendStruct [bulk "HMSET"] (Some (exPoint, exPointValue)) onePoint
      = Ret ([bulk "HMSET"] ++ em, None) onePoint
    ∧ emitted exPoint exPointValue (ss_l ss) em.
Proof.
  assert (Hrun : AppendStruct [bulk "HMSET"] (Some (exPoint, exPointValue)) onePoint
                 = Ret ([bulk "HMSET";
                         Some (TString, VString "X"); Some (TInt Sz8, VInt 5);
                         Some (TString, VString "y"); Some (TUint Sz16, VUint 700)], None)
                     onePoint) by (vm_compute; reflexivity).
  destruct (structSpecForType exPoint) as [ss|pv] eqn:Hss.
  - destruct (proj1 (AppendStruct_emits_the_fields [bulk "HMSET"] exPoint ss exPointValue
                       Hss) _ _ _ Hrun) as (em & Hout & Hem).
    exists ss, em. split; [reflexivity|]. split; [|exact Hem].
    rewrite Hrun, Hout. reflexivity.
  - vm_compute in Hss. discriminate Hss.
Defined.
